(** * sip-tg-bridge: the media plane, embedded and verified

    A shallow embedding of the parts of the bridge that carry its media-plane
    guarantees:

    - [pcm]          : [bridge/pcm/playout_buffer.go], the PCM playout FIFO
                       with its one-sample drift adjustment;
    - [bridge]       : the SIP->TG pacing loop of [bridge/media_bridge.go]
                       ([MediaBridge.writeTG]), one tick at a time;
    - [pipeline]     : [bridge/pipeline/silence_filler.go];
    - [media]        : the codec choice of the diago fork
                       ([CodecAudioFromList], [CanonicalSDPName]);
    - [endpoints]    : [TgEndpoint.SendPCMFrame10ms];
    - [sip_endpoint] : [NewSipEndpoint];
    - [pcm16]        : the frame assemblers and the PCM16 conversions of
                       package [pcm];
    - [reverse]      : the speaker queue of [MediaBridge.writeSIP] at a tick;
    - [sink]         : [bridge/pipeline/tg_playout_sink.go].

    Conventions.  A Go slice is a [list]; a function that mutates a slice it
    was given returns the new contents.  A run-time panic (index or slice
    bound out of range, integer division by zero) is the outcome [Panic].
    Fixed-width integers are [Z] with the wrap-around written where the
    source computes: [int16], [int32], [uint16], [uint32], [uint64] and the
    64-bit [int].  Slice lengths and offsets into slices are [Z] as they are:
    a length plus a small constant does not leave the 64-bit range. *)

From Stdlib Require Import ZArith List Lia Bool.
From Stdlib Require String Ascii DecimalString.
From Stdlib Require Import Init.Byte.
Import ListNotations.
Open Scope Z_scope.

Set Implicit Arguments.

(** ** Go run-time model *)

Module Go.

Inductive result (A : Type) : Type :=
| Ok (a : A)
| Panic.
Arguments Ok {A} a.
Arguments Panic {A}.

Definition bind {A B} (m : result A) (k : A -> result B) : result B :=
  match m with
  | Ok a => k a
  | Panic => Panic
  end.

Definition len {A} (l : list A) : Z := Z.of_nat (length l).

(** Two's-complement reading of the low [w] bits. *)
Definition wrap_signed (w : Z) (z : Z) : Z :=
  (z + 2 ^ (w - 1)) mod 2 ^ w - 2 ^ (w - 1).
Definition wrap_unsigned (w : Z) (z : Z) : Z := z mod 2 ^ w.

Definition int16 := wrap_signed 16.
Definition int32 := wrap_signed 32.
Definition int64 := wrap_signed 64.
Definition int := wrap_signed 64.
Definition uint16 := wrap_unsigned 16.
Definition uint32 := wrap_unsigned 32.
Definition uint64 := wrap_unsigned 64.

Definition byte_val (b : byte) : Z := Z.of_N (Byte.to_N b).
Definition to_byte (z : Z) : byte :=
  match Byte.of_N (Z.to_N (z mod 256)) with
  | Some b => b
  | None => "000"%byte
  end.

(** [p[i]] *)
Definition index {A} (p : list A) (i : Z) : result A :=
  if (0 <=? i) && (i <? len p) then
    match nth_error p (Z.to_nat i) with
    | Some a => Ok a
    | None => Panic
    end
  else Panic.

(** [p[lo:hi]]; the capacity is taken to be the length. *)
Definition slice {A} (p : list A) (lo hi : Z) : result (list A) :=
  if (0 <=? lo) && (lo <=? hi) && (hi <=? len p) then
    Ok (firstn (Z.to_nat (hi - lo)) (skipn (Z.to_nat lo) p))
  else Panic.

(** [p[lo:]] and [p[:hi]] *)
Definition slice_from {A} (p : list A) (lo : Z) := slice p lo (len p).
Definition slice_to {A} (p : list A) (hi : Z) := slice p 0 hi.

(** [copy(dst, src)]: the contents of [dst] afterwards. *)
Definition copy {A} (dst src : list A) : list A :=
  let n := Nat.min (length dst) (length src) in
  firstn n src ++ skipn n dst.

(** [copy(dst[lo:hi], src)]: the contents of [dst] afterwards. *)
Definition copy_into {A} (dst : list A) (lo hi : Z) (src : list A)
  : result (list A) :=
  bind (slice dst lo hi) (fun window =>
  Ok (firstn (Z.to_nat lo) dst ++ copy window src ++ skipn (Z.to_nat hi) dst)).

(** [p[i] = v] *)
Definition store {A} (p : list A) (i : Z) (v : A) : result (list A) :=
  if (0 <=? i) && (i <? len p) then
    Ok (firstn (Z.to_nat i) p ++ v :: skipn (S (Z.to_nat i)) p)
  else Panic.

(** [a / b] on Go integers: truncated, panics on zero. *)
Definition div (a b : Z) : result Z :=
  if b =? 0 then Panic else Ok (Z.quot a b).

End Go.

Import Go.

Declare Scope go_scope.
Delimit Scope go_scope with go.
Notation "x <- m ;; k" := (bind m (fun x => k))
  (at level 61, m at next level, right associativity) : go_scope.
Notation "' pat <- m ;; k" := (bind m (fun x => match x with pat => k end))
  (at level 61, pat pattern, m at next level, right associativity) : go_scope.
Open Scope go_scope.

(** ** package pcm: the playout buffer *)

Module pcm.

Record PCMPlayoutBuffer : Type := {
  frameSize : Z;
  buf : list byte
}.

Definition NewPCMPlayoutBuffer (frameSize : Z) : PCMPlayoutBuffer :=
  let frameSize := if frameSize <? 1 then 1 else frameSize in
  {| frameSize := frameSize; buf := [] |}.

Definition LenFrames (b : PCMPlayoutBuffer) : result Z :=
  div (len (buf b)) (frameSize b).

Definition WriteFrame (b : PCMPlayoutBuffer) (frame : list byte)
  : PCMPlayoutBuffer :=
  if negb (len frame =? frameSize b) then b
  else {| frameSize := frameSize b; buf := buf b ++ frame |}.

Definition DropFrames (b : PCMPlayoutBuffer) (n : Z)
  : result (PCMPlayoutBuffer * Z) :=
  if n <=? 0 then Ok (b, 0)
  else
    available <- div (len (buf b)) (frameSize b) ;;
    if available <=? 0 then Ok (b, 0)
    else
      let n := if n >? available then available else n in
      rest <- slice_from (buf b) (n * frameSize b) ;;
      Ok ({| frameSize := frameSize b; buf := rest |}, n).

Definition readS16 (p : list byte) (off : Z) : result Z :=
  lo <- index p off ;;
  hi <- index p (off + 1) ;;
  Ok (int16 (Z.lor (byte_val lo) (Z.shiftl (byte_val hi) 8))).

Definition abs16 (v : Z) : Z :=
  if v <? 0 then int32 (int16 (- v)) else int32 v.

Definition zero_fill (dst : list byte) : list byte :=
  map (fun _ => "000"%byte) dst.

(** One iteration of the scan in [findBestCut]: the score of the candidate
    offset [off]. *)
Definition cutScore (p : list byte) (off : Z) : result Z :=
  a <- readS16 p (off - 2) ;;
  bb <- readS16 p off ;;
  c <- readS16 p (off + 2) ;;
  let e := int32 (int32 (abs16 bb + abs16 a) + abs16 c) in
  let d := int32 (abs16 (int16 (bb - a)) + abs16 (int16 (c - bb))) in
  let z := if (Z.lxor a bb <? 0) || (Z.lxor bb c <? 0) then -2000 else 0 in
  Ok (int32 (int32 (e + d) + z)).

(** The loop [for off := minOff; off <= maxOff; off += 2], by its trip
    count. *)
Fixpoint findBestCut_scan (trips : nat) (p : list byte)
    (off bestOff bestScore : Z) : result Z :=
  match trips with
  | O => Ok bestOff
  | S trips' =>
      score <- cutScore p off ;;
      if score <? bestScore
      then findBestCut_scan trips' p (off + 2) off score
      else findBestCut_scan trips' p (off + 2) bestOff bestScore
  end.

Definition findBestCut (p : list byte) (minOff maxOff : Z) : result Z :=
  let minOff := if minOff <? 2 then 2 else minOff in
  let maxOff := if maxOff >? len p - 4 then len p - 4 else maxOff in
  let minOff := Z.quot minOff 2 * 2 in
  let maxOff := Z.quot maxOff 2 * 2 in
  if maxOff <? minOff then Ok (Z.quot (len p) 2 * 2)
  else
    findBestCut_scan (Z.to_nat (Z.quot (maxOff - minOff) 2 + 1)) p
      minOff minOff (2 ^ 31 - 1).

(** The arm [case 1] of the switch in [ReadIntoAdjust]: [inp] has
    [frameSize+2] bytes, one sample is dropped. *)
Definition dropSample (frameSize : Z) (inp dst : list byte)
  : result (list byte) :=
  let mid := Z.quot frameSize 2 in
  let win := 80 in
  dropAt <- findBestCut inp (mid - win) (mid + win) ;;
  let dropAt := if dropAt <? 0 then 0 else dropAt in
  let dropAt := if dropAt >? frameSize then frameSize else dropAt in
  before <- slice_to inp dropAt ;;
  dst <- copy_into dst 0 dropAt before ;;
  after <- slice_from inp (dropAt + 2) ;;
  dst <- copy_into dst dropAt (len dst) after ;;
  Ok dst.

(** The arm [case -1]: [inp] has [frameSize-2] bytes, one interpolated
    sample is inserted. *)
Definition dupSample (frameSize : Z) (inp dst : list byte)
  : result (list byte) :=
  let mid := Z.quot frameSize 2 in
  let win := 80 in
  dupAt <- findBestCut inp (mid - win) (mid + win) ;;
  let dupAt := Z.quot dupAt 2 * 2 in
  let dupAt := if dupAt <? 2 then 2 else dupAt in
  let dupAt := if dupAt >? frameSize - 2 then frameSize - 2 else dupAt in
  let leftOff := dupAt - 2 in
  let rightOff := dupAt in
  let rightOff := if rightOff >? len inp - 2 then len inp - 2 else rightOff in
  l <- readS16 inp leftOff ;;
  rv <- readS16 inp rightOff ;;
  let ins := int16 (Z.quot (int32 (int32 l + int32 rv)) 2) in
  before <- slice_to inp dupAt ;;
  dst <- copy_into dst 0 dupAt before ;;
  dst <- store dst dupAt (to_byte (uint16 ins)) ;;
  dst <- store dst (dupAt + 1) (to_byte (Z.shiftr (uint16 ins) 8)) ;;
  after <- slice_from inp dupAt ;;
  dst <- copy_into dst (dupAt + 2) (len dst) after ;;
  Ok dst.

Definition ReadIntoAdjust (b : PCMPlayoutBuffer) (dst : list byte)
    (adjustSamples : Z) : result (PCMPlayoutBuffer * list byte * bool) :=
  if negb (len dst =? frameSize b) then Ok (b, dst, false)
  else
    let adjustSamples :=
      if adjustSamples >? 1 then 1
      else if adjustSamples <? -1 then -1 else adjustSamples in
    if negb (Z.rem (frameSize b) 2 =? 0) then
      if len (buf b) <? frameSize b then Ok (b, zero_fill dst, false)
      else
        head <- slice_to (buf b) (frameSize b) ;;
        rest <- slice_from (buf b) (frameSize b) ;;
        Ok ({| frameSize := frameSize b; buf := rest |}, copy dst head, true)
    else
      let inBytes := frameSize b + adjustSamples * 2 in
      let inBytes := if inBytes <? 0 then 0 else inBytes in
      if (len (buf b) <? inBytes) || (inBytes =? 0) then
        Ok (b, zero_fill dst, false)
      else
        inp <- slice_to (buf b) inBytes ;;
        rest <- slice_from (buf b) inBytes ;;
        let b' := {| frameSize := frameSize b; buf := rest |} in
        if adjustSamples =? 0 then
          head <- slice_to inp (frameSize b) ;;
          Ok (b', copy dst head, true)
        else if adjustSamples =? 1 then
          dst <- dropSample (frameSize b) inp dst ;;
          Ok (b', dst, true)
        else if adjustSamples =? -1 then
          dst <- dupSample (frameSize b) inp dst ;;
          Ok (b', dst, true)
        else
          head <- slice_to inp (frameSize b) ;;
          Ok (b', copy dst head, true).


End pcm.

Import pcm.


(** ** package bridge: the SIP->TG pacing loop *)

Module bridge.

Record MediaBridge : Type := {
  sipToTGBuffer : PCMPlayoutBuffer;
  driftTarget : Z;
  driftMaxBurst : Z;
  driftAcc : Z
}.

(** [tgFrameBytes] is [tg.Format().FrameBytes()]. *)
Definition NewMediaBridge (tgFrameBytes driftTarget driftMaxBurst : Z)
  : MediaBridge :=
  let driftTarget := if driftTarget <? 1 then 1 else driftTarget in
  let driftMaxBurst := if driftMaxBurst <? 1 then 1 else driftMaxBurst in
  {| sipToTGBuffer := NewPCMPlayoutBuffer tgFrameBytes;
     driftTarget := driftTarget;
     driftMaxBurst := driftMaxBurst;
     driftAcc := 0 |}.

(** The playout buffer is shared with the decode chain, which appends to
    it ([tgPlayoutSink.WriteSample] -> [WriteFrame]) while the pacing loop
    runs.  Every buffer call takes the buffer's lock for itself, so within
    one tick frames can land between the calls: after the backlog has been
    measured, after [DropFrames] has returned, and after the backlog has
    been measured again.  (On a tick on which the cap does not fire the
    backlog is measured once, and the three windows are the one between
    [LenFrames] and [ReadIntoAdjust].) *)
Record racing : Type := {
  w_measure : list (list byte);
  w_drop : list (list byte);
  w_remeasure : list (list byte)
}.

Definition no_race : racing :=
  {| w_measure := []; w_drop := []; w_remeasure := [] |}.

(** The calls of [WriteFrame] for [frames], in order. *)
Definition writes (B : PCMPlayoutBuffer) (frames : list (list byte))
  : PCMPlayoutBuffer :=
  fold_left WriteFrame frames B.

(** What one pass through [case <-ticker.C] of [writeTG] did: whether the
    emergency cap fired and how many frames it dropped, the backlog and the
    accumulator as they stand after the cap's [if] block, the buffer as the
    frame was read from it, the [adjust] handed to [ReadIntoAdjust], the
    accumulator afterwards, and the frame sent on. *)
Record tick : Type := {
  tick_hardcap : bool;
  tick_dropped : Z;
  tick_backlog : Z;
  tick_acc_in : Z;
  tick_read_from : PCMPlayoutBuffer;
  tick_adjust : Z;
  tick_acc : Z;
  tick_frame : list byte;
  tick_ok : bool
}.

(** [if errFrames >= 2 { driftAcc += errFrames/2 } else if errFrames <= -2
    { driftAcc += errFrames/2 }] *)
Definition accumulate (acc errFrames : Z) : Z :=
  if errFrames >=? 2 then int (acc + Z.quot errFrames 2)
  else if errFrames <=? -2 then int (acc + Z.quot errFrames 2)
  else acc.

(** [adjust := 0; if driftAcc > 0 { adjust = 1; driftAcc-- } else if
    driftAcc < 0 { adjust = -1; driftAcc++ }] *)
Definition applyAcc (acc : Z) : Z * Z :=
  if acc >? 0 then (1, int (acc - 1))
  else if acc <? 0 then (-1, int (acc + 1))
  else (0, acc).

(** The body of [case <-ticker.C] up to the hand-over of [frameBuf] to the
    TG endpoint, with the frames [r] that land in the buffer between its
    buffer calls. *)
Definition writeTG_tick (b : MediaBridge) (frameBuf : list byte) (r : racing)
  : result (MediaBridge * tick) :=
  backlog <- LenFrames (sipToTGBuffer b) ;;
  let buffer := writes (sipToTGBuffer b) (w_measure r) in
  '(hardcap, buffer, dropped, acc, backlog) <-
    (if backlog >? int (driftTarget b + 200) then
       '(buffer, dropped) <-
         DropFrames buffer (int (backlog - driftTarget b)) ;;
       let buffer := writes buffer (w_drop r) in
       backlog <- LenFrames buffer ;;
       Ok (true, buffer, dropped, 0, backlog)
     else Ok (false, writes buffer (w_drop r), 0, driftAcc b, backlog)) ;;
  let errFrames := int (backlog - driftTarget b) in
  let acc_in := acc in
  let acc := accumulate acc errFrames in
  let '(adjust, acc) := applyAcc acc in
  let buffer := writes buffer (w_remeasure r) in
  '(buffer', frame, ok) <- ReadIntoAdjust buffer frameBuf adjust ;;
  Ok ({| sipToTGBuffer := buffer';
         driftTarget := driftTarget b;
         driftMaxBurst := driftMaxBurst b;
         driftAcc := acc |},
      {| tick_hardcap := hardcap;
         tick_dropped := dropped;
         tick_backlog := backlog;
         tick_acc_in := acc_in;
         tick_read_from := buffer;
         tick_adjust := adjust;
         tick_acc := acc;
         tick_frame := frame;
         tick_ok := ok |}).

(** The two workers that touch the playout buffer: the decode chain writes
    a frame, between two ticks or (the frames of a [Tick]) while one is
    under way; the pacing loop ticks. *)
Inductive event : Type :=
| Produce (frame : list byte)
| Tick (r : racing).

(** A schedule of writes and ticks.  [frameBuf] is the one slice the loop
    allocates and reuses. *)
Fixpoint run (b : MediaBridge) (frameBuf : list byte) (evs : list event)
  : result (MediaBridge * list byte * list tick) :=
  match evs with
  | [] => Ok (b, frameBuf, [])
  | Produce frame :: evs' =>
      run {| sipToTGBuffer := WriteFrame (sipToTGBuffer b) frame;
             driftTarget := driftTarget b;
             driftMaxBurst := driftMaxBurst b;
             driftAcc := driftAcc b |} frameBuf evs'
  | Tick r :: evs' =>
      '(b', t) <- writeTG_tick b frameBuf r ;;
      '(b'', frameBuf', ts) <- run b' (tick_frame t) evs' ;;
      Ok (b'', frameBuf', t :: ts)
  end.

End bridge.

Import bridge.

(** ** package pipeline: the silence filler *)

Module pipeline.

(** [msdk.PCM16Sample]: a frame of int16 samples. *)
Definition PCM16Sample : Type := list Z.

(** The fields of [rtp.Header] the bridge reads. *)
Record Header : Type := {
  SequenceNumber : Z;   (* uint16 *)
  Timestamp : Z;        (* uint32 *)
  PayloadType : Z;
  Marker : bool;
  SSRC : Z
}.


Section SilenceFiller.

(** The two sinks are interfaces in the source ([msdkrtp.Handler] and
    [msdk.PCM16Writer]).  A call returns the sink's next state and the error
    it reports, if any. *)
Variables Enc Pcm error : Type.
Variable encHandleRTP : Enc -> Header -> list byte -> Enc * option error.
Variable pcmWriteSample : Pcm -> PCM16Sample -> Pcm * option error.

Record silenceFiller : Type := {
  maxGapSize : Z;
  encodedSink : Enc;
  pcmSink : Pcm;
  samplesPerFrame : Z;
  lastTS : Z;     (* atomic.Uint64 *)
  lastSeq : Z;    (* atomic.Uint64 *)
  packets : Z     (* atomic.Uint64 *)
}.


Definition isSilenceSuppression (h : silenceFiller) (header : Header)
  : result (silenceFiller * (bool * Z)) :=
  let packets := uint64 (packets h + 1) in
  let lastSeq := uint16 (lastSeq h) in
  let lastTS := uint32 (lastTS h) in
  let h := {| maxGapSize := maxGapSize h;
              encodedSink := encodedSink h;
              pcmSink := pcmSink h;
              samplesPerFrame := samplesPerFrame h;
              lastTS := uint64 (Timestamp header);
              lastSeq := uint64 (SequenceNumber header);
              packets := packets |} in
  if packets =? 1 then Ok (h, (false, 0))
  else
    let expectedSeq := uint16 (lastSeq + 1) in
    let expectedTS := uint32 (lastTS + uint32 (samplesPerFrame h)) in
    let seqDiff := uint16 (SequenceNumber header - expectedSeq) in
    let tsDiff := uint32 (Timestamp header - expectedTS) in
    if negb (seqDiff =? 0) then Ok (h, (false, 0))
    else
      missedFrames <- div (int tsDiff) (int (samplesPerFrame h)) ;;
      if missedFrames =? 0 then Ok (h, (false, 0))
      else Ok (h, (true, missedFrames)).

(** [make(msdk.PCM16Sample, n)] *)
Definition make_sample (n : Z) : result PCM16Sample :=
  if n <? 0 then Panic else Ok (repeat 0 (Z.to_nat n)).

(** The loop [for ; framesToFill > 0; framesToFill--], by its trip count. *)
Fixpoint fillWithSilence_loop (trips : nat) (spf : Z) (sink : Pcm)
  : result (Pcm * option error) :=
  match trips with
  | O => Ok (sink, None)
  | S trips' =>
      silence <- make_sample spf ;;
      match pcmWriteSample sink silence with
      | (sink', Some err) => Ok (sink', Some err)
      | (sink', None) => fillWithSilence_loop trips' spf sink'
      end
  end.

Definition fillWithSilence (h : silenceFiller) (framesToFill : Z)
  : result (silenceFiller * option error) :=
  '(sink, err) <-
    fillWithSilence_loop (Z.to_nat framesToFill) (samplesPerFrame h)
      (pcmSink h) ;;
  Ok ({| maxGapSize := maxGapSize h;
         encodedSink := encodedSink h;
         pcmSink := sink;
         samplesPerFrame := samplesPerFrame h;
         lastTS := lastTS h;
         lastSeq := lastSeq h;
         packets := packets h |}, err).

Definition forward (h : silenceFiller) (header : Header) (payload : list byte)
  : silenceFiller * option error :=
  let '(enc, err) := encHandleRTP (encodedSink h) header payload in
  ({| maxGapSize := maxGapSize h;
      encodedSink := enc;
      pcmSink := pcmSink h;
      samplesPerFrame := samplesPerFrame h;
      lastTS := lastTS h;
      lastSeq := lastSeq h;
      packets := packets h |}, err).

Definition HandleRTP (h : silenceFiller) (header : Header)
    (payload : list byte) : result (silenceFiller * option error) :=
  '(h, (isDTX, missingFrameCount)) <- isSilenceSuppression h header ;;
  if isDTX && (missingFrameCount <=? int (maxGapSize h * 100)) then
    if missingFrameCount <=? maxGapSize h then
      '(h, err) <- fillWithSilence h missingFrameCount ;;
      match err with
      | Some e => Ok (h, Some e)
      | None => Ok (forward h header payload)
      end
    else Ok (forward h header payload)
  else Ok (forward h header payload).

(** The decode-read loop of [readSIP] hands packets over one by one and
    stops at the first error. *)
Fixpoint feed (h : silenceFiller) (pkts : list (Header * list byte))
  : result (silenceFiller * option error) :=
  match pkts with
  | [] => Ok (h, None)
  | (header, payload) :: pkts' =>
      '(h', err) <- HandleRTP h header payload ;;
      match err with
      | Some e => Ok (h', Some e)
      | None => feed h' pkts'
      end
  end.

End SilenceFiller.

(** A PCM sink that records what is written to it and never fails. *)
Definition recorder : Type := list PCM16Sample.
Definition record_sample {error : Type} (log : recorder) (s : PCM16Sample)
  : recorder * option error := (log ++ [s], None).

End pipeline.

Import pipeline.

(** ** Go strings, as far as the codec names need them *)

Module strings.
Import String Ascii.
Local Open Scope string_scope.
Local Open Scope Z_scope.

(** Case mapping and white space are those of ASCII.  The names compared
    below are ASCII words without [k] or [s]-like letters whose Unicode case
    folds leave ASCII, so on them Go's Unicode-aware functions agree with
    these. *)
Definition lower (c : ascii) : ascii :=
  let n := nat_of_ascii c in
  if ((65 <=? n) && (n <=? 90))%nat then ascii_of_nat (n + 32) else c.

Fixpoint ToLower (s : string) : string :=
  match s with
  | EmptyString => EmptyString
  | String c r => String (lower c) (ToLower r)
  end.

Definition EqualFold (s t : string) : bool :=
  String.eqb (ToLower s) (ToLower t).

Definition isSpace (c : ascii) : bool :=
  let n := nat_of_ascii c in
  ((n =? 32) || ((9 <=? n) && (n <=? 13)))%nat.

Fixpoint trimLeft (s : string) : string :=
  match s with
  | EmptyString => EmptyString
  | String c r => if isSpace c then trimLeft r else s
  end.

Fixpoint trimRight (s : string) : string :=
  match s with
  | EmptyString => EmptyString
  | String c r =>
      match trimRight r with
      | EmptyString => if isSpace c then EmptyString else String c EmptyString
      | r' => String c r'
      end
  end.

Definition TrimSpace (s : string) : string := trimRight (trimLeft s).

(** The verb [%d] of [fmt.Sprintf]. *)
Definition itoa (z : Z) : string :=
  DecimalString.NilZero.string_of_int (Z.to_int z).

End strings.

(** ** package media (the diago fork): codec choice *)

Module media.
Import String.
Local Open Scope string_scope.
Local Open Scope Z_scope.
Import strings.

Record Codec : Type := {
  Name : string;
  PayloadType : Z;    (* uint8 *)
  SampleRate : Z;     (* uint32 *)
  SampleDur : Z;      (* time.Duration *)
  NumChannels : Z
}.

(** media-sdk's [CodecInfo], and a registered codec with the two facts
    [NewSipEndpoint] asks of it: whether it is an [rtp.AudioCodec] and
    whether [msdk.CodecEnabled] holds. *)
Record CodecInfo : Type := {
  info_SDPName : string;
  info_SampleRate : Z;
  info_RTPClockRate : Z;
  info_Priority : Z
}.

Record LKCodec : Type := {
  Info : CodecInfo;
  isAudioCodec : bool;
  CodecEnabled : bool
}.

(** [sdp.CodecByName] of media-sdk: the process-wide codec registry.  What
    it holds depends on the build (Opus is registered under the build tag
    [opus] only), so it is a parameter of the functions that consult it. *)
Definition Registry : Type := string -> option LKCodec.

(** [dtmf.SDPName] of media-sdk. *)
Definition dtmf_SDPName : string := "telephone-event/8000".

Definition SDPName (c : Codec) : string :=
  if (NumChannels c >? 0) && negb (NumChannels c =? 1) then
    Name c ++ "/" ++ itoa (SampleRate c) ++ "/" ++ itoa (NumChannels c)
  else Name c ++ "/" ++ itoa (SampleRate c).

Definition CanonicalSDPName (c : Codec) : string :=
  let name := ToLower (TrimSpace (Name c)) in
  if SampleRate c =? 0 then SDPName c
  else
    let ch := NumChannels c in
    let ch := if ch <=? 0 then 1 else ch in
    if String.eqb name "pcmu" then "PCMU/8000"
    else if String.eqb name "pcma" then "PCMA/8000"
    else if String.eqb name "g722" then "G722/8000"
    else if String.eqb name "opus" then
      "opus/" ++ itoa (SampleRate c) ++ "/" ++ itoa ch
    else if negb (ch =? 1) then
      Name c ++ "/" ++ itoa (SampleRate c) ++ "/" ++ itoa ch
    else Name c ++ "/" ++ itoa (SampleRate c).

Definition IsDTMF (c : Codec) : bool :=
  let n := SDPName c in
  EqualFold n dtmf_SDPName || EqualFold n (dtmf_SDPName ++ "/1").

Definition CodecPreferenceWeight (reg : Registry) (c : Codec) : Z :=
  if IsDTMF c || EqualFold (Name c) "telephone-event" then - 2 ^ 20
  else
    match reg (CanonicalSDPName c) with
    | Some lk => info_Priority (Info lk)
    | None => -1000
    end.

(** The loop of [CodecAudioFromList] from index [i] on. *)
Fixpoint CodecAudioFromList_scan (reg : Registry) (codecs : list Codec)
    (i bestIdx bestPrio : Z) : Z * Z :=
  match codecs with
  | [] => (bestIdx, bestPrio)
  | codec :: rest =>
      if IsDTMF codec || EqualFold (Name codec) "telephone-event" then
        CodecAudioFromList_scan reg rest (i + 1) bestIdx bestPrio
      else
        let p := CodecPreferenceWeight reg codec in
        if (bestIdx =? -1) || (p >? bestPrio) then
          CodecAudioFromList_scan reg rest (i + 1) i p
        else CodecAudioFromList_scan reg rest (i + 1) bestIdx bestPrio
  end.

Definition CodecAudioFromList (reg : Registry) (codecs : list Codec)
  : option Codec :=
  let '(bestIdx, _) := CodecAudioFromList_scan reg codecs 0 (-1) (- 2 ^ 30) in
  if bestIdx >=? 0 then nth_error codecs (Z.to_nat bestIdx) else None.

(** The negotiated state of a [MediaSession] that [NewSipEndpoint] reads:
    the result of [CommonCodecs()] and the field [Codecs]. *)
Record MediaSession : Type := {
  CommonCodecs : list Codec;
  Codecs : list Codec
}.

End media.

(** ** package endpoints: the TG injector clock *)

Module endpoints.

(** [time.Time] as read from [time.Now()]: the wall clock in Unix
    milliseconds and the monotonic clock in nanoseconds. *)
Record Time : Type := {
  wall_ms : Z;
  mono_ns : Z
}.

Definition maxDuration : Z := 2 ^ 63 - 1.
Definition minDuration : Z := - 2 ^ 63.

(** [t.Sub(u)] on two readings that carry a monotonic part; the result
    saturates at the ends of [time.Duration]. *)
Definition Sub (t u : Time) : Z :=
  Z.max minDuration (Z.min maxDuration (mono_ns t - mono_ns u)).

(** [d.Milliseconds()] *)
Definition Milliseconds (d : Z) : Z := Z.quot d 1000000.

Definition UnixMilli (t : Time) : Z := wall_ms t.

Record TgEndpoint : Type := {
  tg_frameSize : Z;
  tg_sampleRate : Z;
  stepMs : Z;
  micOnce : bool;          (* whether [micOnce.Do] has run *)
  micStart : Time;
  micStartWallMs : Z;
  micLastTsMs : Z
}.

Definition zeroTime : Time := {| wall_ms := 0; mono_ns := 0 |}.

Definition NewTgEndpoint (frameSize sampleRate : Z) : TgEndpoint :=
  let stepMs := 10 in
  let stepMs :=
    if (sampleRate >? 0) && (frameSize >? 0) then
      let samples := Z.quot frameSize 2 in
      if samples >? 0 then
        let stepMs := Z.quot (int64 (int (samples * 1000))) (int64 sampleRate) in
        if stepMs <? 1 then 1 else stepMs
      else stepMs
    else stepMs in
  {| tg_frameSize := frameSize;
     tg_sampleRate := sampleRate;
     stepMs := stepMs;
     micOnce := false;
     micStart := zeroTime;
     micStartWallMs := 0;
     micLastTsMs := 0 |}.

(** What one call hands to [SendExternalFrame] as
    [AbsoluteCaptureTimestampMs], with the [elapsedMs] it was derived from. *)
Record capture : Type := {
  cap_elapsedMs : Z;
  cap_ts : Z
}.

(** [SendPCMFrame10ms], up to the call of [SendExternalFrame].  [now_once] is
    the reading of [time.Now()] inside [micOnce.Do], taken on the first call
    only; [now_since] is the reading inside [time.Since]. *)
Definition SendPCMFrame10ms (s : TgEndpoint) (now_once now_since : Time)
  : TgEndpoint * capture :=
  let step := stepMs s in
  let step := if step <? 1 then 10 else step in
  let s :=
    if micOnce s then s
    else
      let t := now_once in
      {| tg_frameSize := tg_frameSize s;
         tg_sampleRate := tg_sampleRate s;
         stepMs := stepMs s;
         micOnce := true;
         micStart := t;
         micStartWallMs := UnixMilli t;
         micLastTsMs := int64 (UnixMilli t - step) |} in
  let elapsedMs := Milliseconds (Sub now_since (micStart s)) in
  let ts := int64 (micStartWallMs s + int64 (Z.quot elapsedMs step * step)) in
  let ts := if ts <=? micLastTsMs s then int64 (micLastTsMs s + step) else ts in
  ({| tg_frameSize := tg_frameSize s;
      tg_sampleRate := tg_sampleRate s;
      stepMs := stepMs s;
      micOnce := micOnce s;
      micStart := micStart s;
      micStartWallMs := micStartWallMs s;
      micLastTsMs := ts |},
   {| cap_elapsedMs := elapsedMs; cap_ts := ts |}).

(** A sequence of injector calls, each with its two clock readings. *)
Fixpoint inject (s : TgEndpoint) (clock : list (Time * Time))
  : TgEndpoint * list capture :=
  match clock with
  | [] => (s, [])
  | (now_once, now_since) :: clock' =>
      let '(s', c) := SendPCMFrame10ms s now_once now_since in
      let '(s'', cs) := inject s' clock' in
      (s'', c :: cs)
  end.

End endpoints.

Import endpoints.


(** ** package endpoints: construction of the SIP endpoint *)

Module sip_endpoint.
Import String.
Local Open Scope string_scope.
Local Open Scope Z_scope.
Import strings media.

Inductive error : Type :=
| ErrSessionNotReady        (* "sip media session not ready" *)
| ErrDTMFOnly (commons : list Codec)
                            (* "no audio codec negotiated (common codecs are
                               DTMF-only)" *)
| ErrNoAudioCodec           (* "no audio codec negotiated" *)
| ErrUnsupportedCodec (name : string)
| ErrUnsupportedChannels (n : Z)
| ErrCannotMap (name : string)
| ErrCodecNotAvailable (sdpName : string).

Record SIPMediaConfig : Type := {
  JitterMinPackets : Z;   (* uint16 *)
  FrameDuration : Z       (* time.Duration, in nanoseconds *)
}.

(** The endpoint.  The RTP reader and writer handles are taken from the
    dialog as they are and left out; so is [FrameSize], which the source
    computes in floating point. *)
Record SipEndpoint : Type := {
  LK : LKCodec;
  LKSDPName : string;
  Codec_ : Codec;
  ep_SampleRate : Z;
  RTPClockRate : Z;
  Channels : Z;
  FrameDur : Z;
  EnableJitter : bool
}.

Definition maxInt (a b : Z) : Z := if a >? b then a else b.

Definition pickAudio (reg : Registry) (session : option MediaSession)
  : Codec + error :=
  match session with
  | None => inr ErrSessionNotReady
  | Some session =>
      let commons := CommonCodecs session in
      if len commons >? 0 then
        match CodecAudioFromList reg commons with
        | Some c => inl c
        | None => inr (ErrDTMFOnly commons)
        end
      else
        match CodecAudioFromList reg (Codecs session) with
        | Some c => inl c
        | None => inr ErrNoAudioCodec
        end
  end.

Definition NewSipEndpoint (reg : Registry) (session : option MediaSession)
    (cfg : SIPMediaConfig) : SipEndpoint + error :=
  match session with
  | None => inr ErrSessionNotReady
  | Some _ =>
  match pickAudio reg session with
  | inr err => inr err
  | inl codec =>
      let lname := ToLower (Name codec) in
      if negb (String.eqb lname "opus" || String.eqb lname "pcmu"
               || String.eqb lname "pcma" || String.eqb lname "g722") then
        inr (ErrUnsupportedCodec (Name codec))
      else if (if String.eqb lname "opus"
               then negb (NumChannels codec =? 1)
                    && negb (NumChannels codec =? 2)
               else negb (NumChannels codec =? 1)) then
        inr (ErrUnsupportedChannels (NumChannels codec))
      else
        let sdpName := CanonicalSDPName codec in
        if String.eqb (TrimSpace sdpName) "" then
          inr (ErrCannotMap (Name codec))
        else
          match reg sdpName with
          | None => inr (ErrCodecNotAvailable sdpName)
          | Some lk =>
              if negb (isAudioCodec lk) || negb (CodecEnabled lk) then
                inr (ErrCodecNotAvailable sdpName)
              else
                let info := Info lk in
                let frameDur := FrameDuration cfg in
                let frameDur :=
                  if frameDur <=? 0 then 20 * 1000000 else frameDur in
                inl {| LK := lk;
                       LKSDPName := sdpName;
                       Codec_ := codec;
                       ep_SampleRate := info_SampleRate info;
                       RTPClockRate := info_RTPClockRate info;
                       Channels := maxInt 1 (NumChannels codec);
                       FrameDur := frameDur;
                       EnableJitter := JitterMinPackets cfg >? 0 |}
          end
  end
  end.

End sip_endpoint.

(** ** Vocabulary of the statements *)

Definition valid_adjust (a : Z) : Prop := a = -1 \/ a = 0 \/ a = 1.

Definition clamp_adjust (a : Z) : Z :=
  if a >? 1 then 1 else if a <? -1 then -1 else a.

(** What [ReadIntoAdjust] leaves in the buffer after taking [n] bytes. *)
Definition consume (b : PCMPlayoutBuffer) (n : Z) : PCMPlayoutBuffer :=
  {| frameSize := frameSize b; buf := skipn (Z.to_nat n) (buf b) |}.

(** The largest change the drift accumulator sees in one tick. *)
Definition acc_step (target : Z) : Z := Z.max 100 (Z.quot target 2).

(** The frames of a list that have the frame size [fs]: the ones
    [WriteFrame] takes. *)
Definition right_sized (fs : Z) (frames : list (list byte))
  : list (list byte) :=
  filter (fun f => len f =? fs) frames.

(** The frames that land during a tick, in the order they land. *)
Definition raced (r : racing) : list (list byte) :=
  w_measure r ++ w_drop r ++ w_remeasure r.

(** Ticks in a schedule, the bytes its writes carry, and the number of
    frames written while a tick is under way. *)
Fixpoint ticks (evs : list event) : Z :=
  match evs with
  | [] => 0
  | Tick _ :: evs' => 1 + ticks evs'
  | Produce _ :: evs' => ticks evs'
  end.

Fixpoint produced (evs : list event) : Z :=
  match evs with
  | [] => 0
  | Tick r :: evs' => len (concat (raced r)) + produced evs'
  | Produce frame :: evs' => len frame + produced evs'
  end.

Fixpoint raced_frames (evs : list event) : Z :=
  match evs with
  | [] => 0
  | Tick r :: evs' => len (raced r) + raced_frames evs'
  | Produce _ :: evs' => raced_frames evs'
  end.

(** The writes that land during the ticks of a schedule, tick by tick. *)
Fixpoint races (evs : list event) : list racing :=
  match evs with
  | [] => []
  | Tick r :: evs' => r :: races evs'
  | Produce _ :: evs' => races evs'
  end.

(** The accumulator along the ticks of a schedule, each tick with the writes
    that landed during it.  Every [adjust] is one of -1, 0, +1.  A tick on
    which the cap did not fire starts from the accumulator the previous one
    left and raises its magnitude by at most [step].  A tick on which the
    cap fired starts from zero and ends between zero and half of what the
    backlog, measured again after the drop, has over the target; that
    excess is at most the number of frames written between the two
    measurements. *)
Fixpoint stepwise (target step acc : Z) (rs : list racing) (ts : list tick)
  : Prop :=
  match rs, ts with
  | [], [] => True
  | r :: rs', t :: ts' =>
      valid_adjust (tick_adjust t) /\
      (tick_hardcap t = false ->
         tick_acc_in t = acc /\ Z.abs (tick_acc t) <= Z.abs acc + step) /\
      (tick_hardcap t = true ->
         tick_acc_in t = 0 /\
         0 <= 2 * tick_acc t <= tick_backlog t - target /\
         tick_backlog t - target <= len (w_measure r ++ w_drop r)) /\
      stepwise target step (tick_acc t) rs' ts'
  | _, _ => False
  end.






(** One silent PCM frame. *)
Definition silent_frame (spf : Z) : PCM16Sample := repeat 0 (Z.to_nat spf).





(** The frame step the injector works with. *)
Definition step_of (s : TgEndpoint) : Z :=
  if stepMs s <? 1 then 10 else stepMs s.

(** Consecutive capture timestamps: strictly increasing, a whole number of
    steps apart, and exactly one step apart unless the elapsed monotonic
    time has moved on by at least a step between the two calls. *)
Fixpoint paced (step : Z) (cs : list capture) : Prop :=
  match cs with
  | a :: (b :: _) as rest =>
      cap_ts a < cap_ts b /\
      (cap_ts b - cap_ts a) mod step = 0 /\
      (cap_ts b - cap_ts a <> step ->
       step <= cap_elapsedMs b - cap_elapsedMs a) /\
      paced step rest
  | _ => True
  end.

(** The state [micOnce.Do] leaves behind. *)
Definition anchor (s : TgEndpoint) (t : Time) : TgEndpoint :=
  {| tg_frameSize := tg_frameSize s;
     tg_sampleRate := tg_sampleRate s;
     stepMs := stepMs s;
     micOnce := true;
     micStart := t;
     micStartWallMs := UnixMilli t;
     micLastTsMs := int64 (UnixMilli t - step_of s) |}.

(** The injector has been anchored, [k] frames have gone out, and the last
    timestamp sits on the step grid of the anchor, no earlier than the grid
    point of the last elapsed reading [e]. *)
Definition anchored (s : TgEndpoint) (k e : Z) : Prop :=
  micOnce s = true /\
  0 <= micStartWallMs s < 2 ^ 62 /\
  (micLastTsMs s - micStartWallMs s) mod step_of s = 0 /\
  micStartWallMs s + Z.quot e (step_of s) * step_of s <= micLastTsMs s /\
  micStartWallMs s - step_of s <= micLastTsMs s /\
  micLastTsMs s <= micStartWallMs s + 2 ^ 44 + k * step_of s.

(** The readings a sequence of calls may see: the wall clock at the first
    call reads a time that a 64-bit millisecond counter holds with room to
    spare, and the monotonic clock never reads less than it did when the
    injector was anchored. *)
Definition steady_clock (clock : list (Time * Time)) : Prop :=
  match clock with
  | [] => True
  | (t0, _) :: _ =>
      0 <= wall_ms t0 < 2 ^ 62 /\
      Forall (fun c => mono_ns t0 <= mono_ns (snd c)) clock
  end.

Section CodecVocabulary.
Import String.
Local Open Scope string_scope.
Local Open Scope Z_scope.

(** Codec families and channel counts, as [NewSipEndpoint] tells them
    apart. *)
Definition dtmf_only (c : media.Codec) : Prop :=
  media.IsDTMF c = true \/
  strings.EqualFold (media.Name c) "telephone-event" = true.

Definition supported_name (c : media.Codec) : Prop :=
  let n := strings.ToLower (media.Name c) in
  n = "opus" \/ n = "pcmu" \/ n = "pcma" \/
  n = "g722".

Definition valid_channels (c : media.Codec) : Prop :=
  if String.eqb (strings.ToLower (media.Name c)) "opus"
  then media.NumChannels c = 1 \/ media.NumChannels c = 2
  else media.NumChannels c = 1.

(** The media-sdk codec for [c] is registered, is an audio codec and is
    enabled. *)
Definition available (reg : media.Registry) (c : media.Codec)
    (lk : media.LKCodec) : Prop :=
  reg (media.CanonicalSDPName c) = Some lk /\
  media.isAudioCodec lk = true /\ media.CodecEnabled lk = true.

End CodecVocabulary.

(** ** Sample data *)

Definition eight_bytes : list byte :=
  ["001"; "002"; "003"; "004"; "005"; "006"; "007"; "008"]%byte.

(** A 10 ms mono frame at 44.1 kHz has 441 samples, 882 bytes; the frame
    midpoint 441 is odd. *)
Definition silence_44k1 (n : nat) : list byte := repeat "000"%byte n.

Definition frame4 : list byte := repeat "000"%byte 4.

(** A G.711 stream at 8 kHz: 160 samples a frame.  Two contiguous packets,
    then one that follows in sequence three frames late. *)
Definition hdr (seq ts : Z) : Header :=
  {| SequenceNumber := seq; Timestamp := ts; PayloadType := 0;
     Marker := false; SSRC := 1 |}.

Definition record_packet (log : list Header) (header : Header)
    (payload : list byte) : list Header * option unit :=
  (log ++ [header], None).

Definition pcmu_filler : silenceFiller (list Header) recorder :=
  {| maxGapSize := 25; encodedSink := []; pcmSink := [];
     samplesPerFrame := 160; lastTS := 0; lastSeq := 0; packets := 0 |}.



Section CodecSamples.
Import String.
Import strings media sip_endpoint.
Local Open Scope string_scope.
Local Open Scope Z_scope.

(** The registry of a build without the [opus] tag: G.711 and G.722 only. *)
Definition lk_codec (name : string) (rate clock prio : Z) : LKCodec :=
  {| Info := {| info_SDPName := name; info_SampleRate := rate;
                info_RTPClockRate := clock; info_Priority := prio |};
     isAudioCodec := true; CodecEnabled := true |}.

Definition registry_without_opus : Registry :=
  fun name =>
    if String.eqb name "PCMU/8000" then Some (lk_codec name 8000 8000 (-20))
    else if String.eqb name "PCMA/8000" then Some (lk_codec name 8000 8000 (-10))
    else if String.eqb name "G722/8000" then Some (lk_codec name 16000 8000 (-5))
    else None.

Definition codec_opus : Codec :=
  {| Name := "opus"; PayloadType := 96; SampleRate := 48000;
     SampleDur := 20000000; NumChannels := 2 |}.

Definition codec_pcmu : Codec :=
  {| Name := "PCMU"; PayloadType := 0; SampleRate := 8000;
     SampleDur := 20000000; NumChannels := 1 |}.

Definition codec_dtmf : Codec :=
  {| Name := "telephone-event"; PayloadType := 101; SampleRate := 8000;
     SampleDur := 20000000; NumChannels := 1 |}.

Definition default_cfg : SIPMediaConfig :=
  {| JitterMinPackets := 0; FrameDuration := 0 |}.

End CodecSamples.

(** ** More of the run-time model: counted loops, [make], byte order *)

Module GoLoops.

(** [for i := i0; i < n; i++ { body }], by its trip count; the loop state is
    what the body updates. *)
Fixpoint for_range {S : Type} (trips : nat) (i : Z)
    (body : Z -> S -> result S) (s : S) : result S :=
  match trips with
  | O => Ok s
  | S trips' => s' <- body i s ;; for_range trips' (i + 1) body s'
  end.

(** [make([]T, n)] with the zero value [z]. *)
Definition make {A} (z : A) (n : Z) : result (list A) :=
  if n <? 0 then Panic else Ok (repeat z (Z.to_nat n)).

(** [dst] resized to [n] elements the way the PCM helpers do it: a fresh
    slice when the capacity (taken to be the length) is short, [dst[:n]]
    otherwise.  Every caller then writes all [n] elements, so the spare
    capacity a Go slice may have beyond its length changes nothing in what
    they return. *)
Definition resize {A} (z : A) (dst : list A) (n : Z) : result (list A) :=
  if len dst <? n then make z n else slice_to dst n.

(** [binary.LittleEndian.Uint16(b)] and [binary.LittleEndian.PutUint16(b, v)] *)
Definition Uint16 (b : list byte) : result Z :=
  hi <- index b 1 ;;
  lo <- index b 0 ;;
  Ok (Z.lor (byte_val lo) (Z.shiftl (byte_val hi) 8)).

Definition PutUint16 (b : list byte) (v : Z) : result (list byte) :=
  _ <- index b 1 ;;
  b <- store b 0 (to_byte v) ;;
  store b 1 (to_byte (Z.shiftr v 8)).

(** [PutUint16(dst[lo:hi], v)]: the contents of [dst] afterwards. *)
Definition PutUint16_at (dst : list byte) (lo hi : Z) (v : Z)
  : result (list byte) :=
  window <- slice dst lo hi ;;
  window <- PutUint16 window v ;;
  copy_into dst lo hi window.

End GoLoops.

Import GoLoops.

(** ** package pcm: frame assembly and PCM16 conversions *)

Module pcm16.

(** The loop shared in shape by [FrameAssembler.Push] and
    [PCM16Assembler.Push]:
    [for len(buf) >= frameSize { frame := make(.., frameSize);
    copy(frame, buf[:frameSize]); frames = append(frames, frame);
    buf = buf[frameSize:] }].  It need not terminate, so it runs on fuel;
    [None] is a loop still running when the fuel is spent. *)
Fixpoint assemble {A} (z : A) (fuel : nat) (frameSize : Z)
    (buffer : list A) (frames : list (list A))
  : option (result (list A * list (list A))) :=
  if len buffer >=? frameSize then
    match fuel with
    | O => None
    | S fuel' =>
        match (frame <- make z frameSize ;;
               head <- slice_to buffer frameSize ;;
               rest <- slice_from buffer frameSize ;;
               Ok (copy frame head, rest)) with
        | Panic => Some Panic
        | Ok (frame, rest) =>
            assemble z fuel' frameSize rest (frames ++ [frame])
        end
    end
  else Some (Ok (buffer, frames)).

Record FrameAssembler : Type := {
  fa_frameSize : Z;
  fa_buffer : list byte
}.

Definition NewFrameAssembler (frameSize : Z) : FrameAssembler :=
  {| fa_frameSize := frameSize; fa_buffer := [] |}.

Definition FrameAssembler_Push (fuel : nat) (a : FrameAssembler)
    (data : list byte)
  : option (result (FrameAssembler * list (list byte))) :=
  if len data =? 0 then Some (Ok (a, []))
  else
    match assemble "000"%byte fuel (fa_frameSize a) (fa_buffer a ++ data) []
    with
    | None => None
    | Some Panic => Some Panic
    | Some (Ok (buffer, frames)) =>
        Some (Ok ({| fa_frameSize := fa_frameSize a; fa_buffer := buffer |},
                  frames))
    end.

Record PCM16Assembler : Type := {
  frameSamples : Z;
  pa_buf : PCM16Sample
}.

Definition NewPCM16Assembler (frameSamples : Z) : PCM16Assembler :=
  let frameSamples := if frameSamples <? 1 then 1 else frameSamples in
  {| frameSamples := frameSamples; pa_buf := [] |}.

Definition PCM16Assembler_Push (fuel : nat) (a : PCM16Assembler)
    (inp : PCM16Sample)
  : option (result (PCM16Assembler * list PCM16Sample)) :=
  if len inp =? 0 then Some (Ok (a, []))
  else
    match assemble 0 fuel (frameSamples a) (pa_buf a ++ inp) [] with
    | None => None
    | Some Panic => Some Panic
    | Some (Ok (buffer, frames)) =>
        Some (Ok ({| frameSamples := frameSamples a; pa_buf := buffer |},
                  frames))
    end.

Definition PCM16BytesToSample (dst : PCM16Sample) (src : list byte)
  : result PCM16Sample :=
  let n := Z.quot (len src) 2 in
  dst <- resize 0 dst n ;;
  for_range (Z.to_nat n) 0
    (fun i dst =>
       w <- slice src (i * 2) (i * 2 + 2) ;;
       v <- Uint16 w ;;
       store dst i (int16 v))
    dst.

Definition PCM16SampleToBytes (dst : list byte) (src : PCM16Sample)
  : result (list byte) :=
  let need := len src * 2 in
  dst <- resize "000"%byte dst need ;;
  for_range (length src) 0
    (fun i dst =>
       s <- index src i ;;
       PutUint16_at dst (i * 2) (i * 2 + 2) (uint16 s))
    dst.

Definition PCM16ConvertChannels (dst src : PCM16Sample) (inCh outCh : Z)
  : result PCM16Sample :=
  let inCh := if inCh <=? 0 then 1 else inCh in
  let outCh := if outCh <=? 0 then 1 else outCh in
  if inCh =? outCh then
    dst <- resize 0 dst (len src) ;;
    Ok (copy dst src)
  else if (inCh =? 2) && (outCh =? 1) then
    let n := Z.quot (len src) 2 in
    dst <- resize 0 dst n ;;
    for_range (Z.to_nat n) 0
      (fun i dst =>
         l <- index src (i * 2) ;;
         r <- index src (i * 2 + 1) ;;
         store dst i (int16 (Z.quot (int32 (int32 l + int32 r)) 2)))
      dst
  else if (inCh =? 1) && (outCh =? 2) then
    let n := len src * 2 in
    dst <- resize 0 dst n ;;
    for_range (length src) 0
      (fun i dst =>
         v <- index src i ;;
         dst <- store dst (i * 2) v ;;
         store dst (i * 2 + 1) v)
      dst
  else
    frames <- div (len src) inCh ;;
    let n := int (frames * outCh) in
    dst <- resize 0 dst n ;;
    for_range (Z.to_nat frames) 0
      (fun f dst =>
         v <- index src (int (f * inCh)) ;;
         for_range (Z.to_nat outCh) 0
           (fun c dst => store dst (int (int (f * outCh) + c)) v)
           dst)
      dst.



End pcm16.

Import pcm16.

(** ** package bridge: the reverse path's queue *)

Module reverse.

(** The channel of speaker frames, oldest first, as it stands when the tick
    is handled (sends racing with the tick are not modelled).  A receive in
    a [select] with a [default] arm takes the head if there is one. *)
Definition queue : Type := list (list byte).

(** [drainFrames]; the loop ends when the queue runs dry or [max] frames
    are gone. *)
Fixpoint drainFrames_from (q : queue) (max dropped : Z) : queue * Z :=
  if dropped <? max then
    match q with
    | [] => (q, dropped)
    | _ :: q' => drainFrames_from q' max (int (dropped + 1))
    end
  else (q, dropped).

Definition drainFrames (q : queue) (max : Z) : queue * Z :=
  drainFrames_from q max 0.

Definition popFrame (q : queue) (fallback : list byte) : queue * list byte :=
  match q with
  | frame :: q' => (q', frame)
  | [] => (q, fallback)
  end.

(** The head of [case <-ticker.C] in [writeSIP]: the backlog check, the
    bounded drop, and the pop of the frame to encode. *)
Definition writeSIP_take (b : MediaBridge) (q : queue) (silence : list byte)
  : queue * Z * list byte :=
  let backlog := len q in
  let '(q, dropped) :=
    if backlog >? driftTarget b then
      let toDrop := int (backlog - driftTarget b) in
      let toDrop :=
        if (driftMaxBurst b >? 0) && (toDrop >? driftMaxBurst b)
        then driftMaxBurst b else toDrop in
      drainFrames q toDrop
    else (q, 0) in
  let '(q, frame) := popFrame q silence in
  (q, dropped, frame).

End reverse.

Import reverse.


(** ** package pipeline: the sink in front of the playout buffer *)

Module sink.

Record tgPlayoutSink : Type := {
  ps_sampleRate : Z;
  ps_inCh : Z;
  ps_outCh : Z;
  ps_frameAssembler : FrameAssembler;
  ps_outFrameSize : Z;
  ps_out : PCMPlayoutBuffer;
  ps_tmp : PCM16Sample;
  ps_b : list byte
}.

Definition newTGPlayoutSink (sampleRate inCh outCh outFrameSize : Z)
    (out : PCMPlayoutBuffer) : tgPlayoutSink :=
  let sampleRate := if sampleRate <=? 0 then 48000 else sampleRate in
  let inCh := if inCh <=? 0 then 1 else inCh in
  let outCh := if outCh <=? 0 then 1 else outCh in
  let outFrameSize := if outFrameSize <=? 0 then 1 else outFrameSize in
  {| ps_sampleRate := sampleRate;
     ps_inCh := inCh;
     ps_outCh := outCh;
     ps_frameAssembler := NewFrameAssembler outFrameSize;
     ps_outFrameSize := outFrameSize;
     ps_out := out;
     ps_tmp := [];
     ps_b := [] |}.

(** [WriteSample]; the error it returns is always [nil]. *)
Definition WriteSample (fuel : nat) (w : tgPlayoutSink) (sample : PCM16Sample)
  : option (result tgPlayoutSink) :=
  match (if negb (ps_inCh w =? ps_outCh w) then
           tmp <- PCM16ConvertChannels (ps_tmp w) sample (ps_inCh w)
                    (ps_outCh w) ;;
           Ok (tmp, tmp)
         else Ok (ps_tmp w, sample)) with
  | Panic => Some Panic
  | Ok (tmp, sample) =>
      match PCM16SampleToBytes (ps_b w) sample with
      | Panic => Some Panic
      | Ok b =>
          match FrameAssembler_Push fuel (ps_frameAssembler w) b with
          | None => None
          | Some Panic => Some Panic
          | Some (Ok (fa, frames)) =>
              Some (Ok {| ps_sampleRate := ps_sampleRate w;
                          ps_inCh := ps_inCh w;
                          ps_outCh := ps_outCh w;
                          ps_frameAssembler := fa;
                          ps_outFrameSize := ps_outFrameSize w;
                          ps_out := fold_left WriteFrame frames (ps_out w);
                          ps_tmp := tmp;
                          ps_b := b |})
          end
      end
  end.

End sink.

Import sink.
(** ** Vocabulary of the further statements *)


(** The adjust [ReadIntoAdjust] acts on: clamped, and ignored for an odd
    frame size. *)
Definition effective_adjust (frameSize adj : Z) : Z :=
  if Z.rem frameSize 2 =? 0 then clamp_adjust adj else 0.

(** A PCM16 sample as two bytes, low byte first. *)
Definition le16 (v : Z) : list byte :=
  [to_byte (uint16 v); to_byte (Z.shiftr (uint16 v) 8)].

(** The window [findBestCut] scans: both ends clamped to offsets that have a
    sample on either side, then aligned downwards to a sample boundary. *)
Definition cut_lo (minOff : Z) : Z := Z.quot (Z.max 2 minOff) 2 * 2.
Definition cut_hi (p : list byte) (maxOff : Z) : Z :=
  Z.quot (Z.min maxOff (len p - 4)) 2 * 2.


(** A byte string read as PCM16 samples, low byte first; an odd trailing
    byte is not a sample. *)
Fixpoint le_samples (src : list byte) : PCM16Sample :=
  match src with
  | lo :: hi :: rest =>
      int16 (Z.lor (byte_val lo) (Z.shiftl (byte_val hi) 8))
      :: le_samples rest
  | _ => []
  end.

(** The values an [int16] holds. *)
Definition is_pcm16 (s : PCM16Sample) : Prop :=
  Forall (fun v => -32768 <= v < 32768) s.

(** Mono to stereo: each sample on both channels.  Stereo to mono: the mean
    of each pair, rounded towards zero; an odd trailing sample is left
    out. *)
Definition upmix (s : PCM16Sample) : PCM16Sample :=
  flat_map (fun v => [v; v]) s.

Fixpoint downmix (s : PCM16Sample) : PCM16Sample :=
  match s with
  | l :: r :: rest => Z.quot (l + r) 2 :: downmix rest
  | _ => []
  end.

(** A channel count as the converters read it: anything below one is
    mono. *)
Definition channels (ch : Z) : Z := if ch <=? 0 then 1 else ch.

(** Successive pushes into a [PCM16Assembler], with the frames of all of
    them in order. *)
Fixpoint push_all (fuel : nat) (a : PCM16Assembler) (inputs : list PCM16Sample)
  : option (result (PCM16Assembler * list PCM16Sample)) :=
  match inputs with
  | [] => Some (Ok (a, []))
  | inp :: inputs' =>
      match PCM16Assembler_Push fuel a inp with
      | None => None
      | Some Panic => Some Panic
      | Some (Ok (a', frames)) =>
          match push_all fuel a' inputs' with
          | None => None
          | Some Panic => Some Panic
          | Some (Ok (a'', frames')) => Some (Ok (a'', frames ++ frames'))
          end
      end
  end.

(** The channel layouts the bridge runs with, and what the sink in front of
    the playout buffer makes of a sample under each. *)
Definition supported_layout (inCh outCh : Z) : Prop :=
  inCh = outCh \/ (inCh = 1 /\ outCh = 2) \/ (inCh = 2 /\ outCh = 1).

Definition relayout (inCh outCh : Z) (s : PCM16Sample) : PCM16Sample :=
  if inCh =? outCh then s else if inCh =? 1 then upmix s else downmix s.

Section CodecChoiceVocabulary.
Import String.
Local Open Scope string_scope.
Local Open Scope Z_scope.

(** [c], at index [i] of [codecs], is the audio codec of greatest
    preference weight, and the first of those. *)
Definition best_audio (reg : media.Registry) (codecs : list media.Codec)
    (i : nat) (c : media.Codec) : Prop :=
  nth_error codecs i = Some c /\ ~ dtmf_only c /\
  (forall c', In c' codecs -> ~ dtmf_only c' ->
     media.CodecPreferenceWeight reg c' <= media.CodecPreferenceWeight reg c) /\
  (forall j c', (j < i)%nat -> nth_error codecs j = Some c' ->
     ~ dtmf_only c' ->
     media.CodecPreferenceWeight reg c' < media.CodecPreferenceWeight reg c).

End CodecChoiceVocabulary.

(** The encoded sink fed a stream of packets directly, up to its first
    error. *)
Fixpoint enc_run {Enc error : Type}
    (encHandleRTP : Enc -> Header -> list byte -> Enc * option error)
    (enc : Enc) (pkts : list (Header * list byte)) : Enc * option error :=
  match pkts with
  | [] => (enc, None)
  | (header, payload) :: pkts' =>
      match encHandleRTP enc header payload with
      | (enc', Some e) => (enc', Some e)
      | (enc', None) => enc_run encHandleRTP enc' pkts'
      end
  end.



(** ** Facts about the run-time model *)

Ltac Zify.zify_post_hook ::= Z.to_euclidean_division_equations.

Section GoFacts.
Context {A : Type}.
Implicit Types p dst src pre post : list A.

Lemma len_app p q : len (p ++ q) = len p + len q.
Proof. unfold len. rewrite length_app. lia. Qed.

Lemma len_nonneg p : 0 <= len p.
Proof. unfold len. lia. Qed.

Lemma len_cons (x : A) p : len (x :: p) = 1 + len p.
Proof. unfold len. simpl length. lia. Qed.

Lemma len_firstn p n : 0 <= n <= len p -> len (firstn (Z.to_nat n) p) = n.
Proof. unfold len. intros H. rewrite length_firstn. lia. Qed.

Lemma len_skipn p n : 0 <= n <= len p -> len (skipn (Z.to_nat n) p) = len p - n.
Proof. unfold len. intros H. rewrite length_skipn. lia. Qed.

Lemma split_at p n :
  0 <= n <= len p ->
  exists pre post, p = pre ++ post /\ len pre = n /\
                   pre = firstn (Z.to_nat n) p /\ post = skipn (Z.to_nat n) p.
Proof.
  intros H. exists (firstn (Z.to_nat n) p), (skipn (Z.to_nat n) p).
  rewrite firstn_skipn. repeat split; auto using len_firstn.
Qed.

Lemma nonempty_cons p : 1 <= len p -> exists x q, p = x :: q.
Proof. destruct p as [|x q]; unfold len; simpl; [lia | eauto]. Qed.

Lemma firstn_len_app pre post : firstn (Z.to_nat (len pre)) (pre ++ post) = pre.
Proof.
  unfold len. rewrite Nat2Z.id, firstn_app, Nat.sub_diag, firstn_all.
  simpl. apply app_nil_r.
Qed.

Lemma skipn_len_app pre post : skipn (Z.to_nat (len pre)) (pre ++ post) = post.
Proof.
  unfold len. rewrite Nat2Z.id, skipn_app, Nat.sub_diag, skipn_all. reflexivity.
Qed.

Lemma slice_exact p pre mid post lo hi :
  p = pre ++ mid ++ post -> lo = len pre -> hi = lo + len mid ->
  slice p lo hi = Ok mid.
Proof.
  intros -> -> ->. unfold slice.
  pose proof (len_nonneg pre). pose proof (len_nonneg mid).
  pose proof (len_nonneg post).
  rewrite !len_app.
  replace ((0 <=? len pre) && (len pre <=? len pre + len mid)
           && (len pre + len mid <=? len pre + (len mid + len post)))
    with true by (symmetry; rewrite !andb_true_iff; lia).
  rewrite skipn_len_app.
  replace (len pre + len mid - len pre) with (len mid) by lia.
  now rewrite firstn_len_app.
Qed.

Lemma slice_to_exact pre post n :
  n = len pre -> slice_to (pre ++ post) n = Ok pre.
Proof.
  intros ->. unfold slice_to.
  apply (@slice_exact (pre ++ post) [] pre post); auto.
Qed.

Lemma slice_from_exact pre post n :
  n = len pre -> slice_from (pre ++ post) n = Ok post.
Proof.
  intros ->. unfold slice_from.
  apply (@slice_exact (pre ++ post) pre post []).
  - now rewrite app_nil_r.
  - reflexivity.
  - rewrite len_app. lia.
Qed.

Lemma copy_same_len dst src : len src = len dst -> copy dst src = src.
Proof.
  unfold len, copy. intros H. apply Nat2Z.inj in H. rewrite H, Nat.min_id.
  rewrite <- H at 1. rewrite firstn_all, skipn_all. apply app_nil_r.
Qed.

Lemma copy_into_exact dst pre win post lo hi src :
  dst = pre ++ win ++ post -> lo = len pre -> hi = lo + len win ->
  len src = len win ->
  copy_into dst lo hi src = Ok (pre ++ src ++ post).
Proof.
  intros Hd Hlo Hhi Hs. unfold copy_into.
  rewrite (slice_exact _ _ _ Hd Hlo Hhi). simpl. subst.
  rewrite firstn_len_app, copy_same_len by assumption.
  replace (len pre + len win) with (len (pre ++ win)) by apply len_app.
  now rewrite (app_assoc pre win post), skipn_len_app.
Qed.

Lemma store_exact dst pre (x v : A) post i :
  dst = pre ++ x :: post -> i = len pre ->
  store dst i v = Ok (pre ++ v :: post).
Proof.
  intros -> ->. unfold store.
  pose proof (len_nonneg pre). pose proof (len_nonneg post).
  rewrite len_app, len_cons.
  replace ((0 <=? len pre) && (len pre <? len pre + (1 + len post)))
    with true by (symmetry; rewrite andb_true_iff; lia).
  rewrite firstn_len_app.
  replace (S (Z.to_nat (len pre))) with (Z.to_nat (len (pre ++ [x]))).
  - change (pre ++ x :: post) with (pre ++ [x] ++ post) at 1.
    now rewrite app_assoc, skipn_len_app.
  - rewrite len_app. unfold len. simpl. lia.
Qed.

Lemma index_ok p i : 0 <= i < len p -> exists a, index p i = Ok a.
Proof.
  intros H. unfold index.
  replace ((0 <=? i) && (i <? len p)) with true
    by (symmetry; rewrite andb_true_iff; lia).
  destruct (nth_error p (Z.to_nat i)) eqn:E; eauto.
  apply nth_error_None in E. unfold len in H. lia.
Qed.

End GoFacts.

(** ** The playout buffer: bounds of the cut search *)

Section CutSearch.
Implicit Types p : list byte.

Lemma readS16_ok p off :
  0 <= off -> off + 1 < len p -> exists v, readS16 p off = Ok v.
Proof.
  intros H0 H1. unfold readS16.
  destruct (@index_ok _ p off) as [lo ->]; [lia|].
  destruct (@index_ok _ p (off + 1)) as [hi ->]; [lia|].
  simpl. eauto.
Qed.

Lemma cutScore_ok p off :
  2 <= off -> off + 3 < len p -> exists s, cutScore p off = Ok s.
Proof.
  intros H0 H1. unfold cutScore.
  destruct (@readS16_ok p (off - 2)) as [a ->]; [lia | lia |].
  destruct (@readS16_ok p off) as [bb ->]; [lia | lia |].
  destruct (@readS16_ok p (off + 2)) as [c ->]; [lia | lia |].
  simpl. eauto.
Qed.

(** The scan returns the incoming best offset or one of the offsets it
    visited, all of which are read in bounds. *)
Lemma findBestCut_scan_spec trips : forall p off bestOff bestScore,
  2 <= off -> off + 2 * Z.of_nat trips + 1 < len p \/ trips = O ->
  exists r, findBestCut_scan trips p off bestOff bestScore = Ok r /\
            (r = bestOff \/
             (off <= r <= off + 2 * (Z.of_nat trips - 1) /\
              Z.rem (r - off) 2 = 0)).
Proof.
  induction trips as [|n IH]; intros p off bestOff bestScore Hoff Hlen.
  - simpl. eauto.
  - destruct Hlen as [Hlen | Hlen]; [|discriminate].
    cbn [findBestCut_scan].
    destruct (@cutScore_ok p off) as [s ->]; [lia | lia |].
    cbn [bind].
    assert (Hn : off + 2 + 2 * Z.of_nat n + 1 < len p \/ n = O)
      by (left; lia).
    destruct (s <? bestScore).
    + destruct (IH p (off + 2) off s ltac:(lia) Hn) as (r & -> & Hr).
      exists r. split; [reflexivity|]. right. lia.
    + destruct (IH p (off + 2) bestOff bestScore ltac:(lia) Hn)
        as (r & -> & Hr).
      exists r. split; [reflexivity|]. destruct Hr as [Hr | Hr]; [now left|].
      right. lia.
Qed.

(** [findBestCut] never panics.  Its result is even; it lies in the clamped
    window, whose lower end has been aligned downwards, or is the fallback
    [len p] rounded down to a sample boundary. *)
Lemma findBestCut_spec p minOff maxOff :
  exists r, findBestCut p minOff maxOff = Ok r /\
            Z.rem r 2 = 0 /\
            ((2 <= r <= len p - 4 /\ minOff - 1 <= r <= maxOff) \/
             r = Z.quot (len p) 2 * 2).
Proof.
  unfold findBestCut.
  set (m1 := if minOff <? 2 then 2 else minOff).
  set (M1 := if maxOff >? len p - 4 then len p - 4 else maxOff).
  assert (Hm1 : 2 <= m1 /\ minOff <= m1) by (subst m1; destruct (Z.ltb_spec minOff 2); lia).
  assert (HM1 : M1 <= len p - 4 /\ M1 <= maxOff)
    by (subst M1; destruct (Z.gtb_spec maxOff (len p - 4)); lia).
  clearbody m1 M1.
  destruct (Z.ltb_spec (Z.quot M1 2 * 2) (Z.quot m1 2 * 2)) as [Hlt | Hge].
  - eexists. split; [reflexivity|]. split; [lia | now right].
  - destruct (@findBestCut_scan_spec
                (Z.to_nat (Z.quot (Z.quot M1 2 * 2 - Z.quot m1 2 * 2) 2 + 1))
                p (Z.quot m1 2 * 2) (Z.quot m1 2 * 2) (2 ^ 31 - 1))
      as (r & -> & Hr); [lia | left; lia |].
    exists r. split; [reflexivity|]. split; [lia | left; lia].
Qed.

End CutSearch.

(** ** The playout buffer: [ReadIntoAdjust] case by case *)

Ltac zbool :=
  repeat match goal with
  | H : (_ >? _) = _ |- _ => rewrite Z.gtb_ltb in H
  | H : negb _ = true |- _ => apply negb_true_iff in H
  | H : negb _ = false |- _ => apply negb_false_iff in H
  | H : (_ && _) = true |- _ => apply andb_true_iff in H; destruct H
  | H : (_ || _) = false |- _ => apply orb_false_iff in H; destruct H
  | H : (_ || _) = true |- _ => apply orb_true_iff in H
  | H : (_ && _) = false |- _ => apply andb_false_iff in H
  | H : (_ <? _) = true |- _ => apply Z.ltb_lt in H
  | H : (_ <? _) = false |- _ => apply Z.ltb_ge in H
  | H : (_ <=? _) = true |- _ => apply Z.leb_le in H
  | H : (_ <=? _) = false |- _ => apply Z.leb_gt in H
  | H : (_ =? _) = true |- _ => apply Z.eqb_eq in H
  | H : (_ =? _) = false |- _ => apply Z.eqb_neq in H
  end.

(** Decide the outermost test of the goal, closing the arm the context
    excludes. *)
Ltac branch :=
  match goal with
  | |- (if ?c then _ else _) = _ =>
      let E := fresh "E" in destruct c eqn:E; zbool; try lia
  | |- bind (if ?c then _ else _) _ = _ =>
      let E := fresh "E" in destruct c eqn:E; zbool; try lia
  end.

Section ReadCases.
Variable b : PCMPlayoutBuffer.
Let fs := frameSize b.

Lemma ReadIntoAdjust_clamp dst adj :
  ReadIntoAdjust b dst adj = ReadIntoAdjust b dst (clamp_adjust adj).
Proof.
  unfold ReadIntoAdjust, clamp_adjust.
  destruct (adj >? 1) eqn:E1; [reflexivity|].
  destruct (adj <? -1) eqn:E2; [reflexivity|].
  now rewrite E1, E2.
Qed.

Lemma ReadIntoAdjust_wrong_len dst adj :
  len dst <> fs -> ReadIntoAdjust b dst adj = Ok (b, dst, false).
Proof.
  intros H. unfold ReadIntoAdjust. fold fs. branch. reflexivity.
Qed.

Lemma ReadIntoAdjust_odd dst adj :
  len dst = fs -> Z.rem fs 2 <> 0 ->
  ReadIntoAdjust b dst adj =
    if len (buf b) <? fs then Ok (b, zero_fill dst, false)
    else Ok ({| frameSize := fs; buf := skipn (Z.to_nat fs) (buf b) |},
             firstn (Z.to_nat fs) (buf b), true).
Proof.
  intros Hd Hodd. unfold ReadIntoAdjust. fold fs. cbv zeta.
  branch. branch.
  destruct (Z.ltb_spec (len (buf b)) fs) as [Hlt | Hge]; [reflexivity|].
  pose proof (len_nonneg dst).
  destruct (@split_at _ (buf b) fs) as (hd & tl & Hb & Hl & Hhd & Htl);
    [lia|].
  rewrite <- Hhd, <- Htl, Hb.
  rewrite (@slice_to_exact _ hd tl fs), (@slice_from_exact _ hd tl fs)
    by congruence.
  cbn [bind]. rewrite copy_same_len by congruence. reflexivity.
Qed.

Lemma ReadIntoAdjust_underflow dst adj :
  len dst = fs -> Z.rem fs 2 = 0 -> valid_adjust adj ->
  len (buf b) < fs + 2 * adj \/ fs + 2 * adj <= 0 ->
  ReadIntoAdjust b dst adj = Ok (b, zero_fill dst, false).
Proof.
  intros Hd Hev Hadj Hshort. unfold ReadIntoAdjust. fold fs. cbv zeta.
  pose proof (len_nonneg dst). pose proof (len_nonneg (buf b)).
  branch. branch.
  assert (Hc : (if adj >? 1 then 1 else if adj <? -1 then -1 else adj) = adj)
    by (destruct Hadj as [-> | [-> | ->]]; reflexivity).
  rewrite Hc.
  destruct (Z.ltb_spec (fs + adj * 2) 0); branch; reflexivity.
Qed.

End ReadCases.

(** The two adjusting arms: no access out of bounds, and the frame they
    produce is made of [inp] alone. *)
Section AdjustArms.
Variable fs : Z.
Hypothesis fs_even : Z.rem fs 2 = 0.

Lemma dropSample_spec inp :
  0 <= fs -> len inp = fs + 2 ->
  exists d, 0 <= d <= fs /\ Z.rem d 2 = 0 /\
    forall dst, len dst = fs ->
      dropSample fs inp dst =
        Ok (firstn (Z.to_nat d) inp ++ skipn (Z.to_nat (d + 2)) inp).
Proof.
  intros Hfs Hin. pose proof (len_nonneg inp) as Hnn.
  unfold dropSample. cbv zeta.
  destruct (findBestCut_spec inp (Z.quot fs 2 - 80) (Z.quot fs 2 + 80))
    as (r & -> & Hev & Hr).
  cbn [bind].
  set (d0 := if r <? 0 then 0 else r).
  set (d := if d0 >? fs then fs else d0).
  assert (Hd : 0 <= d <= fs /\ Z.rem d 2 = 0).
  { subst d d0. destruct (Z.ltb_spec r 0); rewrite Z.gtb_ltb;
      match goal with |- context [?x <? ?y] => destruct (Z.ltb_spec x y) end;
      lia. }
  clearbody d. clear d0.
  destruct (@split_at _ inp d) as (before & tail & Hi & Hlb & Hbefore & Htail);
    [lia|].
  assert (Hlt : len tail = fs + 2 - d) by (rewrite Hi, len_app in Hin; lia).
  destruct (@split_at _ tail 2) as (xy & after & Ht & Hlxy & _ & Hafter);
    [lia|].
  assert (Hla : len after = fs - d) by (rewrite Ht, len_app in Hlt; lia).
  assert (Hout : firstn (Z.to_nat d) inp ++ skipn (Z.to_nat (d + 2)) inp
                 = before ++ after).
  { rewrite Hafter, Htail, skipn_skipn, <- Hbefore. do 2 f_equal. lia. }
  exists d. split; [tauto|]. split; [tauto|]. intros dst Hdst.
  rewrite Hout. clear Hout Hbefore Htail Hafter. subst inp tail.
  destruct (@split_at _ dst d) as (dpre & dpost & Hds & Hldp & _ & _); [lia|].
  assert (Hldq : len dpost = fs - d) by (rewrite Hds, len_app in Hdst; lia).
  rewrite (@slice_to_exact _ before (xy ++ after) d) by congruence.
  cbn [bind].
  rewrite (@copy_into_exact _ dst [] dpre dpost 0 d before);
    [| exact Hds | reflexivity | lia | lia].
  cbn [bind app].
  rewrite (app_assoc before xy after).
  rewrite (@slice_from_exact _ (before ++ xy) after (d + 2))
    by (rewrite len_app; lia).
  cbn [bind].
  rewrite (@copy_into_exact _ (before ++ dpost) before dpost [] d
             (len (before ++ dpost)) after);
    [| now rewrite app_nil_r | congruence | rewrite len_app; lia | lia].
  cbn [bind]. now rewrite app_nil_r.
Qed.

Lemma dupSample_spec inp :
  4 <= fs -> len inp = fs - 2 ->
  exists d s1 s2, 2 <= d <= fs - 2 /\ Z.rem d 2 = 0 /\
    forall dst, len dst = fs ->
      dupSample fs inp dst =
        Ok (firstn (Z.to_nat d) inp ++ s1 :: s2 :: skipn (Z.to_nat d) inp).
Proof.
  intros Hfs Hin. unfold dupSample. cbv zeta.
  destruct (findBestCut_spec inp (Z.quot fs 2 - 80) (Z.quot fs 2 + 80))
    as (r & -> & Hev & Hr).
  cbn [bind].
  set (d1 := if Z.quot r 2 * 2 <? 2 then 2 else Z.quot r 2 * 2).
  set (d := if d1 >? fs - 2 then fs - 2 else d1).
  assert (Hd : 2 <= d <= fs - 2 /\ Z.rem d 2 = 0).
  { subst d d1. destruct (Z.ltb_spec (Z.quot r 2 * 2) 2); rewrite Z.gtb_ltb;
      match goal with |- context [?x <? ?y] => destruct (Z.ltb_spec x y) end;
      lia. }
  clearbody d. clear d1.
  set (ro := if d >? len inp - 2 then len inp - 2 else d).
  assert (Hro : 0 <= ro <= len inp - 2)
    by (subst ro; rewrite Z.gtb_ltb;
        destruct (Z.ltb_spec (len inp - 2) d); lia).
  clearbody ro.
  destruct (@readS16_ok inp (d - 2)) as [l ->]; [lia | lia |].
  destruct (@readS16_ok inp ro) as [rv ->]; [lia | lia |].
  cbn [bind].
  set (ins := int16 (Z.quot (int32 (int32 l + int32 rv)) 2)). clearbody ins.
  destruct (@split_at _ inp d) as (before & after & Hi & Hlb & Hbefore & Hafter);
    [lia|].
  assert (Hla : len after = fs - 2 - d) by (rewrite Hi, len_app in Hin; lia).
  exists d, (to_byte (uint16 ins)), (to_byte (Z.shiftr (uint16 ins) 8)).
  split; [tauto|]. split; [tauto|]. intros dst Hdst.
  rewrite <- Hbefore, <- Hafter. clear Hbefore Hafter. subst inp.
  destruct (@split_at _ dst d) as (dpre & dtail & Hds & Hldp & _ & _); [lia|].
  assert (Hldt : len dtail = fs - d) by (rewrite Hds, len_app in Hdst; lia).
  destruct (@nonempty_cons _ dtail) as (x & dtail' & ->); [lia|].
  rewrite len_cons in Hldt.
  destruct (@nonempty_cons _ dtail') as (y & dpost & ->); [lia|].
  rewrite len_cons in Hldt.
  rewrite (@slice_to_exact _ before after d) by congruence.
  cbn [bind].
  rewrite (@copy_into_exact _ dst [] dpre (x :: y :: dpost) 0 d before);
    [| exact Hds | reflexivity | lia | lia].
  cbn [bind app].
  rewrite (@store_exact _ _ before x _ (y :: dpost) d) by (auto; congruence).
  cbn [bind].
  rewrite (@store_exact _ _ (before ++ [to_byte (uint16 ins)]) y _ dpost
             (d + 1));
    [| now rewrite <- app_assoc | rewrite len_app; unfold len at 2; simpl; lia].
  cbn [bind].
  rewrite (@slice_from_exact _ before after d) by congruence.
  cbn [bind].
  match goal with
  | |- context [copy_into ?D _ _ _] =>
      rewrite (@copy_into_exact _ D (before ++ [to_byte (uint16 ins);
                 to_byte (Z.shiftr (uint16 ins) 8)]) dpost [] (d + 2) (len D)
                 after)
  end.
  - cbn [bind]. rewrite app_nil_r, <- app_assoc. reflexivity.
  - rewrite app_nil_r, <- !app_assoc. reflexivity.
  - rewrite len_app. unfold len at 2. simpl. lia.
  - unfold len in *. rewrite !length_app. simpl length. lia.
  - lia.
Qed.

End AdjustArms.

Section ReadSuccess.
Variable b : PCMPlayoutBuffer.
Let fs := frameSize b.

Lemma ReadIntoAdjust_even_ok adj :
  Z.rem fs 2 = 0 -> valid_adjust adj ->
  0 < fs + 2 * adj <= len (buf b) ->
  exists out, len out = fs /\
    forall dst, len dst = fs ->
      ReadIntoAdjust b dst adj = Ok (consume b (fs + 2 * adj), out, true).
Proof.
  intros Hev Hadj Hin.
  destruct (@split_at _ (buf b) (fs + 2 * adj))
    as (inp & rest & Hb & Hli & Hinp & Hrest); [lia|].
  assert (Hfs : 0 <= fs) by (unfold valid_adjust in Hadj; lia).
  assert (Hprefix : forall dst, len dst = fs ->
            ReadIntoAdjust b dst adj =
            (let b' := consume b (fs + 2 * adj) in
             if adj =? 0 then
               head <- slice_to inp fs ;; Ok (b', copy dst head, true)
             else if adj =? 1 then
               dst <- dropSample fs inp dst ;; Ok (b', dst, true)
             else
               dst <- dupSample fs inp dst ;; Ok (b', dst, true))).
  { intros dst Hd. unfold ReadIntoAdjust, consume. fold fs. cbv zeta.
    assert (Hc : (if adj >? 1 then 1 else if adj <? -1 then -1 else adj) = adj)
      by (destruct Hadj as [-> | [-> | ->]]; reflexivity).
    rewrite Hc.
    assert (Hi : (if fs + adj * 2 <? 0 then 0 else fs + adj * 2) = fs + 2 * adj)
      by (destruct (Z.ltb_spec (fs + adj * 2) 0); lia).
    rewrite Hi. branch. branch. branch.
    rewrite <- Hrest. rewrite Hb.
    rewrite (@slice_to_exact _ inp rest), (@slice_from_exact _ inp rest)
      by congruence.
    cbn [bind].
    destruct Hadj as [-> | [-> | ->]]; reflexivity. }
  destruct Hadj as [-> | [-> | ->]].
  - destruct (@dupSample_spec fs Hev inp) as (d & s1 & s2 & Hd & _ & Hrun);
      [lia | lia |].
    eexists. split; [|intros dst Hdst; rewrite Hprefix, Hrun by assumption;
                      reflexivity].
    unfold len in *. rewrite length_app. simpl length.
    rewrite length_firstn, length_skipn. lia.
  - exists inp. split; [lia|]. intros dst Hdst. rewrite Hprefix by assumption.
    cbv zeta. change (0 =? 0) with true. cbv iota.
    replace inp with (inp ++ []) at 1 by apply app_nil_r.
    rewrite (@slice_to_exact _ inp [] fs) by lia.
    cbn [bind]. rewrite copy_same_len by lia. reflexivity.
  - destruct (@dropSample_spec fs Hev inp) as (d & Hd & _ & Hrun);
      [lia | lia |].
    eexists. split; [|intros dst Hdst; rewrite Hprefix, Hrun by assumption;
                      reflexivity].
    unfold len in *. rewrite length_app, length_firstn, length_skipn. lia.
Qed.

(** [ReadIntoAdjust] is total on a buffer with a non-negative frame size: it
    never panics, keeps the frame size of the buffer and the length of
    [dst], and never lengthens the buffer. *)
Lemma ReadIntoAdjust_total dst adj :
  0 <= fs ->
  exists b' out ok, ReadIntoAdjust b dst adj = Ok (b', out, ok) /\
    frameSize b' = fs /\ len out = len dst /\ len (buf b') <= len (buf b).
Proof.
  intros Hfs. unfold fs in *. rewrite ReadIntoAdjust_clamp.
  assert (Hadj : valid_adjust (clamp_adjust adj)).
  { unfold valid_adjust, clamp_adjust. rewrite Z.gtb_ltb.
    destruct (Z.ltb_spec 1 adj); [lia|]. destruct (Z.ltb_spec adj (-1)); lia. }
  generalize dependent (clamp_adjust adj). clear adj. intros adj Hadj.
  assert (Hz : len (zero_fill dst) = len dst)
    by (unfold len, zero_fill; now rewrite length_map).
  destruct (Z.eq_dec (len dst) fs) as [Hd | Hd].
  2:{ rewrite ReadIntoAdjust_wrong_len by assumption. now exists b, dst, false. }
  destruct (Z.eq_dec (Z.rem fs 2) 0) as [Hev | Hodd].
  2:{ rewrite ReadIntoAdjust_odd by assumption.
      destruct (Z.ltb_spec (len (buf b)) (frameSize b)).
      - exists b, (zero_fill dst), false. repeat split; try reflexivity; auto; lia.
      - do 3 eexists. split; [reflexivity|]. cbn [frameSize buf].
        unfold len in *. rewrite length_firstn, length_skipn. lia. }
  destruct (Z_lt_le_dec (len (buf b)) (fs + 2 * adj)) as [Hs | Hs].
  { rewrite ReadIntoAdjust_underflow by auto.
    exists b, (zero_fill dst), false. repeat split; try reflexivity; auto; lia. }
  destruct (Z_le_gt_dec (fs + 2 * adj) 0) as [H0 | H0].
  { rewrite ReadIntoAdjust_underflow by auto.
    exists b, (zero_fill dst), false. repeat split; try reflexivity; auto; lia. }
  destruct (@ReadIntoAdjust_even_ok adj Hev Hadj) as (out & Hlo & Hrun).
  { unfold valid_adjust in Hadj. unfold fs in *. lia. }
  rewrite Hrun by assumption. do 3 eexists. split; [reflexivity|].
  cbn [consume frameSize buf]. unfold fs, len in *. rewrite length_skipn. lia.
Qed.

End ReadSuccess.

(** ** The pacing loop: one tick *)

Lemma int_small z : - 2 ^ 63 <= z < 2 ^ 63 -> int z = z.
Proof.
  intros H. unfold int, wrap_signed.
  change (2 ^ (64 - 1)) with 9223372036854775808 in *.
  change (2 ^ 64) with 18446744073709551616.
  change (2 ^ 63) with 9223372036854775808 in H.
  rewrite Z.mod_small; lia.
Qed.

Lemma slice_from_skipn {A} (p : list A) lo :
  0 <= lo <= len p -> slice_from p lo = Ok (skipn (Z.to_nat lo) p).
Proof.
  intros H. destruct (split_at p H) as (pre & post & Hp & Hl & _ & Hpost).
  rewrite <- Hpost. rewrite Hp at 1. now apply slice_from_exact.
Qed.

Lemma applyAcc_valid acc : valid_adjust (fst (applyAcc acc)).
Proof.
  unfold applyAcc, valid_adjust.
  destruct (acc >? 0); [simpl; auto|]. destruct (acc <? 0); simpl; auto.
Qed.

Lemma applyAcc_zero : applyAcc 0 = (0, 0).
Proof. reflexivity. Qed.

Lemma applyAcc_abs acc :
  Z.abs acc < 2 ^ 62 -> Z.abs (snd (applyAcc acc)) <= Z.abs acc.
Proof.
  intros H. unfold applyAcc. change (2 ^ 62) with 4611686018427387904 in H.
  rewrite Z.gtb_ltb.
  destruct (Z.ltb_spec 0 acc); [|destruct (Z.ltb_spec acc 0)]; cbn [snd];
    try rewrite int_small; change (2 ^ 63) with 9223372036854775808; lia.
Qed.

Lemma accumulate_abs acc err target :
  - target <= err <= 200 -> Z.abs acc + acc_step target < 2 ^ 62 ->
  Z.abs (accumulate acc err) <= Z.abs acc + acc_step target.
Proof.
  intros He H. unfold accumulate, acc_step in *.
  change (2 ^ 62) with 4611686018427387904 in H.
  rewrite Z.geb_leb.
  destruct (Z.leb_spec 2 err); [|destruct (Z.leb_spec err (-2))];
    try rewrite int_small; change (2 ^ 63) with 9223372036854775808; lia.
Qed.

Lemma quot_add_frames a n fs :
  0 <= a -> 0 <= a + n * fs -> 1 <= fs ->
  Z.quot (a + n * fs) fs = Z.quot a fs + n.
Proof.
  intros Ha Hs Hfs. rewrite !Z.quot_div_nonneg by lia.
  apply Z.div_add. lia.
Qed.

(** A run of writes takes the frames of the frame size, in order. *)
Lemma WriteFrame_filter (frames : list (list byte)) : forall b,
  frameSize (fold_left WriteFrame frames b) = frameSize b /\
  buf (fold_left WriteFrame frames b)
  = buf b ++ concat (filter (fun f => len f =? frameSize b) frames).
Proof.
  induction frames as [|f frames IH]; intros b.
  - simpl. now rewrite app_nil_r.
  - cbn [fold_left filter]. destruct (IH (WriteFrame b f)) as (H1 & H2).
    rewrite H1, H2. unfold WriteFrame.
    destruct (Z.eqb_spec (len f) (frameSize b)); cbn [negb frameSize buf].
    + split; [reflexivity|]. cbn [concat]. now rewrite app_assoc.
    + split; reflexivity.
Qed.

Lemma concat_frames_len (fs : Z) (frames : list (list byte)) :
  Forall (fun f => len f = fs) frames -> len (concat frames) = len frames * fs.
Proof.
  induction 1 as [|f frames Hf _ IH]; [reflexivity|].
  cbn [concat]. rewrite len_app, len_cons, IH, Hf. lia.
Qed.

Lemma writes_spec (B : PCMPlayoutBuffer) (frames : list (list byte)) :
  writes B frames
  = {| frameSize := frameSize B;
       buf := buf B ++ concat (right_sized (frameSize B) frames) |}.
Proof.
  unfold writes, right_sized.
  destruct (WriteFrame_filter frames B) as (H1 & H2).
  destruct (fold_left WriteFrame frames B) as [fs' buf'].
  cbn [frameSize buf] in *. now subst.
Qed.

Lemma right_sized_len (fs : Z) (frames : list (list byte)) :
  len (concat (right_sized fs frames)) = len (right_sized fs frames) * fs.
Proof.
  apply concat_frames_len. unfold right_sized. apply Forall_forall.
  intros f Hin. apply filter_In in Hin. destruct Hin as (_ & Hf).
  now apply Z.eqb_eq.
Qed.

Lemma right_sized_bytes (fs : Z) (frames : list (list byte)) :
  len (concat (right_sized fs frames)) <= len (concat frames).
Proof.
  induction frames as [|f frames IH]; [reflexivity|].
  unfold right_sized in *. cbn [filter concat].
  pose proof (len_nonneg f).
  destruct (len f =? fs); cbn [concat]; rewrite ?len_app; lia.
Qed.

Lemma right_sized_count (fs : Z) (frames : list (list byte)) :
  len (right_sized fs frames) <= len frames.
Proof.
  induction frames as [|f frames IH]; [reflexivity|].
  unfold right_sized in *. cbn [filter].
  destruct (len f =? fs); rewrite ?len_cons; lia.
Qed.

Lemma right_sized_app (fs : Z) (p q : list (list byte)) :
  right_sized fs (p ++ q) = right_sized fs p ++ right_sized fs q.
Proof. apply filter_app. Qed.

Section Tick.
Variable b : MediaBridge.
Variable frameBuf : list byte.
Variable r : racing.
Let B := sipToTGBuffer b.
Let fs := frameSize B.
Let target := driftTarget b.
Let backlog := Z.quot (len (buf B)) fs.

Hypothesis fs_pos : 1 <= fs.
Hypothesis target_range : 1 <= target < 2 ^ 31.
Hypothesis buf_range : len (buf B) + len (concat (raced r)) < 2 ^ 62.

Let cap := backlog >? target + 200.
Let dropped := if cap then Z.min (backlog - target) backlog else 0.
Let backlog2 :=
  if cap then target + len (right_sized fs (w_measure r ++ w_drop r))
  else backlog.
Let acc_in := if cap then 0 else driftAcc b.
Let B1 := {| frameSize := fs;
             buf := skipn (Z.to_nat (dropped * fs)) (buf B)
                    ++ concat (right_sized fs (raced r)) |}.
Let acc2 := accumulate acc_in (backlog2 - target).

(** A tick, spelled out: it does not panic; the cap takes its frames from
    the front of the buffer as the tick found it, whatever lands meanwhile;
    and its result is the read of one frame from what is then in the
    buffer, with the adjust the accumulator asks for. *)
Lemma writeTG_tick_spec :
  exists B' frame ok,
    ReadIntoAdjust B1 frameBuf (fst (applyAcc acc2)) = Ok (B', frame, ok) /\
    frameSize B' = fs /\ len frame = len frameBuf /\
    len (buf B') <= len (buf B) + len (concat (raced r)) /\
    writeTG_tick b frameBuf r =
      Ok ({| sipToTGBuffer := B';
             driftTarget := target;
             driftMaxBurst := driftMaxBurst b;
             driftAcc := snd (applyAcc acc2) |},
          {| tick_hardcap := cap;
             tick_dropped := dropped;
             tick_backlog := backlog2;
             tick_acc_in := acc_in;
             tick_read_from := B1;
             tick_adjust := fst (applyAcc acc2);
             tick_acc := snd (applyAcc acc2);
             tick_frame := frame;
             tick_ok := ok |}).
Proof.
  pose proof (len_nonneg (buf B)) as Hnn.
  change (2 ^ 31) with 2147483648 in target_range.
  change (2 ^ 62) with 4611686018427387904 in buf_range.
  assert (Hbl : 0 <= backlog /\ backlog * fs <= len (buf B))
    by (subst backlog; split; [apply Z.quot_pos; lia | nia]).
  assert (Hbl' : backlog <= len (buf B)) by nia.
  assert (Htf : 0 <= target * fs) by (apply Z.mul_nonneg_nonneg; lia).
  assert (Hlen : LenFrames B = Ok backlog).
  { unfold LenFrames, div. fold fs.
    destruct (Z.eqb_spec fs 0); [lia | reflexivity]. }
  (* the frames that land, window by window *)
  set (c1 := right_sized fs (w_measure r)).
  set (c2 := right_sized fs (w_drop r)).
  set (c3 := right_sized fs (w_remeasure r)).
  assert (Hraced : right_sized fs (raced r) = c1 ++ c2 ++ c3)
    by (unfold raced; now rewrite !right_sized_app).
  pose proof (right_sized_bytes fs (raced r)) as Hbytes.
  rewrite Hraced, !concat_app, !len_app in Hbytes.
  pose proof (right_sized_len fs (w_measure r)) as Hc1. fold c1 in Hc1.
  pose proof (right_sized_len fs (w_drop r)) as Hc2. fold c2 in Hc2.
  pose proof (len_nonneg c1) as Hn1. pose proof (len_nonneg c2) as Hn2.
  pose proof (len_nonneg (concat c3)) as Hn3.
  assert (Hk1 : len c1 <= len c1 * fs)
    by (rewrite <- (Z.mul_1_r (len c1)) at 1;
        apply Z.mul_le_mono_nonneg_l; lia).
  assert (Hk2 : len c2 <= len c2 * fs)
    by (rewrite <- (Z.mul_1_r (len c2)) at 1;
        apply Z.mul_le_mono_nonneg_l; lia).
  assert (HB1 : 0 <= dropped /\ dropped * fs <= len (buf B)).
  { subst dropped cap. rewrite Z.gtb_ltb.
    destruct (Z.ltb_spec (target + 200) backlog); [|lia].
    rewrite Z.min_l by lia. lia. }
  assert (HlB1 : len (buf B1) <= len (buf B) + len (concat (raced r))).
  { subst B1. cbn [buf]. rewrite len_app, len_skipn by lia.
    rewrite Hraced, !concat_app, !len_app. lia. }
  destruct (@ReadIntoAdjust_total B1 frameBuf (fst (applyAcc acc2)))
    as (B' & frame & ok & Hread & HfB' & Hlf & HlB'); [cbn; lia|].
  exists B', frame, ok.
  split; [exact Hread|]. split; [exact HfB'|]. split; [exact Hlf|].
  split; [lia|].
  unfold writeTG_tick. fold B. rewrite Hlen. cbn [bind]. fold target.
  cbv zeta. rewrite (writes_spec B). fold fs c1.
  rewrite (@int_small (target + 200))
    by (change (2 ^ 63) with 9223372036854775808; lia).
  assert (Hi : int (backlog - target) = backlog - target)
    by (apply int_small; change (2 ^ 63) with 9223372036854775808; lia).
  revert Hread. subst acc2 B1 dropped backlog2 acc_in cap.
  rewrite Hraced, !concat_app.
  destruct (backlog >? target + 200) eqn:Hcap.
  - rewrite Z.gtb_ltb in Hcap. apply Z.ltb_lt in Hcap.
    rewrite Z.min_l by lia. rewrite Hi.
    assert (Hn : 0 <= (backlog - target) * fs <= len (buf B)) by lia.
    assert (Hdrop :
      DropFrames {| frameSize := fs; buf := buf B ++ concat c1 |}
                 (backlog - target)
      = Ok ({| frameSize := fs;
               buf := skipn (Z.to_nat ((backlog - target) * fs)) (buf B)
                      ++ concat c1 |},
            backlog - target)).
    { unfold DropFrames, div. cbn [frameSize buf].
      destruct (Z.leb_spec (backlog - target) 0); [lia|].
      destruct (Z.eqb_spec fs 0); [lia|]. cbn [bind].
      rewrite len_app, Hc1, quot_add_frames by lia. fold backlog.
      destruct (Z.leb_spec (backlog + len c1) 0); [lia|].
      rewrite Z.gtb_ltb.
      destruct (Z.ltb_spec (backlog + len c1) (backlog - target)); [lia|].
      rewrite slice_from_skipn by (rewrite len_app; lia).
      rewrite skipn_app.
      replace (Z.to_nat ((backlog - target) * fs) - length (buf B))%nat
        with 0%nat by (unfold len in Hn; lia).
      reflexivity. }
    rewrite Hdrop. cbn [bind].
    rewrite writes_spec. cbn [frameSize buf]. fold c2.
    assert (Hlen' :
      LenFrames {| frameSize := fs;
                   buf := (skipn (Z.to_nat ((backlog - target) * fs)) (buf B)
                           ++ concat c1) ++ concat c2 |}
      = Ok (target + len (right_sized fs (w_measure r ++ w_drop r)))).
    { unfold LenFrames, div. cbn [frameSize buf].
      destruct (Z.eqb_spec fs 0); [lia|]. f_equal.
      rewrite right_sized_app, !len_app. fold c1 c2.
      rewrite len_skipn by lia. rewrite Hc1, Hc2.
      replace (len (buf B) - (backlog - target) * fs + len c1 * fs
               + len c2 * fs)
        with (len (buf B)
              + (len c1 + len c2 - (backlog - target)) * fs) by lia.
      rewrite quot_add_frames by lia. fold backlog. lia. }
    rewrite Hlen'. cbn [bind].
    rewrite writes_spec. cbn [frameSize buf]. fold c3.
    rewrite <- !app_assoc.
    rewrite int_small
      by (rewrite right_sized_app, len_app; fold c1 c2;
          change (2 ^ 63) with 9223372036854775808; lia).
    intros Hread. destruct (applyAcc _) as [adj acc'].
    cbn [fst snd] in *. rewrite Hread. reflexivity.
  - cbn [bind]. rewrite Hi. rewrite Z.mul_0_l. cbn [Z.to_nat skipn].
    rewrite !writes_spec. cbn [frameSize buf]. fold c2 c3.
    rewrite <- !app_assoc.
    intros Hread. destruct (applyAcc _) as [adj acc'].
    cbn [fst snd] in *. rewrite Hread. reflexivity.
Qed.

End Tick.

(** ** The silence filler *)

Section FillerFacts.
Variables Enc error : Type.
Variable encHandleRTP : Enc -> Header -> list byte -> Enc * option error.

Local Abbreviation filler := (silenceFiller Enc recorder).
Local Abbreviation handle := (HandleRTP encHandleRTP (@record_sample error)).

Lemma fillWithSilence_loop_record trips : forall spf (log : recorder),
  0 <= spf ->
  fillWithSilence_loop (@record_sample error) trips spf log
    = Ok (log ++ repeat (silent_frame spf) trips, None).
Proof.
  induction trips as [|n IH]; intros spf log Hspf.
  - simpl. now rewrite app_nil_r.
  - cbn [fillWithSilence_loop]. unfold make_sample.
    destruct (Z.ltb_spec spf 0); [lia|]. cbn [bind record_sample].
    rewrite IH by assumption. cbn [repeat].
    now rewrite <- app_assoc.
Qed.




End FillerFacts.




Section FeedFacts.
Variables Enc error : Type.
Variable encHandleRTP : Enc -> Header -> list byte -> Enc * option error.


End FeedFacts.

(** ** The injector clock *)

Lemma int64_small z : - 2 ^ 63 <= z < 2 ^ 63 -> int64 z = z.
Proof. apply int_small. Qed.

Lemma step_of_pos s : stepMs s < 2 ^ 31 -> 1 <= step_of s < 2 ^ 31.
Proof.
  unfold step_of. change (2 ^ 31) with 2147483648.
  destruct (Z.ltb_spec (stepMs s) 1); lia.
Qed.

(** A monotonic clock that has not gone backwards since [start] reads an
    elapsed time of at most 2^63 ns, less than 2^44 ms. *)
Lemma elapsed_range now start :
  mono_ns start <= mono_ns now ->
  0 <= Milliseconds (Sub now start) < 2 ^ 44.
Proof.
  intros H. unfold Milliseconds, Sub, maxDuration, minDuration.
  change (2 ^ 63) with 9223372036854775808.
  change (2 ^ 44) with 17592186044416.
  set (d := Z.max _ _).
  assert (Hd : 0 <= d <= 9223372036854775807) by (subst d; lia).
  clearbody d.
  split; [apply Z.quot_pos; lia | apply Z.quot_lt_upper_bound; lia].
Qed.

Lemma quot_grid a b :
  0 <= a -> 0 < b ->
  0 <= Z.quot a b /\ Z.quot a b * b <= a < (Z.quot a b + 1) * b.
Proof.
  intros Ha Hb. rewrite Z.quot_div_nonneg by lia.
  pose proof (Z.div_pos a b Ha Hb).
  pose proof (Z.mul_div_le a b Hb).
  pose proof (Z.mul_succ_div_gt a b Hb). lia.
Qed.

Lemma quot_upper a b : 0 < b -> a < (Z.quot a b + 1) * b.
Proof.
  intros Hb. pose proof (Z.quot_rem' a b) as Hqr.
  destruct (Z_lt_le_dec a 0) as [Hneg | Hpos].
  - pose proof (Z.rem_nonpos a b ltac:(lia) ltac:(lia)). lia.
  - pose proof (Z.rem_bound_pos a b Hpos Hb). lia.
Qed.

(** One call on an anchored injector. *)
Lemma SendPCMFrame10ms_anchored s k e t0 t1 :
  stepMs s < 2 ^ 31 -> 0 <= k -> (k + 1) * step_of s < 2 ^ 61 ->
  anchored s k e ->
  mono_ns (micStart s) <= mono_ns t1 ->
  let step := step_of s in
  let e' := Milliseconds (Sub t1 (micStart s)) in
  exists s' ts,
    SendPCMFrame10ms s t0 t1 = (s', {| cap_elapsedMs := e'; cap_ts := ts |}) /\
    micLastTsMs s' = ts /\ micStart s' = micStart s /\ stepMs s' = stepMs s /\
    micLastTsMs s < ts /\
    (ts - micLastTsMs s) mod step = 0 /\
    (ts - micLastTsMs s <> step -> step <= e' - e) /\
    0 <= e' /\
    anchored s' (k + 1) e'.
Proof.
  intros Hstep Hk Hkk (Honce & HW & Hgrid & Hlow & Hlow' & Hhigh) Hmono step e'.
  pose proof (step_of_pos s Hstep) as Hs.
  fold step in Hs, Hgrid, Hlow, Hlow', Hhigh, Hkk.
  change (2 ^ 61) with 2305843009213693952 in *.
  pose proof (elapsed_range _ _ Hmono) as He'. fold e' in He'.
  change (2 ^ 31) with 2147483648 in *. change (2 ^ 62) with 4611686018427387904 in *.
  change (2 ^ 44) with 17592186044416 in *.
  unfold SendPCMFrame10ms. rewrite Honce. cbv zeta.
  fold (step_of s). fold step. fold e'.
  destruct (@quot_grid e' step) as (Hq0 & Hq); [lia | lia |].
  pose proof (@quot_upper e step ltac:(lia)) as Hp.
  assert (Hkk' : 0 <= k * step) by nia.
  rewrite (@int64_small (Z.quot e' step * step))
    by (change (2 ^ 63) with 9223372036854775808; lia).
  rewrite (@int64_small (micStartWallMs s + Z.quot e' step * step))
    by (change (2 ^ 63) with 9223372036854775808; lia).
  rewrite (@int64_small (micLastTsMs s + step))
    by (change (2 ^ 63) with 9223372036854775808; lia).
  set (ts0 := micStartWallMs s + Z.quot e' step * step).
  assert (Hts0 : (ts0 - micStartWallMs s) mod step = 0)
    by (subst ts0; replace (micStartWallMs s + Z.quot e' step * step
                            - micStartWallMs s)
          with (Z.quot e' step * step) by lia; apply Z.mod_mul; lia).
  apply Z.mod_divide in Hgrid; [|lia]. destruct Hgrid as [j Hj].
  apply Z.mod_divide in Hts0; [|lia]. destruct Hts0 as [j0 Hj0].
  do 2 eexists. split; [reflexivity|].
  cbn [micLastTsMs micStart stepMs].
  split; [reflexivity|]. split; [reflexivity|]. split; [reflexivity|].
  unfold anchored. cbn [micOnce micStartWallMs micLastTsMs].
  unfold step_of. cbn [stepMs]. fold (step_of s). fold step.
  change (2 ^ 62) with 4611686018427387904. change (2 ^ 44) with 17592186044416.
  destruct (Z.leb_spec ts0 (micLastTsMs s)) as [Hle | Hgt].
  - replace (micLastTsMs s + step - micLastTsMs s) with (1 * step) by lia.
    rewrite Z.mod_mul by lia.
    replace (micLastTsMs s + step - micStartWallMs s) with ((j + 1) * step)
      by lia.
    rewrite Z.mod_mul by lia.
    repeat split; try lia; exact Honce.
  - assert (Hdiff : ts0 - micLastTsMs s = (j0 - j) * step) by lia.
    rewrite Hdiff, Z.mod_mul by lia.
    replace (ts0 - micStartWallMs s) with (j0 * step) by lia.
    rewrite Z.mod_mul by lia.
    repeat split; try lia; try exact Honce.
    intros Hne.
    assert (Hjj : 2 <= j0 - j).
    { destruct (Z_le_gt_dec (j0 - j) 0) as [Hneg | Hpos].
      - pose proof (Z.mul_nonpos_nonneg (j0 - j) step Hneg ltac:(lia)). lia.
      - destruct (Z.eq_dec (j0 - j) 1) as [H1 | H1]; [|lia].
        rewrite H1 in Hne. lia. }
    assert (Hq1 : Z.quot e' step = j0)
      by (apply (Z.mul_reg_r _ _ step); lia).
    assert (Hq2 : Z.quot e step <= j)
      by (apply (Z.mul_le_mono_pos_r _ _ step); lia).
    assert (Hm1 : (Z.quot e step + 1) * step <= (j + 1) * step)
      by (apply Z.mul_le_mono_nonneg_r; lia).
    assert (Hm2 : (j + 1) * step <= (j0 - 1) * step)
      by (apply Z.mul_le_mono_nonneg_r; lia).
    rewrite Hq1 in Hq. lia.
Qed.

Lemma step_of_stepMs s s' : stepMs s' = stepMs s -> step_of s' = step_of s.
Proof. unfold step_of. now intros ->. Qed.

(** A run of calls on an anchored injector, seen together with the capture
    that went out last. *)
Lemma inject_anchored clock : forall s k e,
  stepMs s < 2 ^ 31 -> 0 <= k ->
  (k + len clock) * step_of s < 2 ^ 61 ->
  anchored s k e ->
  Forall (fun c => mono_ns (micStart s) <= mono_ns (snd c)) clock ->
  paced (step_of s)
    ({| cap_elapsedMs := e; cap_ts := micLastTsMs s |}
       :: snd (inject s clock)).
Proof.
  induction clock as [|[t0 t1] clock IH]; intros s k e Hstep Hk Hlen Hanc Hmono.
  - exact I.
  - rewrite len_cons in Hlen. pose proof (len_nonneg clock) as Hnn.
    pose proof (step_of_pos s Hstep) as Hs.
    inversion Hmono as [|? ? Hm1 Hrest]; subst. cbn [snd] in Hm1.
    assert (Hk1 : (k + 1) * step_of s < 2 ^ 61) by nia.
    destruct (@SendPCMFrame10ms_anchored s k e t0 t1 Hstep Hk Hk1 Hanc Hm1)
      as (s' & ts & Hsend & Hlast & Hstart & Hst & Hlt & Hmod & Hne & He' & Hanc').
    cbn [inject]. rewrite Hsend.
    pose proof (step_of_stepMs s s' Hst) as Hso.
    specialize (IH s' (k + 1) (Milliseconds (Sub t1 (micStart s)))).
    rewrite Hso, Hst, Hstart, Hlast in IH.
    specialize (IH Hstep ltac:(lia) ltac:(nia) Hanc' Hrest).
    destruct (inject s' clock) as [s'' cs]. cbn [snd] in *.
    cbn [paced cap_ts cap_elapsedMs].
    split; [exact Hlt|]. split; [exact Hmod|]. split; [exact Hne|]. exact IH.
Qed.

Lemma SendPCMFrame10ms_first s t0 t1 :
  micOnce s = false ->
  SendPCMFrame10ms s t0 t1 = SendPCMFrame10ms (anchor s t0) t0 t1.
Proof.
  intros Hf. unfold SendPCMFrame10ms. rewrite Hf. reflexivity.
Qed.

Lemma anchor_anchored s t0 :
  stepMs s < 2 ^ 31 -> 0 <= wall_ms t0 < 2 ^ 62 ->
  anchored (anchor s t0) 0 (- step_of s).
Proof.
  intros Hstep HW. pose proof (step_of_pos s Hstep) as Hs.
  unfold anchored.
  assert (Hso : step_of (anchor s t0) = step_of s) by reflexivity.
  rewrite Hso. cbn [anchor micOnce micStartWallMs micLastTsMs]. unfold UnixMilli.
  change (2 ^ 31) with 2147483648 in *.
  change (2 ^ 62) with 4611686018427387904 in *.
  change (2 ^ 44) with 17592186044416.
  rewrite int64_small by (change (2 ^ 63) with 9223372036854775808; lia).
  replace (wall_ms t0 - step_of s - wall_ms t0) with ((-1) * step_of s) by lia.
  rewrite Z.mod_mul by lia.
  rewrite Z.quot_opp_l, Z.quot_same by lia.
  repeat split; lia.
Qed.

(** ** Construction of the SIP endpoint *)

Section SipFacts.
Import String Ascii.
Import strings media sip_endpoint.
Local Open Scope string_scope.

Lemma lower_keeps_space c : isSpace (lower c) = false -> isSpace c = false.
Proof.
  destruct c as [[] [] [] [] [] [] [] []]; vm_compute; congruence.
Qed.

Lemma TrimSpace_nonblank c r :
  isSpace c = false -> String.eqb (TrimSpace (String c r)) "" = false.
Proof.
  intros Hc. unfold TrimSpace. cbn [trimLeft]. rewrite Hc. cbn [trimRight].
  destruct (trimRight r); [rewrite Hc|]; reflexivity.
Qed.

Lemma supported_name_head c :
  supported_name c ->
  exists c0 r, Name c = String c0 r /\ isSpace c0 = false.
Proof.
  unfold supported_name. cbv zeta. intros H.
  destruct (Name c) as [|c0 r]; [cbn in H; intuition discriminate|].
  exists c0, r. split; [reflexivity|]. apply lower_keeps_space.
  cbn [ToLower] in H.
  destruct H as [H | [H | [H | H]]]; injection H as -> _; reflexivity.
Qed.

Lemma CanonicalSDPName_head c c0 r :
  Name c = String c0 r -> isSpace c0 = false ->
  exists c1 r1, CanonicalSDPName c = String c1 r1 /\ isSpace c1 = false.
Proof.
  intros Hn Hc. unfold CanonicalSDPName, SDPName. cbv zeta. rewrite Hn.
  repeat match goal with
         | |- context [if ?b then _ else _] => destruct b
         end;
    cbn [append]; eauto.
Qed.

(** A list of DTMF codecs yields no audio codec. *)
Lemma CodecAudioFromList_scan_dtmf reg codecs : forall i bestIdx bestPrio,
  Forall dtmf_only codecs ->
  CodecAudioFromList_scan reg codecs i bestIdx bestPrio = (bestIdx, bestPrio).
Proof.
  induction codecs as [|c codecs IH]; intros i bi bp H; [reflexivity|].
  inversion H as [|? ? Hc Hrest]; subst. cbn [CodecAudioFromList_scan].
  replace (IsDTMF c || EqualFold (Name c) "telephone-event") with true
    by (symmetry; apply orb_true_iff; exact Hc).
  now apply IH.
Qed.

Lemma CodecAudioFromList_dtmf reg codecs :
  Forall dtmf_only codecs -> CodecAudioFromList reg codecs = None.
Proof.
  intros H. unfold CodecAudioFromList.
  now rewrite CodecAudioFromList_scan_dtmf.
Qed.

End SipFacts.

(** ** The playout buffer: the claims *)

Lemma zero_fill_repeat (dst : list byte) :
  zero_fill dst = repeat "000"%byte (length dst).
Proof.
  unfold zero_fill. induction dst as [|x dst IH]; simpl; congruence.
Qed.

(** C3 (as amended).  For an even [frameSize], an [adjust] in {-1, 0, +1}
    and a buffer that holds at least [frameSize + 2*adjust] bytes, where
    that number is positive, [ReadIntoAdjust] returns ok, the frame it leaves
    in [dst] has [frameSize] bytes and none of them is a byte [dst] held
    before (the frame is the same whatever [dst] contained), and exactly
    [frameSize + 2*adjust] bytes are gone from the front of the buffer. *)
Theorem C3_read_adjust_emits_whole_frame (b : PCMPlayoutBuffer) (adj : Z) :
  Z.rem (frameSize b) 2 = 0 ->
  valid_adjust adj ->
  0 < frameSize b + 2 * adj <= len (buf b) ->
  exists out,
    len out = frameSize b /\
    (forall dst, len dst = frameSize b ->
       ReadIntoAdjust b dst adj =
         Ok (consume b (frameSize b + 2 * adj), out, true)) /\
    buf (consume b (frameSize b + 2 * adj))
      = skipn (Z.to_nat (frameSize b + 2 * adj)) (buf b) /\
    len (buf (consume b (frameSize b + 2 * adj)))
      = len (buf b) - (frameSize b + 2 * adj).
Proof.
  intros Hev Hadj Hin.
  destruct (ReadIntoAdjust_even_ok b Hev Hadj Hin) as (out & Hl & Hrun).
  exists out. repeat split; auto.
  cbn [consume buf]. apply len_skipn. lia.
Qed.

Lemma C3_read_adjust_emits_whole_frame_witness :
  let b := {| frameSize := 4; buf := eight_bytes |} in
  Z.rem (frameSize b) 2 = 0 /\ valid_adjust 1 /\
  0 < frameSize b + 2 * 1 <= len (buf b) /\
  exists out,
    len out = frameSize b /\
    (forall dst, len dst = frameSize b ->
       ReadIntoAdjust b dst 1 = Ok (consume b (frameSize b + 2 * 1), out, true)) /\
    buf (consume b (frameSize b + 2 * 1))
      = skipn (Z.to_nat (frameSize b + 2 * 1)) (buf b) /\
    len (buf (consume b (frameSize b + 2 * 1)))
      = len (buf b) - (frameSize b + 2 * 1).
Proof.
  intros b.
  assert (H1 : Z.rem (frameSize b) 2 = 0) by reflexivity.
  assert (H2 : valid_adjust 1) by (right; right; reflexivity).
  assert (H3 : 0 < frameSize b + 2 * 1 <= len (buf b)) by (vm_compute; split; congruence).
  split; [exact H1|]. split; [exact H2|]. split; [exact H3|].
  exact (C3_read_adjust_emits_whole_frame b H1 H2 H3).
Defined.

(** C3 as the specification states it fails for the smallest PCM16 frame:
    with [frameSize = 2] and [adjust = -1] the buffer trivially holds the
    [0] bytes asked for, yet the read is refused and [dst] is zeroed. *)
Lemma C3_counterexample :
  let b := WriteFrame (NewPCMPlayoutBuffer 2) ["001"; "002"]%byte in
  let dst := ["007"; "007"]%byte in
  Z.rem (frameSize b) 2 = 0 /\ valid_adjust (-1) /\
  frameSize b + 2 * (-1) <= len (buf b) /\ len dst = frameSize b /\
  ReadIntoAdjust b dst (-1) = Ok (b, ["000"; "000"]%byte, false) /\
  ~ (exists b' out, ReadIntoAdjust b dst (-1) = Ok (b', out, true)).
Proof.
  cbv zeta. repeat split; try (vm_compute; congruence).
  - left; reflexivity.
  - intros (b' & out & H). vm_compute in H. discriminate.
Qed.

(** C4.  For an even [frameSize] and an [adjust] in {-1, 0, +1}, a buffer
    holding fewer than [frameSize + 2*adjust] bytes makes [ReadIntoAdjust]
    fill all of [dst] with zero bytes and return not-ok; the buffer is left
    as it was. *)
Theorem C4_underflow_zero_fills (b : PCMPlayoutBuffer) (dst : list byte)
    (adj : Z) :
  Z.rem (frameSize b) 2 = 0 ->
  valid_adjust adj ->
  len dst = frameSize b ->
  len (buf b) < frameSize b + 2 * adj ->
  ReadIntoAdjust b dst adj
    = Ok (b, repeat "000"%byte (Z.to_nat (frameSize b)), false).
Proof.
  intros Hev Hadj Hd Hshort.
  rewrite ReadIntoAdjust_underflow by auto.
  rewrite zero_fill_repeat.
  replace (length dst) with (Z.to_nat (frameSize b)) by (unfold len in Hd; lia).
  reflexivity.
Qed.

Lemma C4_underflow_zero_fills_witness :
  let b := {| frameSize := 4; buf := ["001"; "002"; "003"; "004"]%byte |} in
  let dst := ["009"; "009"; "009"; "009"]%byte in
  Z.rem (frameSize b) 2 = 0 /\ valid_adjust 1 /\ len dst = frameSize b /\
  len (buf b) < frameSize b + 2 * 1 /\
  ReadIntoAdjust b dst 1
    = Ok (b, repeat "000"%byte (Z.to_nat (frameSize b)), false).
Proof.
  intros b dst.
  assert (H1 : Z.rem (frameSize b) 2 = 0) by reflexivity.
  assert (H2 : valid_adjust 1) by (right; right; reflexivity).
  assert (H3 : len dst = frameSize b) by reflexivity.
  assert (H4 : len (buf b) < frameSize b + 2 * 1) by reflexivity.
  split; [exact H1|]. split; [exact H2|]. split; [exact H3|].
  split; [exact H4|].
  exact (C4_underflow_zero_fills b dst H1 H2 H3 H4).
Defined.

(** C7 (the code departs from it).  On digital silence at 44.1 kHz the search
    settles on byte offset 360, both for the drop (884 input bytes) and for
    the insertion (880 input bytes); the window [mid - 80, mid + 80] is
    [361, 521].  The offset is even, but one byte below the window: the
    search aligns its lower end downwards. *)
Theorem C7_cut_offset_below_window :
  let frameSize := 882 in
  let mid := Z.quot frameSize 2 in
  findBestCut (silence_44k1 884) (mid - 80) (mid + 80) = Ok 360 /\
  findBestCut (silence_44k1 880) (mid - 80) (mid + 80) = Ok 360 /\
  ~ (mid - 80 <= 360 <= mid + 80) /\
  ReadIntoAdjust {| frameSize := frameSize; buf := silence_44k1 884 |}
    (silence_44k1 882) 1
    = Ok ({| frameSize := frameSize; buf := [] |}, silence_44k1 882, true).
Proof.
  cbv zeta. repeat split; try (vm_compute; reflexivity).
  vm_compute. intros [H _]. apply H. reflexivity.
Qed.

(** C9.  For an odd [frameSize] every [adjust] behaves as [adjust = 0]:
    [ReadIntoAdjust] never panics (no index leaves its slice), and with a
    [dst] of [frameSize] bytes it either copies the first [frameSize] bytes
    of the buffer and removes them, or, when fewer are there, zero-fills
    [dst] and returns not-ok. *)
Theorem C9_odd_frame_size_exact_copy (b : PCMPlayoutBuffer) (dst : list byte)
    (adj : Z) :
  Z.rem (frameSize b) 2 <> 0 ->
  ReadIntoAdjust b dst adj = ReadIntoAdjust b dst 0 /\
  (exists r, ReadIntoAdjust b dst adj = Ok r) /\
  (len dst = frameSize b ->
   ReadIntoAdjust b dst adj =
     if len (buf b) <? frameSize b
     then Ok (b, repeat "000"%byte (Z.to_nat (frameSize b)), false)
     else Ok (consume b (frameSize b),
              firstn (Z.to_nat (frameSize b)) (buf b), true)).
Proof.
  intros Hodd.
  destruct (Z.eq_dec (len dst) (frameSize b)) as [Hd | Hd].
  - rewrite !ReadIntoAdjust_odd by assumption.
    split; [reflexivity|]. split.
    + destruct (len (buf b) <? frameSize b); eauto.
    + intros _. rewrite zero_fill_repeat.
      replace (length dst) with (Z.to_nat (frameSize b))
        by (unfold len in Hd; lia).
      reflexivity.
  - rewrite !ReadIntoAdjust_wrong_len by assumption.
    split; [reflexivity|]. split; [eauto | contradiction].
Qed.

Lemma C9_odd_frame_size_exact_copy_witness :
  let b := {| frameSize := 3; buf := eight_bytes |} in
  let dst := ["009"; "009"; "009"]%byte in
  Z.rem (frameSize b) 2 <> 0 /\
  ReadIntoAdjust b dst (-1) = ReadIntoAdjust b dst 0 /\
  (exists r, ReadIntoAdjust b dst (-1) = Ok r) /\
  (len dst = frameSize b ->
   ReadIntoAdjust b dst (-1) =
     if len (buf b) <? frameSize b
     then Ok (b, repeat "000"%byte (Z.to_nat (frameSize b)), false)
     else Ok (consume b (frameSize b),
              firstn (Z.to_nat (frameSize b)) (buf b), true)).
Proof.
  intros b dst.
  assert (H1 : Z.rem (frameSize b) 2 <> 0) by (vm_compute; congruence).
  split; [exact H1|].
  exact (C9_odd_frame_size_exact_copy b dst (-1) H1).
Defined.

(** C10.  With a [dst] whose length is not [frameSize], [ReadIntoAdjust]
    returns not-ok at once: [dst] keeps every byte it had (it is not
    zero-filled) and the buffer keeps all of its bytes. *)
Theorem C10_wrong_dst_length_untouched (b : PCMPlayoutBuffer)
    (dst : list byte) (adj : Z) :
  len dst <> frameSize b ->
  ReadIntoAdjust b dst adj = Ok (b, dst, false).
Proof. apply ReadIntoAdjust_wrong_len. Qed.

Lemma C10_wrong_dst_length_untouched_witness :
  let b := {| frameSize := 4; buf := eight_bytes |} in
  let dst := ["009"; "009"; "009"]%byte in
  len dst <> frameSize b /\ ReadIntoAdjust b dst 1 = Ok (b, dst, false).
Proof.
  intros b dst.
  assert (H1 : len dst <> frameSize b) by (vm_compute; congruence).
  split; [exact H1|].
  exact (C10_wrong_dst_length_untouched b dst 1 H1).
Defined.
(** ** The pacing loop: the claims *)

(** The accumulator a tick on which the cap fired ends with: it starts from
    zero and takes half of what the backlog has over the target. *)
Lemma restart_acc k :
  0 <= k < 2 ^ 62 ->
  valid_adjust (fst (applyAcc (accumulate 0 k))) /\
  0 <= 2 * snd (applyAcc (accumulate 0 k)) <= k /\
  (k = 0 -> applyAcc (accumulate 0 k) = (0, 0)).
Proof.
  intros Hk. change (2 ^ 62) with 4611686018427387904 in Hk.
  split; [apply applyAcc_valid|].
  assert (Hacc : accumulate 0 k = if 2 <=? k then Z.quot k 2 else 0).
  { unfold accumulate. rewrite Z.geb_leb.
    destruct (Z.leb_spec 2 k).
    - apply int_small. change (2 ^ 63) with 9223372036854775808. lia.
    - destruct (Z.leb_spec k (-2)); [lia | reflexivity]. }
  rewrite Hacc. unfold applyAcc. rewrite Z.gtb_ltb.
  destruct (Z.leb_spec 2 k).
  - destruct (Z.ltb_spec 0 (Z.quot k 2)); [|lia]. cbn [snd].
    rewrite int_small by (change (2 ^ 63) with 9223372036854775808; lia).
    split; [lia|]. intros ->. lia.
  - change (0 <? 0) with false. cbv iota. cbn [snd].
    split; [lia|]. reflexivity.
Qed.

(** One tick: it does not panic, the adjust is a unit, and the accumulator
    either grows by at most [acc_step] from where it stood (no cap) or is
    started again from zero (cap). *)
Lemma writeTG_tick_acc (b : MediaBridge) (frameBuf : list byte) (r : racing) :
  1 <= frameSize (sipToTGBuffer b) ->
  1 <= driftTarget b < 2 ^ 31 ->
  len (buf (sipToTGBuffer b)) + len (concat (raced r)) < 2 ^ 62 ->
  Z.abs (driftAcc b) + acc_step (driftTarget b) < 2 ^ 62 ->
  exists b' t,
    writeTG_tick b frameBuf r = Ok (b', t) /\
    frameSize (sipToTGBuffer b') = frameSize (sipToTGBuffer b) /\
    driftTarget b' = driftTarget b /\
    len (buf (sipToTGBuffer b'))
      <= len (buf (sipToTGBuffer b)) + len (concat (raced r)) /\
    valid_adjust (tick_adjust t) /\
    tick_acc t = driftAcc b' /\
    (tick_hardcap t = false ->
       tick_acc_in t = driftAcc b /\
       Z.abs (driftAcc b') <= Z.abs (driftAcc b) + acc_step (driftTarget b)) /\
    (tick_hardcap t = true ->
       tick_acc_in t = 0 /\
       0 <= 2 * tick_acc t <= tick_backlog t - driftTarget b /\
       tick_backlog t - driftTarget b <= len (w_measure r ++ w_drop r) /\
       len (w_measure r ++ w_drop r) <= len (raced r)).
Proof.
  intros Hfs Ht Hb Hacc.
  destruct (writeTG_tick_spec b frameBuf r Hfs Ht Hb)
    as (B' & frame & ok & _ & HfB' & _ & HlB' & Hrun).
  cbv zeta in Hrun. rewrite Hrun. clear Hrun.
  do 2 eexists. split; [reflexivity|].
  cbn [sipToTGBuffer driftTarget driftAcc tick_adjust tick_acc tick_hardcap
       tick_acc_in tick_backlog].
  split; [exact HfB'|]. split; [reflexivity|]. split; [exact HlB'|].
  split; [apply applyAcc_valid|]. split; [reflexivity|].
  pose proof (len_nonneg (buf (sipToTGBuffer b))) as Hnn.
  assert (Hq : 0 <= Z.quot (len (buf (sipToTGBuffer b)))
                      (frameSize (sipToTGBuffer b)))
    by (apply Z.quot_pos; lia).
  set (k := len (right_sized (frameSize (sipToTGBuffer b))
                   (w_measure r ++ w_drop r))).
  assert (Hk : 0 <= k <= len (w_measure r ++ w_drop r) /\
               len (w_measure r ++ w_drop r) <= len (raced r) /\
               k < 2 ^ 62).
  { subst k. pose proof (len_nonneg (right_sized (frameSize (sipToTGBuffer b))
                                        (w_measure r ++ w_drop r))).
    pose proof (right_sized_count (frameSize (sipToTGBuffer b))
                  (w_measure r ++ w_drop r)) as Hc.
    pose proof (right_sized_len (frameSize (sipToTGBuffer b))
                  (w_measure r ++ w_drop r)) as Hl.
    pose proof (right_sized_bytes (frameSize (sipToTGBuffer b))
                  (w_measure r ++ w_drop r)) as Hbytes.
    pose proof (len_nonneg (concat (w_remeasure r))).
    unfold raced in *. rewrite app_assoc in *.
    rewrite (len_app (w_measure r ++ w_drop r)).
    rewrite (concat_app (w_measure r ++ w_drop r)), len_app in Hb.
    pose proof (len_nonneg (w_remeasure r)).
    change (2 ^ 62) with 4611686018427387904 in *.
    split; [lia|]. split; [lia | nia]. }
  rewrite Z.gtb_ltb.
  destruct (Z.ltb_spec (driftTarget b + 200)
              (Z.quot (len (buf (sipToTGBuffer b)))
                      (frameSize (sipToTGBuffer b)))) as [Hcap | Hcap].
  - split; [discriminate|]. intros _. split; [reflexivity|].
    replace (driftTarget b + k - driftTarget b) with k by lia.
    destruct (@restart_acc k) as (_ & Hr & _); [lia|].
    split; [exact Hr|]. split; lia.
  - split; [|discriminate]. intros _. split; [reflexivity|].
    assert (Hstep : 0 <= acc_step (driftTarget b)) by (unfold acc_step; lia).
    etransitivity; [apply applyAcc_abs|apply accumulate_abs]; try lia.
    eapply Z.le_lt_trans;
      [apply (@accumulate_abs _ _ (driftTarget b))|]; lia.
Qed.

(** C2.  On a tick that finds the backlog above [driftTarget + 200], the
    controller drops exactly [min (backlog - driftTarget) backlog] whole
    frames, the oldest ones, from the playout buffer, and sets the
    accumulator to 0 before it goes on; on a tick with
    [backlog <= driftTarget + 200] nothing is dropped and the accumulator is
    taken as it stood.  This holds whatever frames the decode chain writes
    to the buffer while the tick is under way: the frame is read from what
    the drop left of the buffer, followed by the frames that landed.  The
    backlog the tick goes on with is measured again after the drop: it is
    the target plus the frames that landed before that, so that without
    such frames the tick ends with the accumulator at 0 and no adjust. *)
Theorem C2_hard_cap_drops_to_target (b : MediaBridge) (frameBuf : list byte)
    (r : racing) :
  let B := sipToTGBuffer b in
  let fs := frameSize B in
  let backlog := Z.quot (len (buf B)) fs in
  1 <= fs ->
  1 <= driftTarget b < 2 ^ 31 ->
  len (buf B) + len (concat (raced r)) < 2 ^ 62 ->
  exists b' t,
    writeTG_tick b frameBuf r = Ok (b', t) /\
    LenFrames B = Ok backlog /\
    ReadIntoAdjust (tick_read_from t) frameBuf (tick_adjust t)
      = Ok (sipToTGBuffer b', tick_frame t, tick_ok t) /\
    frameSize (tick_read_from t) = fs /\
    buf (tick_read_from t)
      = skipn (Z.to_nat (tick_dropped t * fs)) (buf B)
        ++ concat (right_sized fs (raced r)) /\
    (tick_adjust t, driftAcc b')
      = applyAcc (accumulate (tick_acc_in t)
                             (tick_backlog t - driftTarget b)) /\
    (backlog > driftTarget b + 200 ->
       tick_hardcap t = true /\
       tick_dropped t = Z.min (backlog - driftTarget b) backlog /\
       tick_acc_in t = 0 /\
       tick_backlog t
         = backlog - tick_dropped t
           + len (right_sized fs (w_measure r ++ w_drop r)) /\
       (right_sized fs (w_measure r ++ w_drop r) = [] ->
        driftAcc b' = 0 /\ tick_adjust t = 0)) /\
    (backlog <= driftTarget b + 200 ->
       tick_hardcap t = false /\
       tick_dropped t = 0 /\
       tick_acc_in t = driftAcc b /\
       tick_backlog t = backlog).
Proof.
  intros B fs backlog Hfs Ht Hb.
  destruct (writeTG_tick_spec b frameBuf r Hfs Ht Hb)
    as (B' & frame & ok & Hread & _ & _ & _ & Hrun).
  cbv zeta in Hrun, Hread. rewrite Hrun. clear Hrun.
  do 2 eexists. split; [reflexivity|].
  cbn [sipToTGBuffer driftAcc tick_adjust tick_hardcap tick_dropped
       tick_read_from tick_frame tick_ok tick_acc_in tick_backlog
       frameSize buf].
  fold B in Hread |- *. fold fs in Hread |- *. fold backlog in Hread |- *.
  pose proof (len_nonneg (buf B)) as Hnn.
  assert (Hq : 0 <= backlog /\ backlog * fs <= len (buf B))
    by (subst backlog; split; [apply Z.quot_pos; lia | nia]).
  split.
  { unfold LenFrames, div. fold fs.
    destruct (Z.eqb_spec fs 0); [lia | reflexivity]. }
  split; [exact Hread|]. split; [reflexivity|]. split; [reflexivity|].
  split; [now destruct (applyAcc _)|].
  rewrite Z.gtb_ltb.
  destruct (Z.ltb_spec (driftTarget b + 200) backlog) as [Hcap | Hcap].
  - split; [intros _ | lia].
    split; [reflexivity|]. split; [reflexivity|]. split; [reflexivity|].
    split; [lia|].
    intros ->. change (len (@nil (list byte))) with 0.
    replace (driftTarget b + 0 - driftTarget b) with 0 by lia.
    split; reflexivity.
  - split; [lia | intros _]. repeat split.
Qed.

Lemma C2_hard_cap_drops_to_target_witness :
  let b := {| sipToTGBuffer := {| frameSize := 1;
                                  buf := repeat "000"%byte 205 |};
              driftTarget := 2; driftMaxBurst := 1; driftAcc := 7 |} in
  let frameBuf := ["009"%byte] in
  let r := {| w_measure := [];
              w_drop := repeat ["001"%byte] 6;
              w_remeasure := [] |} in
  let B := sipToTGBuffer b in
  let fs := frameSize B in
  let backlog := Z.quot (len (buf B)) fs in
  1 <= fs /\ 1 <= driftTarget b < 2 ^ 31 /\
  len (buf B) + len (concat (raced r)) < 2 ^ 62 /\
  exists b' t,
    writeTG_tick b frameBuf r = Ok (b', t) /\
    LenFrames B = Ok backlog /\
    ReadIntoAdjust (tick_read_from t) frameBuf (tick_adjust t)
      = Ok (sipToTGBuffer b', tick_frame t, tick_ok t) /\
    frameSize (tick_read_from t) = fs /\
    buf (tick_read_from t)
      = skipn (Z.to_nat (tick_dropped t * fs)) (buf B)
        ++ concat (right_sized fs (raced r)) /\
    (tick_adjust t, driftAcc b')
      = applyAcc (accumulate (tick_acc_in t)
                             (tick_backlog t - driftTarget b)) /\
    (backlog > driftTarget b + 200 ->
       tick_hardcap t = true /\
       tick_dropped t = Z.min (backlog - driftTarget b) backlog /\
       tick_acc_in t = 0 /\
       tick_backlog t
         = backlog - tick_dropped t
           + len (right_sized fs (w_measure r ++ w_drop r)) /\
       (right_sized fs (w_measure r ++ w_drop r) = [] ->
        driftAcc b' = 0 /\ tick_adjust t = 0)) /\
    (backlog <= driftTarget b + 200 ->
       tick_hardcap t = false /\
       tick_dropped t = 0 /\
       tick_acc_in t = driftAcc b /\
       tick_backlog t = backlog).
Proof.
  intros b frameBuf r B fs backlog.
  assert (H1 : 1 <= fs) by (vm_compute; congruence).
  assert (H2 : 1 <= driftTarget b < 2 ^ 31) by (vm_compute; split; congruence).
  assert (H3 : len (buf B) + len (concat (raced r)) < 2 ^ 62) by reflexivity.
  split; [exact H1|]. split; [exact H2|]. split; [exact H3|].
  exact (C2_hard_cap_drops_to_target b frameBuf r H1 H2 H3).
Defined.

Lemma WriteFrame_facts (B : PCMPlayoutBuffer) (frame : list byte) :
  frameSize (WriteFrame B frame) = frameSize B /\
  len (buf (WriteFrame B frame)) <= len (buf B) + len frame.
Proof.
  unfold WriteFrame. pose proof (len_nonneg frame).
  destruct (negb (len frame =? frameSize B)); cbn [frameSize buf].
  - split; [reflexivity | lia].
  - rewrite len_app. split; [reflexivity | lia].
Qed.

Lemma ticks_nonneg evs : 0 <= ticks evs.
Proof. induction evs as [|[f|r] evs IH]; cbn [ticks]; lia. Qed.

Lemma produced_nonneg evs : 0 <= produced evs.
Proof.
  induction evs as [|[f|r] evs IH]; cbn [produced];
    [lia | pose proof (len_nonneg f) | pose proof (len_nonneg (concat (raced r)))];
    lia.
Qed.

Lemma raced_frames_nonneg evs : 0 <= raced_frames evs.
Proof.
  induction evs as [|[f|r] evs IH]; cbn [raced_frames];
    try pose proof (len_nonneg (raced r)); lia.
Qed.

(** C1 (as amended).  Along every schedule of producer writes and consumer
    ticks, the writes landing between two ticks or between the buffer calls
    of one, the loop runs without a panic and every [adjust] handed to the
    playout-buffer read is -1, 0 or +1.  The accumulator is not clamped.  A
    tick on which the hard cap does not fire raises its magnitude by at
    most [max 100 (driftTarget / 2)]; a tick on which the hard cap fires
    starts it again from 0 and leaves it between 0 and half of what the
    backlog measured after the drop has over the target, an excess of at
    most the number of frames written between the two measurements.  After
    [n] ticks its magnitude is therefore at most what it started with plus
    [n * max 100 (driftTarget / 2)] plus half the number of frames written
    while a tick was under way.  (Sizes are those a 64-bit process can
    hold.) *)
Theorem C1_adjust_unit_accumulator_stepwise (evs : list event) :
  forall (b : MediaBridge) (frameBuf : list byte),
  1 <= frameSize (sipToTGBuffer b) ->
  1 <= driftTarget b < 2 ^ 31 ->
  len (buf (sipToTGBuffer b)) + produced evs < 2 ^ 62 ->
  Z.abs (driftAcc b) + ticks evs * acc_step (driftTarget b)
    + raced_frames evs < 2 ^ 62 ->
  exists b' frameBuf' ts,
    run b frameBuf evs = Ok (b', frameBuf', ts) /\
    len ts = ticks evs /\
    stepwise (driftTarget b) (acc_step (driftTarget b)) (driftAcc b)
      (races evs) ts /\
    2 * Z.abs (driftAcc b')
      <= 2 * (Z.abs (driftAcc b) + ticks evs * acc_step (driftTarget b))
         + raced_frames evs.
Proof.
  induction evs as [|[frame|r] evs IH]; intros b frameBuf Hfs Ht Hb Hacc.
  - cbn [run ticks raced_frames races]. do 3 eexists.
    split; [reflexivity|]. split; [reflexivity|]. split; [exact I|]. lia.
  - cbn [run]. cbn [produced ticks raced_frames] in *.
    destruct (WriteFrame_facts (sipToTGBuffer b) frame) as [Hf Hl].
    pose proof (produced_nonneg evs).
    match goal with
    | |- context [run ?b1 _ _] =>
        destruct (IH b1 frameBuf) as (b' & fb' & ts & Hrun & Hlen & Hs & Ha)
    end; cbn [sipToTGBuffer driftTarget driftAcc]; try lia; try assumption.
    rewrite Hrun. exists b', fb', ts. cbn [races].
    repeat split; assumption.
  - cbn [run]. cbn [produced ticks raced_frames] in *.
    pose proof (ticks_nonneg evs) as Hn. pose proof (produced_nonneg evs).
    pose proof (raced_frames_nonneg evs) as Hrf.
    pose proof (len_nonneg (raced r)) as Hrr.
    assert (Hstep : 0 <= acc_step (driftTarget b)) by (unfold acc_step; lia).
    destruct (@writeTG_tick_acc b frameBuf r)
      as (b1 & t & Htick & Hf1 & Ht1 & Hl1 & Hadj & Hta & Hnocap & Hcap);
      try assumption; try nia.
    rewrite Htick. cbn [bind].
    assert (Hgrow : 2 * Z.abs (driftAcc b1)
                    <= 2 * (Z.abs (driftAcc b) + acc_step (driftTarget b))
                       + len (raced r)).
    { destruct (tick_hardcap t).
      - destruct (Hcap eq_refl) as (_ & Hr & Hk & Hk'). rewrite Hta in Hr.
        lia.
      - destruct (Hnocap eq_refl) as (_ & Hg). lia. }
    destruct (IH b1 (tick_frame t))
      as (b' & fb' & ts & Hrun & Hlen & Hs & Ha);
      try rewrite Hf1; try rewrite Ht1; try assumption; try nia.
    rewrite Hrun. cbn [bind]. exists b', fb', (t :: ts).
    split; [reflexivity|]. split; [rewrite len_cons; lia|].
    split; [|rewrite Ht1 in Ha; nia].
    cbn [races stepwise]. rewrite Hta. rewrite Ht1 in Hs.
    split; [exact Hadj|]. split.
    { intros Hc. destruct (Hnocap Hc) as (Hin & Hg). split; assumption. }
    split; [|exact Hs].
    intros Hc. destruct (Hcap Hc) as (Hin & Hr & Hk & _). rewrite <- Hta.
    repeat split; try assumption; lia.
Qed.

Lemma C1_adjust_unit_accumulator_stepwise_witness :
  let b := NewMediaBridge 4 10 2 in
  let late := {| w_measure := [frame4]; w_drop := [];
                 w_remeasure := [frame4; eight_bytes] |} in
  let evs := [Produce frame4; Tick no_race; Produce frame4; Tick late] in
  1 <= frameSize (sipToTGBuffer b) /\
  1 <= driftTarget b < 2 ^ 31 /\
  len (buf (sipToTGBuffer b)) + produced evs < 2 ^ 62 /\
  Z.abs (driftAcc b) + ticks evs * acc_step (driftTarget b)
    + raced_frames evs < 2 ^ 62 /\
  exists b' frameBuf' ts,
    run b frame4 evs = Ok (b', frameBuf', ts) /\
    len ts = ticks evs /\
    stepwise (driftTarget b) (acc_step (driftTarget b)) (driftAcc b)
      (races evs) ts /\
    2 * Z.abs (driftAcc b')
      <= 2 * (Z.abs (driftAcc b) + ticks evs * acc_step (driftTarget b))
         + raced_frames evs.
Proof.
  intros b late evs.
  assert (H1 : 1 <= frameSize (sipToTGBuffer b)) by (vm_compute; congruence).
  assert (H2 : 1 <= driftTarget b < 2 ^ 31) by (vm_compute; split; congruence).
  assert (H3 : len (buf (sipToTGBuffer b)) + produced evs < 2 ^ 62)
    by reflexivity.
  assert (H4 : Z.abs (driftAcc b) + ticks evs * acc_step (driftTarget b)
               + raced_frames evs < 2 ^ 62) by reflexivity.
  split; [exact H1|]. split; [exact H2|]. split; [exact H3|].
  split; [exact H4|].
  exact (C1_adjust_unit_accumulator_stepwise evs b frame4 H1 H2 H3 H4).
Defined.

(** C1 as the specification states it fails: the accumulator is not kept
    within [driftTarget + 200].  With a target of 10 frames and a backlog of
    210 frames (at the cap, not above it), three ticks with no write in
    between take it to 99, 197 and 294. *)
Lemma C1_counterexample :
  let b := NewMediaBridge 4 10 2 in
  let evs := repeat (Produce frame4) 210
             ++ [Tick no_race; Tick no_race; Tick no_race] in
  exists b' frameBuf' ts,
    run b frame4 evs = Ok (b', frameBuf', ts) /\
    map tick_hardcap ts = [false; false; false] /\
    map tick_adjust ts = [1; 1; 1] /\
    map tick_acc ts = [99; 197; 294] /\
    driftAcc b' = 294 /\
    ~ (- (driftTarget b' + 200) <= driftAcc b' <= driftTarget b' + 200).
Proof.
  cbv zeta. do 3 eexists. split; [vm_compute; reflexivity|].
  cbn [map tick_hardcap tick_adjust tick_acc driftAcc driftTarget].
  repeat split. lia.
Qed.

(** ** The silence filler: the claim *)




(** ** The injector clock: the claim *)

(** C6.  For any sequence of calls of [SendPCMFrame10ms] on a fresh
    endpoint, whatever the clocks read (the monotonic clock not running
    backwards), the capture timestamps handed on are strictly increasing;
    two consecutive ones differ by a positive whole multiple of the step,
    and by exactly one step unless the elapsed monotonic time moved on by at
    least a step between the two calls.  (The wall clock reads a time a
    64-bit millisecond counter holds with room to spare.) *)
Theorem C6_capture_timestamps_paced (s : TgEndpoint)
    (clock : list (Time * Time)) :
  micOnce s = false ->
  stepMs s < 2 ^ 31 ->
  len clock * step_of s < 2 ^ 61 ->
  steady_clock clock ->
  paced (step_of s) (snd (inject s clock)).
Proof.
  intros Hfresh Hstep Hlen Hclock.
  destruct clock as [|[t0 t1] rest]; [exact I|].
  destruct Hclock as (HW & Hmono).
  inversion Hmono as [|? ? Hm1 Hrest]; subst. cbn [snd] in Hm1.
  rewrite len_cons in Hlen. pose proof (len_nonneg rest) as Hnn.
  pose proof (step_of_pos s Hstep) as Hs.
  cbn [inject]. rewrite SendPCMFrame10ms_first by assumption.
  assert (Hso : step_of (anchor s t0) = step_of s) by reflexivity.
  assert (Hk1 : (0 + 1) * step_of (anchor s t0) < 2 ^ 61) by (rewrite Hso; nia).
  destruct (@SendPCMFrame10ms_anchored (anchor s t0) 0 (- step_of s) t0 t1
              Hstep ltac:(lia) Hk1 (anchor_anchored s t0 Hstep HW) Hm1)
    as (s' & ts & Hsend & Hlast & Hstart & Hst & _ & _ & _ & _ & Hanc').
  rewrite Hsend.
  pose proof (@inject_anchored rest s' (0 + 1)
                (Milliseconds (Sub t1 (micStart (anchor s t0))))) as Hrun.
  rewrite (step_of_stepMs _ _ Hst), Hso, Hst, Hstart, Hlast in Hrun.
  specialize (Hrun Hstep ltac:(lia) ltac:(nia) Hanc' Hrest).
  destruct (inject s' rest) as [s'' cs]. exact Hrun.
Qed.

Lemma C6_capture_timestamps_paced_witness :
  let s := NewTgEndpoint 960 48000 in
  let at_ms (w m : Z) := {| wall_ms := w; mono_ns := m * 1000000 |} in
  let clock := [(at_ms 1700000000000 5, at_ms 1700000000000 5);
                (at_ms 0 0, at_ms 1700000000003 8);
                (at_ms 0 0, at_ms 1700000000047 52)] in
  micOnce s = false /\ stepMs s < 2 ^ 31 /\
  len clock * step_of s < 2 ^ 61 /\ steady_clock clock /\
  paced (step_of s) (snd (inject s clock)).
Proof.
  intros s at_ms clock.
  assert (H1 : micOnce s = false) by reflexivity.
  assert (H2 : stepMs s < 2 ^ 31) by reflexivity.
  assert (H3 : len clock * step_of s < 2 ^ 61) by reflexivity.
  assert (H4 : steady_clock clock).
  { split; [vm_compute; split; congruence|].
    repeat constructor; vm_compute; congruence. }
  split; [exact H1|]. split; [exact H2|]. split; [exact H3|].
  split; [exact H4|].
  exact (C6_capture_timestamps_paced s clock H1 H2 H3 H4).
Defined.

(** ** Construction of the SIP endpoint: the claim *)

Section SipClaim.
Import String.
Import strings media sip_endpoint.
Local Open Scope string_scope.
Local Open Scope Z_scope.

(** C8 (as amended).  With a media session in hand, [NewSipEndpoint] returns
    an error and no endpoint when the common codecs are DTMF-only, when the
    codec picked is not PCMU, PCMA, G722 or Opus, and when its channel count
    is not 1 (not 1 or 2 for Opus).  For a supported codec with a valid
    channel count it returns an endpoint without error provided the
    media-sdk codec of that name is registered as an audio codec and
    enabled; if it is not, construction fails as well. *)
Theorem C8_sip_endpoint_construction (reg : Registry) (s : MediaSession)
    (cfg : SIPMediaConfig) :
  (CommonCodecs s <> [] -> Forall dtmf_only (CommonCodecs s) ->
   NewSipEndpoint reg (Some s) cfg = inr (ErrDTMFOnly (CommonCodecs s))) /\
  (forall c, pickAudio reg (Some s) = inl c -> ~ supported_name c ->
   NewSipEndpoint reg (Some s) cfg = inr (ErrUnsupportedCodec (Name c))) /\
  (forall c, pickAudio reg (Some s) = inl c -> supported_name c ->
   ~ valid_channels c ->
   NewSipEndpoint reg (Some s) cfg
     = inr (ErrUnsupportedChannels (NumChannels c))) /\
  (forall c lk, pickAudio reg (Some s) = inl c -> supported_name c ->
   valid_channels c -> available reg c lk ->
   exists ep, NewSipEndpoint reg (Some s) cfg = inl ep /\
              Codec_ ep = c /\ LK ep = lk) /\
  (forall c, pickAudio reg (Some s) = inl c -> supported_name c ->
   valid_channels c -> (forall lk, ~ available reg c lk) ->
   NewSipEndpoint reg (Some s) cfg
     = inr (ErrCodecNotAvailable (CanonicalSDPName c))).
Proof.
  assert (Hsup : forall c, supported_name c ->
            (String.eqb (ToLower (Name c)) "opus"
             || String.eqb (ToLower (Name c)) "pcmu"
             || String.eqb (ToLower (Name c)) "pcma"
             || String.eqb (ToLower (Name c)) "g722") = true).
  { intros c H. unfold supported_name in H. cbv zeta in H.
    destruct H as [-> | [-> | [-> | ->]]]; reflexivity. }
  assert (Hnsup : forall c, ~ supported_name c ->
            (String.eqb (ToLower (Name c)) "opus"
             || String.eqb (ToLower (Name c)) "pcmu"
             || String.eqb (ToLower (Name c)) "pcma"
             || String.eqb (ToLower (Name c)) "g722") = false).
  { intros c H. unfold supported_name in H. cbv zeta in H.
    destruct (String.eqb_spec (ToLower (Name c)) "opus"); [tauto|].
    destruct (String.eqb_spec (ToLower (Name c)) "pcmu"); [tauto|].
    destruct (String.eqb_spec (ToLower (Name c)) "pcma"); [tauto|].
    destruct (String.eqb_spec (ToLower (Name c)) "g722"); [tauto|].
    reflexivity. }
  assert (Hch : forall c,
            (if String.eqb (ToLower (Name c)) "opus"
             then negb (NumChannels c =? 1) && negb (NumChannels c =? 2)
             else negb (NumChannels c =? 1)) = true <-> ~ valid_channels c).
  { intros c. unfold valid_channels.
    destruct (String.eqb (ToLower (Name c)) "opus");
      destruct (Z.eqb_spec (NumChannels c) 1);
      try destruct (Z.eqb_spec (NumChannels c) 2); cbn; split;
      intros; try discriminate; try tauto; try lia. }
  assert (Hvalid : forall c, valid_channels c ->
            (if String.eqb (ToLower (Name c)) "opus"
             then negb (NumChannels c =? 1) && negb (NumChannels c =? 2)
             else negb (NumChannels c =? 1)) = false).
  { intros c Hv. destruct (if String.eqb (ToLower (Name c)) "opus"
                           then _ else _) eqn:E; [|reflexivity].
    apply Hch in E. contradiction. }
  assert (Hblank : forall c, supported_name c ->
            String.eqb (TrimSpace (CanonicalSDPName c)) "" = false).
  { intros c H. destruct (@supported_name_head c H) as (c0 & r & Hn & Hc0).
    destruct (@CanonicalSDPName_head c c0 r Hn Hc0) as (c1 & r1 & -> & Hc1).
    now apply TrimSpace_nonblank. }
  split; [|split; [|split; [|split]]].
  - intros Hne Hdtmf. unfold NewSipEndpoint, pickAudio.
    destruct (CommonCodecs s) as [|c0 cs] eqn:Ec; [contradiction|].
    rewrite len_cons. pose proof (len_nonneg cs).
    replace (1 + len cs >? 0) with true
      by (symmetry; rewrite Z.gtb_ltb; apply Z.ltb_lt; lia).
    now rewrite CodecAudioFromList_dtmf.
  - intros c Hpick Hns. unfold NewSipEndpoint. rewrite Hpick.
    now rewrite (Hnsup c Hns).
  - intros c Hpick Hs Hnv. unfold NewSipEndpoint. rewrite Hpick.
    rewrite (Hsup c Hs). cbn [negb].
    apply Hch in Hnv. now rewrite Hnv.
  - intros c lk Hpick Hs Hv (Hreg & Haud & Hen). unfold NewSipEndpoint.
    rewrite Hpick, (Hsup c Hs). cbn [negb]. rewrite (Hvalid c Hv).
    cbv zeta. rewrite (Hblank c Hs), Hreg, Haud, Hen. cbn [negb orb].
    eexists. split; [reflexivity|]. split; reflexivity.
  - intros c Hpick Hs Hv Hna. unfold NewSipEndpoint.
    rewrite Hpick, (Hsup c Hs). cbn [negb]. rewrite (Hvalid c Hv).
    cbv zeta. rewrite (Hblank c Hs).
    destruct (reg (CanonicalSDPName c)) as [lk|] eqn:Hreg; [|reflexivity].
    destruct (isAudioCodec lk) eqn:Haud; [|reflexivity].
    destruct (CodecEnabled lk) eqn:Hen; [|reflexivity].
    exfalso. apply (Hna lk). repeat split; assumption.
Qed.

Lemma C8_sip_endpoint_construction_witness :
  let s := {| CommonCodecs := [codec_pcmu; codec_dtmf];
              Codecs := [codec_opus; codec_pcmu; codec_dtmf] |} in
  pickAudio registry_without_opus (Some s) = inl codec_pcmu /\
  supported_name codec_pcmu /\ valid_channels codec_pcmu /\
  available registry_without_opus codec_pcmu
    (lk_codec "PCMU/8000" 8000 8000 (-20)) /\
  exists ep, NewSipEndpoint registry_without_opus (Some s) default_cfg = inl ep /\
             Codec_ ep = codec_pcmu /\
             LK ep = lk_codec "PCMU/8000" 8000 8000 (-20).
Proof.
  intros s.
  assert (H1 : pickAudio registry_without_opus (Some s) = inl codec_pcmu)
    by (vm_compute; reflexivity).
  assert (H2 : supported_name codec_pcmu) by (right; left; reflexivity).
  assert (H3 : valid_channels codec_pcmu) by reflexivity.
  assert (H4 : available registry_without_opus codec_pcmu
                 (lk_codec "PCMU/8000" 8000 8000 (-20)))
    by (repeat split; reflexivity).
  split; [exact H1|]. split; [exact H2|].
  split; [exact H3|]. split; [exact H4|].
  exact (proj1 (proj2 (proj2 (proj2
           (C8_sip_endpoint_construction registry_without_opus s
              default_cfg)))) codec_pcmu _ H1 H2 H3 H4).
Defined.

(** C8 as the specification states it fails: Opus in stereo is a supported
    codec with a valid channel count, yet in a build that does not register
    Opus the constructor returns an error. *)
Lemma C8_counterexample :
  let s := {| CommonCodecs := [codec_opus; codec_dtmf];
              Codecs := [codec_opus; codec_dtmf] |} in
  pickAudio registry_without_opus (Some s) = inl codec_opus /\
  supported_name codec_opus /\ valid_channels codec_opus /\
  NewSipEndpoint registry_without_opus (Some s) default_cfg
    = inr (ErrCodecNotAvailable "opus/48000/2") /\
  ~ (exists ep, NewSipEndpoint registry_without_opus (Some s) default_cfg
                = inl ep).
Proof.
  cbv zeta. split; [vm_compute; reflexivity|].
  split; [left; reflexivity|].
  split; [unfold valid_channels; cbn; right; reflexivity|].
  split; [vm_compute; reflexivity|].
  intros (ep & H). vm_compute in H. discriminate.
Qed.

End SipClaim.

(** * Further properties of the code *)

(** ** The playout buffer as a FIFO *)

Lemma consume_all (b : PCMPlayoutBuffer) :
  consume b 0 = b.
Proof. destruct b. reflexivity. Qed.


(** X1.  [ReadIntoAdjust] stays within its slices for every buffer, every
    [dst] and every [adjust] (values beyond -1 and +1 act as -1 and +1).
    [dst] keeps its length.  A call that returns not-ok takes nothing from
    the buffer; a call that returns ok takes exactly the frame size plus
    twice the effective adjust from its front. *)
Theorem X1_read_adjust_in_bounds (b : PCMPlayoutBuffer) (dst : list byte)
    (adj : Z) :
  0 <= frameSize b ->
  exists b' out ok,
    ReadIntoAdjust b dst adj = Ok (b', out, ok) /\
    len out = len dst /\
    (ok = false -> b' = b) /\
    (ok = true ->
     let n := frameSize b + 2 * effective_adjust (frameSize b) adj in
     len dst = frameSize b /\ 0 < n <= len (buf b) /\ b' = consume b n).
Proof.
  intros Hfs. rewrite ReadIntoAdjust_clamp. unfold effective_adjust.
  assert (Hadj : valid_adjust (clamp_adjust adj)).
  { unfold valid_adjust, clamp_adjust. rewrite Z.gtb_ltb.
    destruct (Z.ltb_spec 1 adj); [lia|]. destruct (Z.ltb_spec adj (-1)); lia. }
  generalize dependent (clamp_adjust adj). clear adj. intros adj Hadj.
  assert (Hz : len (zero_fill dst) = len dst)
    by (unfold len, zero_fill; now rewrite length_map).
  pose proof (len_nonneg (buf b)) as Hnn.
  destruct (Z.eq_dec (len dst) (frameSize b)) as [Hd | Hd].
  2:{ rewrite ReadIntoAdjust_wrong_len by assumption.
      exists b, dst, false. repeat split; try discriminate. }
  destruct (Z.eqb_spec (Z.rem (frameSize b) 2) 0) as [Hev | Hodd].
  2:{ rewrite ReadIntoAdjust_odd by assumption.
      destruct (Z.ltb_spec (len (buf b)) (frameSize b)).
      - exists b, (zero_fill dst), false.
        repeat split; try assumption; try discriminate.
      - do 3 eexists. split; [reflexivity|].
        split; [unfold len in *; rewrite length_firstn; lia|].
        split; [discriminate|]. intros _. cbv zeta.
        replace (frameSize b + 2 * 0) with (frameSize b) by lia.
        repeat split; try assumption; lia. }
  destruct (Z_lt_le_dec (len (buf b)) (frameSize b + 2 * adj)) as [Hs | Hs].
  { rewrite ReadIntoAdjust_underflow by auto.
    exists b, (zero_fill dst), false.
    repeat split; try assumption; try discriminate. }
  destruct (Z_le_gt_dec (frameSize b + 2 * adj) 0) as [H0 | H0].
  { rewrite ReadIntoAdjust_underflow by auto.
    exists b, (zero_fill dst), false.
    repeat split; try assumption; try discriminate. }
  destruct (@ReadIntoAdjust_even_ok b adj Hev Hadj ltac:(lia))
    as (out & Hlo & Hrun).
  rewrite Hrun by assumption. do 3 eexists. split; [reflexivity|].
  split; [lia|]. split; [discriminate|]. intros _. cbv zeta.
  repeat split; try assumption; lia.
Qed.

Lemma X1_read_adjust_in_bounds_witness :
  let b := {| frameSize := 4; buf := eight_bytes |} in
  let dst := ["009"; "009"; "009"; "009"]%byte in
  0 <= frameSize b /\
  exists b' out ok,
    ReadIntoAdjust b dst 7 = Ok (b', out, ok) /\
    len out = len dst /\
    (ok = false -> b' = b) /\
    (ok = true ->
     let n := frameSize b + 2 * effective_adjust (frameSize b) 7 in
     len dst = frameSize b /\ 0 < n <= len (buf b) /\ b' = consume b n).
Proof.
  intros b dst.
  assert (H1 : 0 <= frameSize b) by (vm_compute; congruence).
  split; [exact H1|].
  exact (X1_read_adjust_in_bounds b dst 7 H1).
Defined.

(** X2.  Writing frames to the buffer takes the frames of the right size,
    in order, and skips the others: afterwards the buffer holds what it
    held followed by the right-sized frames, and its frame count has grown
    by their number. *)
Theorem X2_write_frame_counts (b : PCMPlayoutBuffer)
    (frames : list (list byte)) :
  1 <= frameSize b ->
  let kept := filter (fun f => len f =? frameSize b) frames in
  let b' := fold_left WriteFrame frames b in
  frameSize b' = frameSize b /\
  buf b' = buf b ++ concat kept /\
  LenFrames b' = Ok (Z.quot (len (buf b)) (frameSize b) + len kept).
Proof.
  intros Hfs kept b'. pose proof (len_nonneg (buf b)) as Hnn.
  destruct (WriteFrame_filter frames b) as (H1 & H2).
  fold b' in H1, H2. fold kept in H2.
  split; [exact H1|]. split; [exact H2|].
  unfold LenFrames, div. rewrite H1, H2.
  destruct (Z.eqb_spec (frameSize b) 0); [lia|]. f_equal.
  assert (Hk : Forall (fun f => len f = frameSize b) kept).
  { subst kept. apply Forall_forall. intros f Hin.
    apply filter_In in Hin. destruct Hin as (_ & Hf). now apply Z.eqb_eq. }
  rewrite len_app, (concat_frames_len Hk).
  pose proof (len_nonneg kept).
  apply quot_add_frames; nia.
Qed.

Lemma X2_write_frame_counts_witness :
  let b := {| frameSize := 4; buf := eight_bytes |} in
  let frames := [frame4; eight_bytes; []; frame4] in
  1 <= frameSize b /\
  let kept := filter (fun f => len f =? frameSize b) frames in
  let b' := fold_left WriteFrame frames b in
  frameSize b' = frameSize b /\
  buf b' = buf b ++ concat kept /\
  LenFrames b' = Ok (Z.quot (len (buf b)) (frameSize b) + len kept).
Proof.
  intros b frames.
  assert (H1 : 1 <= frameSize b) by (vm_compute; congruence).
  split; [exact H1|].
  exact (X2_write_frame_counts b frames H1).
Defined.

(** X3.  [DropFrames n] never panics on a buffer with a positive frame
    size: it drops [n] whole frames from the front, or all the whole frames
    there are if fewer, or none if [n <= 0]; it returns that number, and a
    partial frame at the end of the buffer stays. *)
Theorem X3_drop_frames_bounded (b : PCMPlayoutBuffer) (n : Z) :
  1 <= frameSize b ->
  let available := Z.quot (len (buf b)) (frameSize b) in
  let d := Z.max 0 (Z.min n available) in
  exists b',
    DropFrames b n = Ok (b', d) /\
    frameSize b' = frameSize b /\
    buf b' = skipn (Z.to_nat (d * frameSize b)) (buf b) /\
    LenFrames b' = Ok (available - d).
Proof.
  intros Hfs available d. pose proof (len_nonneg (buf b)) as Hnn.
  assert (Hav : 0 <= available /\ available * frameSize b <= len (buf b))
    by (subst available; split; [apply Z.quot_pos; lia | nia]).
  assert (Hkeep : exists b', Ok (b, 0) = Ok (b', 0) /\
            frameSize b' = frameSize b /\
            buf b' = skipn (Z.to_nat (0 * frameSize b)) (buf b) /\
            LenFrames b' = Ok (available - 0)).
  { exists b. repeat split. unfold LenFrames, div.
    destruct (Z.eqb_spec (frameSize b) 0); [lia|].
    now rewrite Z.sub_0_r. }
  unfold DropFrames, div.
  destruct (Z.leb_spec n 0) as [Hn | Hn].
  { replace d with 0 by (subst d; lia). exact Hkeep. }
  destruct (Z.eqb_spec (frameSize b) 0); [lia|]. cbn [bind].
  fold available.
  destruct (Z.leb_spec available 0) as [Ha | Ha].
  { replace d with 0 by (subst d; lia). exact Hkeep. }
  rewrite Z.gtb_ltb.
  assert (Hd : (if available <? n then available else n) = d)
    by (subst d; destruct (Z.ltb_spec available n); lia).
  rewrite Hd.
  assert (Hdr : 0 < d <= available) by (subst d; lia).
  rewrite slice_from_skipn by nia. cbn [bind].
  eexists. split; [reflexivity|]. cbn [frameSize buf].
  split; [reflexivity|]. split; [reflexivity|].
  unfold LenFrames, div. cbn [frameSize buf].
  destruct (Z.eqb_spec (frameSize b) 0); [lia|]. f_equal.
  rewrite len_skipn by nia.
  replace (len (buf b) - d * frameSize b)
    with (len (buf b) + (- d) * frameSize b) by lia.
  rewrite quot_add_frames by nia. lia.
Qed.

Lemma X3_drop_frames_bounded_witness :
  let b := {| frameSize := 3; buf := eight_bytes |} in
  1 <= frameSize b /\
  let available := Z.quot (len (buf b)) (frameSize b) in
  let d := Z.max 0 (Z.min 5 available) in
  exists b',
    DropFrames b 5 = Ok (b', d) /\
    frameSize b' = frameSize b /\
    buf b' = skipn (Z.to_nat (d * frameSize b)) (buf b) /\
    LenFrames b' = Ok (available - d).
Proof.
  intros b.
  assert (H1 : 1 <= frameSize b) by (vm_compute; congruence).
  split; [exact H1|].
  exact (X3_drop_frames_bounded b 5 H1).
Defined.

Lemma WriteFrame_all (frames : list (list byte)) : forall b,
  Forall (fun f => len f = frameSize b) frames ->
  frameSize (fold_left WriteFrame frames b) = frameSize b /\
  buf (fold_left WriteFrame frames b) = buf b ++ concat frames.
Proof.
  induction frames as [|f frames IH]; intros b Hall.
  - simpl. now rewrite app_nil_r.
  - inversion Hall as [|? ? Hf Hrest]; subst. cbn [fold_left concat].
    assert (Hw : frameSize (WriteFrame b f) = frameSize b /\
                 buf (WriteFrame b f) = buf b ++ f).
    { unfold WriteFrame. destruct (Z.eqb_spec (len f) (frameSize b));
        [split; reflexivity | contradiction]. }
    destruct Hw as (Hwf & Hwb).
    destruct (IH (WriteFrame b f)) as (H1 & H2); [now rewrite Hwf|].
    rewrite H1, H2, Hwf, Hwb. split; [reflexivity | now rewrite app_assoc].
Qed.




(** ** The cut search and the two adjusting arms *)

Lemma wrap_signed_range w z :
  0 < w -> - 2 ^ (w - 1) <= wrap_signed w z < 2 ^ (w - 1).
Proof.
  intros Hw. unfold wrap_signed.
  assert (Hp : 2 ^ w = 2 * 2 ^ (w - 1)).
  { replace w with (1 + (w - 1)) at 1 by lia. rewrite Z.pow_add_r by lia.
    reflexivity. }
  assert (Hpos : 0 < 2 ^ (w - 1)) by (apply Z.pow_pos_nonneg; lia).
  pose proof (Z.mod_pos_bound (z + 2 ^ (w - 1)) (2 ^ w) ltac:(lia)). lia.
Qed.

Lemma readS16_range p off v :
  readS16 p off = Ok v -> -32768 <= v < 32768.
Proof.
  unfold readS16. destruct (index p off); [|discriminate].
  destruct (index p (off + 1)); [|discriminate]. cbn [bind].
  intros H. injection H as <-.
  apply (@wrap_signed_range 16). lia.
Qed.

Lemma cutScore_range p off s : cutScore p off = Ok s -> s <= 2 ^ 31 - 1.
Proof.
  unfold cutScore.
  destruct (readS16 p (off - 2)); [|discriminate].
  destruct (readS16 p off); [|discriminate].
  destruct (readS16 p (off + 2)); [|discriminate]. cbn [bind].
  intros H. injection H as <-.
  pose proof (@wrap_signed_range 32
                (int32 (int32 (int32 (abs16 a0 + abs16 a) + abs16 a1)
                        + int32 (abs16 (int16 (a0 - a))
                                 + abs16 (int16 (a1 - a0))))
                 + (if (Z.lxor a a0 <? 0) || (Z.lxor a0 a1 <? 0)
                    then -2000 else 0)) ltac:(lia)) as H.
  unfold int32 at 1. change (32 - 1) with 31 in H. lia.
Qed.

(** The scan keeps the first offset of least score. *)
Lemma findBestCut_scan_min trips : forall p off bestOff bestScore,
  2 <= off -> off + 2 * Z.of_nat trips + 1 < len p \/ trips = O ->
  exists r, findBestCut_scan trips p off bestOff bestScore = Ok r /\
    ((r = bestOff /\
      forall k, 0 <= k < Z.of_nat trips ->
        exists s', cutScore p (off + 2 * k) = Ok s' /\ bestScore <= s') \/
     (exists j s, 0 <= j < Z.of_nat trips /\ r = off + 2 * j /\
        cutScore p r = Ok s /\ s < bestScore /\
        (forall k, 0 <= k < j ->
           exists s', cutScore p (off + 2 * k) = Ok s' /\ s < s') /\
        (forall k, j <= k < Z.of_nat trips ->
           exists s', cutScore p (off + 2 * k) = Ok s' /\ s <= s'))).
Proof.
  induction trips as [|n IH]; intros p off bestOff bestScore Hoff Hlen.
  - simpl. eexists. split; [reflexivity|]. left. split; [reflexivity|].
    intros k Hk. lia.
  - destruct Hlen as [Hlen | Hlen]; [|discriminate].
    cbn [findBestCut_scan].
    destruct (@cutScore_ok p off) as [s0 Hs0]; [lia | lia |].
    rewrite Hs0. cbn [bind].
    assert (Hn : off + 2 + 2 * Z.of_nat n + 1 < len p \/ n = O)
      by (left; lia).
    assert (Hshift : forall k, off + 2 + 2 * (k - 1) = off + 2 * k)
      by (intros; lia).
    destruct (Z.ltb_spec s0 bestScore) as [Hlt | Hge].
    + destruct (IH p (off + 2) off s0 ltac:(lia) Hn) as (r & -> & Hr).
      exists r. split; [reflexivity|]. right.
      destruct Hr as [(-> & Hall) | (j & s & Hj & -> & Hs & Hsl & Hbefore & Hafter)].
      * exists 0, s0. replace (off + 2 * 0) with off by lia.
        repeat split; try lia; try assumption.
        intros k Hk. destruct (Z.eq_dec k 0) as [-> | Hk0].
        -- replace (off + 2 * 0) with off by lia. exists s0. split; [assumption | lia].
        -- destruct (Hall (k - 1) ltac:(lia)) as (s' & Hs' & Hle).
           rewrite Hshift in Hs'. eauto.
      * exists (j + 1), s. replace (off + 2 * (j + 1)) with (off + 2 + 2 * j) by lia.
        repeat split; try lia; try assumption.
        -- intros k Hk. destruct (Z.eq_dec k 0) as [-> | Hk0].
           ++ replace (off + 2 * 0) with off by lia. exists s0. split; [assumption | lia].
           ++ destruct (Hbefore (k - 1) ltac:(lia)) as (s' & Hs' & Hle).
              rewrite Hshift in Hs'. eauto.
        -- intros k Hk. destruct (Hafter (k - 1) ltac:(lia)) as (s' & Hs' & Hle).
           rewrite Hshift in Hs'. eauto.
    + destruct (IH p (off + 2) bestOff bestScore ltac:(lia) Hn)
        as (r & -> & Hr).
      exists r. split; [reflexivity|].
      destruct Hr as [(-> & Hall) | (j & s & Hj & -> & Hs & Hsl & Hbefore & Hafter)].
      * left. split; [reflexivity|].
        intros k Hk. destruct (Z.eq_dec k 0) as [-> | Hk0].
        -- replace (off + 2 * 0) with off by lia. exists s0. split; [assumption | lia].
        -- destruct (Hall (k - 1) ltac:(lia)) as (s' & Hs' & Hle).
           rewrite Hshift in Hs'. eauto.
      * right. exists (j + 1), s.
        replace (off + 2 * (j + 1)) with (off + 2 + 2 * j) by lia.
        repeat split; try lia; try assumption.
        -- intros k Hk. destruct (Z.eq_dec k 0) as [-> | Hk0].
           ++ replace (off + 2 * 0) with off by lia. exists s0. split; [assumption | lia].
           ++ destruct (Hbefore (k - 1) ltac:(lia)) as (s' & Hs' & Hle).
              rewrite Hshift in Hs'. eauto.
        -- intros k Hk. destruct (Hafter (k - 1) ltac:(lia)) as (s' & Hs' & Hle).
           rewrite Hshift in Hs'. eauto.
Qed.

Lemma findBestCut_least (p : list byte) (minOff maxOff : Z) :
  let lo := cut_lo minOff in
  let hi := cut_hi p maxOff in
  (hi < lo -> findBestCut p minOff maxOff = Ok (Z.quot (len p) 2 * 2)) /\
  (lo <= hi ->
   exists r s,
     findBestCut p minOff maxOff = Ok r /\
     lo <= r <= hi /\ Z.rem r 2 = 0 /\
     cutScore p r = Ok s /\
     forall off, lo <= off <= hi -> Z.rem off 2 = 0 ->
       exists s', cutScore p off = Ok s' /\ s <= s' /\ (s' = s -> r <= off)).
Proof.
  intros lo hi. unfold findBestCut.
  assert (Hlo : (if minOff <? 2 then 2 else minOff) = Z.max 2 minOff)
    by (destruct (Z.ltb_spec minOff 2); lia).
  assert (Hhi : (if maxOff >? len p - 4 then len p - 4 else maxOff)
                = Z.min maxOff (len p - 4))
    by (rewrite Z.gtb_ltb; destruct (Z.ltb_spec (len p - 4) maxOff); lia).
  cbv zeta. rewrite Hlo, Hhi. fold (cut_lo minOff). fold (cut_hi p maxOff).
  fold lo. fold hi.
  assert (Hlo2 : 2 <= lo /\ Z.rem lo 2 = 0) by (subst lo; unfold cut_lo; lia).
  assert (Hhi2 : Z.rem hi 2 = 0) by (subst hi; unfold cut_hi; lia).
  destruct (Z.ltb_spec hi lo) as [Hlt | Hge].
  - split; [reflexivity | lia].
  - split; [lia|]. intros _.
    assert (Hhi3 : hi <= len p - 4) by (unfold hi, cut_hi in *; lia).
    set (trips := Z.to_nat (Z.quot (hi - lo) 2 + 1)).
    assert (Htr : Z.of_nat trips = (hi - lo) / 2 + 1 /\ 2 * ((hi - lo) / 2) = hi - lo).
    { subst trips. rewrite Z.quot_div_nonneg by lia.
      pose proof (Z.div_pos (hi - lo) 2 ltac:(lia) ltac:(lia)).
      split; [lia|].
      pose proof (Z.div_mod (hi - lo) 2 ltac:(lia)).
      assert (Z.rem (hi - lo) 2 = 0) by lia.
      rewrite <- Z.rem_mod_nonneg in H0 by lia. lia. }
    destruct Htr as (Htr & Hhalf).
    destruct (@findBestCut_scan_min trips p lo lo (2 ^ 31 - 1))
      as (r & Hrun & Hr); [lia | left; lia |].
    assert (Hidx : forall off, lo <= off <= hi -> Z.rem off 2 = 0 ->
              exists k, 0 <= k < Z.of_nat trips /\ off = lo + 2 * k).
    { intros off Hoff Hev. exists ((off - lo) / 2).
      pose proof (Z.div_mod (off - lo) 2 ltac:(lia)).
      assert (Hr0 : Z.rem (off - lo) 2 = 0) by lia.
      rewrite Z.rem_mod_nonneg in Hr0 by lia.
      pose proof (Z.div_le_mono (off - lo) (hi - lo) 2 ltac:(lia) ltac:(lia)).
      pose proof (Z.div_pos (off - lo) 2 ltac:(lia) ltac:(lia)).
      lia. }
    destruct Hr as [(-> & Hall) | (j & s & Hj & -> & Hs & Hsl & Hbefore & Hafter)].
    + destruct (Hall 0 ltac:(lia)) as (s0 & Hs0 & Hle0).
      replace (lo + 2 * 0) with lo in Hs0 by lia.
      pose proof (cutScore_range _ _ Hs0) as Hmax.
      exists lo, s0. split; [exact Hrun|]. split; [lia|].
      split; [tauto|]. split; [exact Hs0|].
      intros off Hoff Hev. destruct (Hidx off Hoff Hev) as (k & Hk & ->).
      destruct (Hall k Hk) as (s' & Hs' & Hle).
      exists s'. split; [exact Hs'|]. split; lia.
    + exists (lo + 2 * j), s. split; [exact Hrun|].
      split; [lia|]. split; [lia|]. split; [exact Hs|].
      intros off Hoff Hev. destruct (Hidx off Hoff Hev) as (k & Hk & ->).
      destruct (Z_lt_le_dec k j) as [Hkj | Hkj].
      * destruct (Hbefore k ltac:(lia)) as (s' & Hs' & Hle).
        exists s'. split; [exact Hs'|]. split; lia.
      * destruct (Hafter k ltac:(lia)) as (s' & Hs' & Hle).
        exists s'. split; [exact Hs'|]. split; lia.
Qed.

(** X5.  [findBestCut] never reads outside [p].  When its window is empty
    it returns the length of [p] rounded down to a sample boundary;
    otherwise it returns an even offset of the window whose score is the
    least among the even offsets of the window, the first such. *)
Theorem X5_find_best_cut_least_score (p : list byte) (minOff maxOff : Z) :
  let lo := cut_lo minOff in
  let hi := cut_hi p maxOff in
  (hi < lo -> findBestCut p minOff maxOff = Ok (Z.quot (len p) 2 * 2)) /\
  (lo <= hi ->
   exists r s,
     findBestCut p minOff maxOff = Ok r /\
     lo <= r <= hi /\ Z.rem r 2 = 0 /\
     cutScore p r = Ok s /\
     forall off, lo <= off <= hi -> Z.rem off 2 = 0 ->
       exists s', cutScore p off = Ok s' /\ s <= s' /\ (s' = s -> r <= off)).
Proof. apply findBestCut_least. Qed.

(** [ReadIntoAdjust] on an even frame size with enough bytes, as the switch
    over its three arms. *)
Lemma ReadIntoAdjust_arms (b : PCMPlayoutBuffer) (adj : Z) (dst : list byte) :
  Z.rem (frameSize b) 2 = 0 -> valid_adjust adj ->
  0 < frameSize b + 2 * adj <= len (buf b) -> len dst = frameSize b ->
  let inp := firstn (Z.to_nat (frameSize b + 2 * adj)) (buf b) in
  ReadIntoAdjust b dst adj =
    (let b' := consume b (frameSize b + 2 * adj) in
     if adj =? 0 then
       head <- slice_to inp (frameSize b) ;; Ok (b', copy dst head, true)
     else if adj =? 1 then
       dst <- dropSample (frameSize b) inp dst ;; Ok (b', dst, true)
     else
       dst <- dupSample (frameSize b) inp dst ;; Ok (b', dst, true)).
Proof.
  intros Hev Hadj Hin Hd inp.
  destruct (@split_at _ (buf b) (frameSize b + 2 * adj))
    as (inp' & rest & Hb & Hli & Hinp & Hrest); [lia|].
  subst inp. rewrite <- Hinp.
  unfold ReadIntoAdjust, consume. cbv zeta.
  assert (Hc : (if adj >? 1 then 1 else if adj <? -1 then -1 else adj) = adj)
    by (destruct Hadj as [-> | [-> | ->]]; reflexivity).
  rewrite Hc.
  assert (Hi : (if frameSize b + adj * 2 <? 0 then 0 else frameSize b + adj * 2)
               = frameSize b + 2 * adj)
    by (destruct (Z.ltb_spec (frameSize b + adj * 2) 0); lia).
  rewrite Hi. branch. branch. branch.
  rewrite <- Hrest. rewrite Hb.
  rewrite (@slice_to_exact _ inp' rest), (@slice_from_exact _ inp' rest)
    by congruence.
  cbn [bind].
  destruct Hadj as [-> | [-> | ->]]; reflexivity.
Qed.

(** The drop arm, with the offset named. *)
Lemma dropSample_cut fs inp r :
  Z.rem fs 2 = 0 -> 0 <= fs -> len inp = fs + 2 ->
  findBestCut inp (Z.quot fs 2 - 80) (Z.quot fs 2 + 80) = Ok r ->
  0 <= r <= fs ->
  forall dst, len dst = fs ->
    dropSample fs inp dst
      = Ok (firstn (Z.to_nat r) inp ++ skipn (Z.to_nat (r + 2)) inp).
Proof.
  intros Hev Hfs Hin Hcut Hr dst Hdst.
  destruct (@dropSample_spec fs Hev inp Hfs Hin) as (d & Hd & _ & Hrun).
  rewrite (Hrun dst Hdst).
  (* the offset of [dropSample_spec] is the clamped result of the search *)
  specialize (Hrun dst Hdst). unfold dropSample in Hrun. cbv zeta in Hrun.
  rewrite Hcut in Hrun. cbn [bind] in Hrun.
  destruct (Z.ltb_spec r 0); [lia|]. rewrite Z.gtb_ltb in Hrun.
  destruct (Z.ltb_spec fs r); [lia|].
  pose proof (len_nonneg inp) as Hnn.
  destruct (@split_at _ inp r) as (before & tail & Hi & Hlb & Hbefore & Htail);
    [lia|].
  assert (Hlt : len tail = fs + 2 - r) by (rewrite Hi, len_app in Hin; lia).
  destruct (@split_at _ tail 2) as (xy & after & Ht & Hlxy & _ & Hafter);
    [lia|].
  assert (Hla : len after = fs - r) by (rewrite Ht, len_app in Hlt; lia).
  assert (Hout : firstn (Z.to_nat r) inp ++ skipn (Z.to_nat (r + 2)) inp
                 = before ++ after).
  { rewrite Hafter, Htail, skipn_skipn, <- Hbefore. do 2 f_equal. lia. }
  rewrite Hout. rewrite <- Hrun. clear Hrun.
  clear Hout Hbefore Htail Hafter Hcut. subst inp tail.
  destruct (@split_at _ dst r) as (dpre & dpost & Hds & Hldp & _ & _); [lia|].
  assert (Hldq : len dpost = fs - r) by (rewrite Hds, len_app in Hdst; lia).
  rewrite (@slice_to_exact _ before (xy ++ after) r) by congruence.
  cbn [bind].
  rewrite (@copy_into_exact _ dst [] dpre dpost 0 r before);
    [| exact Hds | reflexivity | lia | lia].
  cbn [bind app].
  rewrite (app_assoc before xy after).
  rewrite (@slice_from_exact _ (before ++ xy) after (r + 2))
    by (rewrite len_app; lia).
  cbn [bind].
  rewrite (@copy_into_exact _ (before ++ dpost) before dpost [] r
             (len (before ++ dpost)) after);
    [| now rewrite app_nil_r | congruence | rewrite len_app; lia | lia].
  cbn [bind]. now rewrite app_nil_r.
Qed.

(** X6.  With [adjust = +1] on an even frame size of at least 4 bytes, the
    frame produced is the first [frameSize + 2] bytes of the buffer with
    exactly one sample (two bytes) left out; every other byte is kept, in
    order.  The sample left out sits at an even offset [d] that is neither
    the first nor the last sample and lies within [mid - 81, mid + 80] of
    the frame midpoint. *)
Theorem X6_adjust_plus_drops_one_sample (b : PCMPlayoutBuffer) :
  Z.rem (frameSize b) 2 = 0 -> 4 <= frameSize b ->
  frameSize b + 2 <= len (buf b) ->
  let inp := firstn (Z.to_nat (frameSize b + 2)) (buf b) in
  let mid := Z.quot (frameSize b) 2 in
  exists d,
    2 <= d <= frameSize b - 2 /\ Z.rem d 2 = 0 /\
    mid - 81 <= d <= mid + 80 /\
    forall dst, len dst = frameSize b ->
      ReadIntoAdjust b dst 1
        = Ok (consume b (frameSize b + 2),
              firstn (Z.to_nat d) inp ++ skipn (Z.to_nat (d + 2)) inp, true).
Proof.
  intros Hev Hfs Hb inp mid.
  assert (Hli : len inp = frameSize b + 2)
    by (subst inp; apply len_firstn; lia).
  destruct (@findBestCut_least inp (mid - 80) (mid + 80)) as (_ & Hwin).
  unfold cut_lo, cut_hi in Hwin. rewrite Hli in Hwin.
  destruct Hwin as (r & s & Hcut & Hr & Hrev & _); [subst mid; lia|].
  exists r. split; [subst mid; lia|]. split; [exact Hrev|].
  split; [subst mid; lia|]. intros dst Hdst.
  assert (Hadj : valid_adjust 1) by (right; right; reflexivity).
  pose proof (@ReadIntoAdjust_arms b 1 dst Hev Hadj ltac:(lia) Hdst) as Harm.
  cbv zeta in Harm. change (1 =? 0) with false in Harm.
  change (1 =? 1) with true in Harm. cbv iota in Harm.
  replace (frameSize b + 2 * 1) with (frameSize b + 2) in Harm by lia.
  fold inp in Harm. rewrite Harm.
  rewrite (@dropSample_cut (frameSize b) inp r Hev ltac:(lia) Hli Hcut
             ltac:(subst mid; lia) dst Hdst).
  reflexivity.
Qed.

Lemma X6_adjust_plus_drops_one_sample_witness :
  let b := {| frameSize := 4; buf := eight_bytes |} in
  Z.rem (frameSize b) 2 = 0 /\ 4 <= frameSize b /\
  frameSize b + 2 <= len (buf b) /\
  let inp := firstn (Z.to_nat (frameSize b + 2)) (buf b) in
  let mid := Z.quot (frameSize b) 2 in
  exists d,
    2 <= d <= frameSize b - 2 /\ Z.rem d 2 = 0 /\
    mid - 81 <= d <= mid + 80 /\
    forall dst, len dst = frameSize b ->
      ReadIntoAdjust b dst 1
        = Ok (consume b (frameSize b + 2),
              firstn (Z.to_nat d) inp ++ skipn (Z.to_nat (d + 2)) inp, true).
Proof.
  intros b.
  assert (H1 : Z.rem (frameSize b) 2 = 0) by reflexivity.
  assert (H2 : 4 <= frameSize b) by (vm_compute; congruence).
  assert (H3 : frameSize b + 2 <= len (buf b)) by (vm_compute; congruence).
  split; [exact H1|]. split; [exact H2|]. split; [exact H3|].
  exact (X6_adjust_plus_drops_one_sample b H1 H2 H3).
Defined.

(** The insert arm, with the offset and the two neighbours named. *)
Lemma dupSample_mean fs inp r :
  Z.rem fs 2 = 0 -> 8 <= fs -> len inp = fs - 2 ->
  findBestCut inp (Z.quot fs 2 - 80) (Z.quot fs 2 + 80) = Ok r ->
  2 <= r <= fs - 6 -> Z.rem r 2 = 0 ->
  exists l rv,
    readS16 inp (r - 2) = Ok l /\ readS16 inp r = Ok rv /\
    forall dst, len dst = fs ->
      dupSample fs inp dst
        = Ok (firstn (Z.to_nat r) inp ++ le16 (Z.quot (l + rv) 2)
              ++ skipn (Z.to_nat r) inp).
Proof.
  intros Hev Hfs Hin Hcut Hr Hrev.
  destruct (@readS16_ok inp (r - 2)) as [l Hl]; [lia | lia |].
  destruct (@readS16_ok inp r) as [rv Hrv]; [lia | lia |].
  exists l, rv. split; [exact Hl|]. split; [exact Hrv|]. intros dst Hdst.
  pose proof (readS16_range _ _ Hl) as Hlr.
  pose proof (readS16_range _ _ Hrv) as Hrr.
  unfold dupSample. cbv zeta. rewrite Hcut. cbn [bind].
  replace (Z.quot r 2 * 2) with r by lia.
  destruct (Z.ltb_spec r 2); [lia|]. rewrite !Z.gtb_ltb.
  destruct (Z.ltb_spec (fs - 2) r); [lia|].
  destruct (Z.ltb_spec (len inp - 2) r); [lia|].
  rewrite Hl, Hrv. cbn [bind].
  assert (Hins : int16 (Z.quot (int32 (int32 l + int32 rv)) 2)
                 = Z.quot (l + rv) 2).
  { unfold int32, int16, wrap_signed. change (2 ^ (32 - 1)) with 2147483648.
    change (2 ^ 32) with 4294967296. change (2 ^ (16 - 1)) with 32768.
    change (2 ^ 16) with 65536.
    rewrite (Z.mod_small (l + 2147483648)) by lia.
    rewrite (Z.mod_small (rv + 2147483648)) by lia.
    replace (l + 2147483648 - 2147483648 + (rv + 2147483648 - 2147483648))
      with (l + rv) by lia.
    rewrite (Z.mod_small (l + rv + 2147483648)) by lia.
    replace (l + rv + 2147483648 - 2147483648) with (l + rv) by lia.
    rewrite Z.mod_small by lia. lia. }
  rewrite Hins. set (ins := Z.quot (l + rv) 2). unfold le16.
  destruct (@split_at _ inp r) as (before & after & Hi & Hlb & Hbefore & Hafter);
    [lia|].
  assert (Hla : len after = fs - 2 - r) by (rewrite Hi, len_app in Hin; lia).
  rewrite <- Hbefore, <- Hafter. clear Hbefore Hafter Hcut Hl Hrv. subst inp.
  destruct (@split_at _ dst r) as (dpre & dtail & Hds & Hldp & _ & _); [lia|].
  assert (Hldt : len dtail = fs - r) by (rewrite Hds, len_app in Hdst; lia).
  destruct (@nonempty_cons _ dtail) as (x & dtail' & ->); [lia|].
  rewrite len_cons in Hldt.
  destruct (@nonempty_cons _ dtail') as (y & dpost & ->); [lia|].
  rewrite len_cons in Hldt.
  rewrite (@slice_to_exact _ before after r) by congruence.
  cbn [bind].
  rewrite (@copy_into_exact _ dst [] dpre (x :: y :: dpost) 0 r before);
    [| exact Hds | reflexivity | lia | lia].
  cbn [bind app].
  rewrite (@store_exact _ _ before x _ (y :: dpost) r) by (auto; congruence).
  cbn [bind].
  rewrite (@store_exact _ _ (before ++ [to_byte (uint16 ins)]) y _ dpost
             (r + 1));
    [| now rewrite <- app_assoc | rewrite len_app; unfold len at 2; simpl; lia].
  cbn [bind].
  rewrite (@slice_from_exact _ before after r) by congruence.
  cbn [bind].
  match goal with
  | |- context [copy_into ?D _ _ _] =>
      rewrite (@copy_into_exact _ D (before ++ [to_byte (uint16 ins);
                 to_byte (Z.shiftr (uint16 ins) 8)]) dpost [] (r + 2) (len D)
                 after)
  end.
  - cbn [bind]. rewrite app_nil_r, <- app_assoc. reflexivity.
  - rewrite app_nil_r, <- !app_assoc. reflexivity.
  - rewrite len_app. unfold len at 2. simpl. lia.
  - unfold len in *. rewrite !length_app. simpl length. lia.
  - lia.
Qed.

(** X7.  With [adjust = -1] on an even frame size of at least 8 bytes, the
    frame produced is the first [frameSize - 2] bytes of the buffer with
    exactly one sample inserted; every byte read is kept, in order.  The
    sample goes in at an even offset [d] within [mid - 81, mid + 80] of the
    frame midpoint, and its value is the mean (rounded towards zero) of the
    samples on either side of the insertion point. *)
Theorem X7_adjust_minus_inserts_mean (b : PCMPlayoutBuffer) :
  Z.rem (frameSize b) 2 = 0 -> 8 <= frameSize b ->
  frameSize b - 2 <= len (buf b) ->
  let inp := firstn (Z.to_nat (frameSize b - 2)) (buf b) in
  let mid := Z.quot (frameSize b) 2 in
  exists d l rv,
    2 <= d <= frameSize b - 6 /\ Z.rem d 2 = 0 /\
    mid - 81 <= d <= mid + 80 /\
    readS16 inp (d - 2) = Ok l /\ readS16 inp d = Ok rv /\
    forall dst, len dst = frameSize b ->
      ReadIntoAdjust b dst (-1)
        = Ok (consume b (frameSize b - 2),
              firstn (Z.to_nat d) inp ++ le16 (Z.quot (l + rv) 2)
              ++ skipn (Z.to_nat d) inp, true).
Proof.
  intros Hev Hfs Hb inp mid.
  assert (Hli : len inp = frameSize b - 2)
    by (subst inp; apply len_firstn; lia).
  destruct (@findBestCut_least inp (mid - 80) (mid + 80)) as (_ & Hwin).
  unfold cut_lo, cut_hi in Hwin. rewrite Hli in Hwin.
  destruct Hwin as (r & s & Hcut & Hr & Hrev & _); [subst mid; lia|].
  destruct (@dupSample_mean (frameSize b) inp r Hev Hfs Hli Hcut
              ltac:(subst mid; lia) Hrev) as (l & rv & Hl & Hrv & Hrun).
  exists r, l, rv. split; [subst mid; lia|]. split; [exact Hrev|].
  split; [subst mid; lia|]. split; [exact Hl|]. split; [exact Hrv|].
  intros dst Hdst.
  assert (Hadj : valid_adjust (-1)) by (left; reflexivity).
  pose proof (@ReadIntoAdjust_arms b (-1) dst Hev Hadj ltac:(lia) Hdst) as Harm.
  cbv zeta in Harm. change (-1 =? 0) with false in Harm.
  change (-1 =? 1) with false in Harm. cbv iota in Harm.
  replace (frameSize b + 2 * -1) with (frameSize b - 2) in Harm by lia.
  fold inp in Harm. rewrite Harm, (Hrun dst Hdst). reflexivity.
Qed.

Lemma X7_adjust_minus_inserts_mean_witness :
  let b := {| frameSize := 8; buf := eight_bytes |} in
  Z.rem (frameSize b) 2 = 0 /\ 8 <= frameSize b /\
  frameSize b - 2 <= len (buf b) /\
  let inp := firstn (Z.to_nat (frameSize b - 2)) (buf b) in
  let mid := Z.quot (frameSize b) 2 in
  exists d l rv,
    2 <= d <= frameSize b - 6 /\ Z.rem d 2 = 0 /\
    mid - 81 <= d <= mid + 80 /\
    readS16 inp (d - 2) = Ok l /\ readS16 inp d = Ok rv /\
    forall dst, len dst = frameSize b ->
      ReadIntoAdjust b dst (-1)
        = Ok (consume b (frameSize b - 2),
              firstn (Z.to_nat d) inp ++ le16 (Z.quot (l + rv) 2)
              ++ skipn (Z.to_nat d) inp, true).
Proof.
  intros b.
  assert (H1 : Z.rem (frameSize b) 2 = 0) by reflexivity.
  assert (H2 : 8 <= frameSize b) by (vm_compute; congruence).
  assert (H3 : frameSize b - 2 <= len (buf b)) by (vm_compute; congruence).
  split; [exact H1|]. split; [exact H2|]. split; [exact H3|].
  exact (X7_adjust_minus_inserts_mean b H1 H2 H3).
Defined.

(** ** Frame assembly *)

Section Assemble.

Context {A : Type} (z : A).

Lemma make_ok n : 0 <= n -> make z n = Ok (repeat z (Z.to_nat n)).
Proof. intros Hn. unfold make. destruct (Z.ltb_spec n 0); [lia | reflexivity]. Qed.

Lemma slice_to_firstn (p : list A) n :
  0 <= n <= len p -> slice_to p n = Ok (firstn (Z.to_nat n) p).
Proof.
  intros Hn. unfold slice_to, slice.
  destruct (Z.leb_spec 0 0); [|lia].
  destruct (Z.leb_spec 0 n); [|lia].
  destruct (Z.leb_spec n (len p)); [|lia]. cbn [andb].
  rewrite Z.sub_0_r. reflexivity.
Qed.

(** One turn of the loop takes the first [frameSize] elements off. *)
Lemma assemble_step fuel fs (buffer : list A) frames :
  0 <= fs <= len buffer ->
  assemble z (S fuel) fs buffer frames
  = assemble z fuel fs (skipn (Z.to_nat fs) buffer)
      (frames ++ [firstn (Z.to_nat fs) buffer]).
Proof.
  intros Hfs. cbn [assemble].
  destruct (Z.geb_spec (len buffer) fs) as [_|]; [|lia].
  rewrite make_ok, slice_to_firstn, slice_from_skipn by lia. cbn [bind].
  rewrite copy_same_len; [reflexivity|].
  rewrite len_firstn by lia. unfold len. rewrite repeat_length. lia.
Qed.

Lemma assemble_spec fuel : forall fs (buffer : list A) frames,
  1 <= fs -> (length buffer < fuel)%nat ->
  exists new rest,
    assemble z fuel fs buffer frames = Some (Ok (rest, frames ++ new)) /\
    concat new ++ rest = buffer /\
    Forall (fun f => len f = fs) new /\
    len rest < fs /\
    len new = Z.quot (len buffer) fs.
Proof.
  induction fuel as [|fuel IH]; intros fs buffer frames Hfs Hfuel; [lia|].
  destruct (Z.lt_ge_cases (len buffer) fs) as [Hlt | Hge].
  - exists [], buffer. cbn [assemble].
    destruct (Z.geb_spec (len buffer) fs); [lia|].
    rewrite app_nil_r. repeat split; auto.
    unfold len at 1. simpl. pose proof (len_nonneg buffer).
    symmetry. apply Z.quot_small. lia.
  - rewrite assemble_step by lia.
    pose proof (@len_skipn _ buffer fs ltac:(lia)) as Hsk.
    destruct (IH fs (skipn (Z.to_nat fs) buffer)
                (frames ++ [firstn (Z.to_nat fs) buffer]) Hfs)
      as (new & rest & Hrun & Hcat & Hall & Hrest & Hcount).
    { unfold len in *. lia. }
    exists (firstn (Z.to_nat fs) buffer :: new), rest.
    rewrite Hrun, <- app_assoc. cbn [app concat].
    split; [reflexivity|]. split.
    { rewrite <- app_assoc, Hcat. apply firstn_skipn. }
    split.
    { constructor; [apply len_firstn; lia | exact Hall]. }
    split; [exact Hrest|].
    rewrite len_cons, Hcount, Hsk.
    pose proof (len_nonneg buffer).
    assert (Hq : Z.quot (len buffer - fs + 1 * fs) fs
                 = Z.quot (len buffer - fs) fs + 1)
      by (apply Z.quot_add; nia).
    replace (len buffer - fs + 1 * fs) with (len buffer) in Hq by lia.
    lia.
Qed.

(** A frame size of zero keeps the loop turning for ever. *)
Lemma assemble_zero fuel : forall (buffer : list A) frames,
  assemble z fuel 0 buffer frames = None.
Proof.
  induction fuel as [|fuel IH]; intros buffer frames.
  - cbn [assemble]. pose proof (len_nonneg buffer).
    destruct (Z.geb_spec (len buffer) 0); [reflexivity | lia].
  - rewrite assemble_step by (pose proof (len_nonneg buffer); lia).
    apply IH.
Qed.

(** A negative one stops it in [make]. *)
Lemma assemble_negative fuel fs (buffer : list A) frames :
  fs < 0 -> assemble z (S fuel) fs buffer frames = Some Panic.
Proof.
  intros Hfs. cbn [assemble]. pose proof (len_nonneg buffer).
  destruct (Z.geb_spec (len buffer) fs); [|lia].
  unfold make. destruct (Z.ltb_spec fs 0); [reflexivity | lia].
Qed.

End Assemble.

Lemma FrameAssembler_Push_spec
    (fuel : nat) (a : FrameAssembler) (data : list byte) :
  1 <= fa_frameSize a ->
  (length (fa_buffer a) + length data < fuel)%nat ->
  exists a' frames,
    FrameAssembler_Push fuel a data = Some (Ok (a', frames)) /\
    fa_frameSize a' = fa_frameSize a /\
    concat frames ++ fa_buffer a' = fa_buffer a ++ data /\
    Forall (fun f => len f = fa_frameSize a) frames /\
    (data <> [] \/ len (fa_buffer a) < fa_frameSize a ->
     len (fa_buffer a') < fa_frameSize a).
Proof.
  intros Hfs Hfuel. unfold FrameAssembler_Push.
  destruct data as [|x data].
  - exists a, []. change (len (@nil byte) =? 0) with true. cbv iota.
    rewrite app_nil_r. repeat split; auto.
    intros [H | H]; [congruence | exact H].
  - destruct (Z.eqb_spec (len (x :: data)) 0) as [H0 | _].
    { rewrite len_cons in H0. pose proof (len_nonneg data). lia. }
    destruct (@assemble_spec _ "000"%byte fuel (fa_frameSize a)
                (fa_buffer a ++ x :: data) [] Hfs)
      as (new & rest & Hrun & Hcat & Hall & Hrest & _).
    { rewrite length_app. exact Hfuel. }
    rewrite Hrun. cbn [app].
    eexists. exists new. split; [reflexivity|]. cbn [fa_frameSize fa_buffer].
    repeat split; auto.
Qed.

(** X8.  [FrameAssembler.Push] on a positive frame size returns: the frames
    it hands out followed by what it keeps are exactly what it held followed
    by the new data, byte for byte; every frame has the frame size; and once
    data has been pushed (or if less than a frame was held before) less than
    a frame is held afterwards. *)
Theorem X8_frame_assembler_conserves_bytes
    (fuel : nat) (a : FrameAssembler) (data : list byte) :
  1 <= fa_frameSize a ->
  (length (fa_buffer a) + length data < fuel)%nat ->
  exists a' frames,
    FrameAssembler_Push fuel a data = Some (Ok (a', frames)) /\
    fa_frameSize a' = fa_frameSize a /\
    concat frames ++ fa_buffer a' = fa_buffer a ++ data /\
    Forall (fun f => len f = fa_frameSize a) frames /\
    (data <> [] \/ len (fa_buffer a) < fa_frameSize a ->
     len (fa_buffer a') < fa_frameSize a).
Proof. apply FrameAssembler_Push_spec. Qed.

Lemma X8_frame_assembler_conserves_bytes_witness :
  let a := NewFrameAssembler 4 in
  1 <= fa_frameSize a /\
  (length (fa_buffer a) + length eight_bytes < 9)%nat /\
  exists a' frames,
    FrameAssembler_Push 9 a eight_bytes = Some (Ok (a', frames)) /\
    fa_frameSize a' = fa_frameSize a /\
    concat frames ++ fa_buffer a' = fa_buffer a ++ eight_bytes /\
    Forall (fun f => len f = fa_frameSize a) frames /\
    (eight_bytes <> [] \/ len (fa_buffer a) < fa_frameSize a ->
     len (fa_buffer a') < fa_frameSize a).
Proof.
  intros a.
  assert (H1 : 1 <= fa_frameSize a) by (vm_compute; congruence).
  assert (H2 : (length (fa_buffer a) + length eight_bytes < 9)%nat)
    by (vm_compute; lia).
  split; [exact H1|]. split; [exact H2|].
  exact (@X8_frame_assembler_conserves_bytes 9 a eight_bytes H1 H2).
Defined.

(** X9.  [NewFrameAssembler] takes the frame size as it is given.  With a
    frame size of zero a push of any data never comes back: the loop is
    still turning whatever the number of turns allowed.  With a negative
    frame size the first turn of the loop panics. *)
Theorem X9_frame_assembler_unchecked_size
    (data : list byte) (fuel : nat) (p : positive) :
  data <> [] ->
  FrameAssembler_Push fuel (NewFrameAssembler 0) data = None /\
  FrameAssembler_Push (S fuel) (NewFrameAssembler (Z.neg p)) data
    = Some Panic.
Proof.
  intros Hdata. unfold FrameAssembler_Push, NewFrameAssembler.
  cbn [fa_frameSize fa_buffer app].
  destruct (Z.eqb_spec (len data) 0) as [H0 | _].
  { destruct data; [congruence|]. rewrite len_cons in H0.
    pose proof (len_nonneg data). lia. }
  split.
  - rewrite assemble_zero. reflexivity.
  - rewrite assemble_negative by lia. reflexivity.
Qed.

Lemma X9_frame_assembler_unchecked_size_witness :
  eight_bytes <> [] /\
  FrameAssembler_Push 100 (NewFrameAssembler 0) eight_bytes = None /\
  FrameAssembler_Push 101 (NewFrameAssembler (-4)) eight_bytes = Some Panic.
Proof.
  assert (H : eight_bytes <> []) by (vm_compute; congruence).
  split; [exact H|].
  exact (@X9_frame_assembler_unchecked_size eight_bytes 100%nat 4%positive H).
Defined.

Lemma push_all_spec fuel inputs : forall a,
  1 <= frameSamples a -> len (pa_buf a) < frameSamples a ->
  (length (pa_buf a) + length (concat inputs) < fuel)%nat ->
  exists a' frames,
    push_all fuel a inputs = Some (Ok (a', frames)) /\
    frameSamples a' = frameSamples a /\
    concat frames ++ pa_buf a' = pa_buf a ++ concat inputs /\
    Forall (fun f => len f = frameSamples a) frames /\
    len (pa_buf a') < frameSamples a.
Proof.
  induction inputs as [|inp inputs IH]; intros a Hfs Hinv Hfuel.
  - exists a, []. cbn [push_all concat app]. rewrite app_nil_r.
    repeat split; auto.
  - cbn [push_all concat] in *. rewrite length_app in Hfuel.
    assert (Hpush : exists a1 fr1,
      PCM16Assembler_Push fuel a inp = Some (Ok (a1, fr1)) /\
      frameSamples a1 = frameSamples a /\
      concat fr1 ++ pa_buf a1 = pa_buf a ++ inp /\
      Forall (fun f => len f = frameSamples a) fr1 /\
      len (pa_buf a1) < frameSamples a).
    { unfold PCM16Assembler_Push. destruct inp as [|x inp].
      - exists a, []. change (len (@nil Z) =? 0) with true. cbv iota.
        rewrite app_nil_r. repeat split; auto.
      - destruct (Z.eqb_spec (len (x :: inp)) 0) as [H0 | _].
        { rewrite len_cons in H0. pose proof (len_nonneg inp). lia. }
        destruct (@assemble_spec _ 0 fuel (frameSamples a)
                    (pa_buf a ++ x :: inp) [] Hfs)
          as (new & rest & Hrun & Hcat & Hall & Hrest & _).
        { rewrite length_app. lia. }
        rewrite Hrun. cbn [app]. eexists. exists new.
        split; [reflexivity|]. cbn [frameSamples pa_buf].
        repeat split; auto. }
    destruct Hpush as (a1 & fr1 & Hrun1 & Hfs1 & Hcat1 & Hall1 & Hinv1).
    destruct (IH a1) as (a2 & fr2 & Hrun2 & Hfs2 & Hcat2 & Hall2 & Hinv2).
    { lia. } { lia. }
    { apply (f_equal (@length _)) in Hcat1. rewrite !length_app in Hcat1.
      lia. }
    exists a2, (fr1 ++ fr2). rewrite Hrun1, Hrun2.
    split; [reflexivity|]. split; [congruence|]. split.
    { rewrite concat_app, <- app_assoc, Hcat2, app_assoc, Hcat1, <- app_assoc.
      reflexivity. }
    split.
    { apply Forall_app. split; [exact Hall1|]. rewrite <- Hfs1. exact Hall2. }
    lia.
Qed.

(** X10.  A [PCM16Assembler] from [NewPCM16Assembler], whatever frame length
    was asked for, re-cuts the stream pushed into it: the frames of all the
    pushes, in order, followed by what is still held, are the inputs laid end
    to end; every frame has the frame length (at least one sample); and less
    than a frame is held back. *)
Theorem X10_pcm16_assembler_recuts_stream
    (fuel : nat) (n : Z) (inputs : list PCM16Sample) :
  (length (concat inputs) < fuel)%nat ->
  exists a' frames,
    push_all fuel (NewPCM16Assembler n) inputs = Some (Ok (a', frames)) /\
    concat frames ++ pa_buf a' = concat inputs /\
    Forall (fun f => len f = Z.max 1 n) frames /\
    len (pa_buf a') < Z.max 1 n.
Proof.
  intros Hfuel.
  assert (Hsz : frameSamples (NewPCM16Assembler n) = Z.max 1 n).
  { unfold NewPCM16Assembler. cbn [frameSamples].
    destruct (Z.ltb_spec n 1); lia. }
  destruct (@push_all_spec fuel inputs (NewPCM16Assembler n))
    as (a' & frames & Hrun & _ & Hcat & Hall & Hinv).
  - lia.
  - rewrite Hsz. unfold NewPCM16Assembler, len. cbn. lia.
  - unfold NewPCM16Assembler. cbn [pa_buf length]. lia.
  - exists a', frames. rewrite Hsz in *. repeat split; auto.
Qed.

Lemma X10_pcm16_assembler_recuts_stream_witness :
  (length (concat [[1; 2; 3]; [4; 5]]) < 6)%nat /\
  exists a' frames,
    push_all 6 (NewPCM16Assembler 2) [[1; 2; 3]; [4; 5]]
      = Some (Ok (a', frames)) /\
    concat frames ++ pa_buf a' = concat [[1; 2; 3]; [4; 5]] /\
    Forall (fun f => len f = Z.max 1 2) frames /\
    len (pa_buf a') < Z.max 1 2.
Proof.
  assert (H : (length (concat [[1; 2; 3]; [4; 5]]) < 6)%nat)
    by (vm_compute; lia).
  split; [exact H|].
  exact (@X10_pcm16_assembler_recuts_stream 6 2 [[1; 2; 3]; [4; 5]] H).
Defined.

(** ** Samples and bytes *)

Lemma byte_val_range b : 0 <= byte_val b < 256.
Proof. unfold byte_val. pose proof (Byte.to_N_bounded b). lia. Qed.

Lemma byte_val_to_byte z : byte_val (to_byte z) = z mod 256.
Proof.
  unfold byte_val, to_byte.
  pose proof (Z.mod_pos_bound z 256 ltac:(lia)) as Hm.
  destruct (Byte.of_N (Z.to_N (z mod 256))) eqn:E.
  - apply Byte.to_of_N in E. rewrite E. lia.
  - apply Byte.of_N_None_iff in E. lia.
Qed.

Lemma to_byte_byte_val b : to_byte (byte_val b) = b.
Proof.
  unfold to_byte. pose proof (byte_val_range b).
  rewrite Z.mod_small by lia. unfold byte_val.
  rewrite N2Z.id, Byte.of_to_N. reflexivity.
Qed.

Lemma to_byte_mod z z' : z mod 256 = z' mod 256 -> to_byte z = to_byte z'.
Proof. unfold to_byte. intros ->. reflexivity. Qed.

Lemma lor_bytes lo hi :
  0 <= lo < 256 -> 0 <= hi < 256 -> Z.lor lo (Z.shiftl hi 8) = lo + 256 * hi.
Proof.
  intros Hlo Hhi.
  assert (Hland : Z.land lo (Z.shiftl hi 8) = 0).
  { apply Z.bits_inj'. intros n Hn. rewrite Z.land_spec, Z.bits_0.
    destruct (Z.lt_ge_cases n 8).
    - rewrite Z.shiftl_spec_low by lia. apply andb_false_r.
    - replace lo with (lo mod 2 ^ 8) by (apply Z.mod_small; lia).
      rewrite Z.mod_pow2_bits_high by lia. reflexivity. }
  rewrite <- Z.lxor_lor by exact Hland.
  rewrite <- Z.add_nocarry_lxor by exact Hland.
  rewrite Z.shiftl_mul_pow2 by lia. lia.
Qed.

(** Decoding the two bytes of a sample gives the sample back. *)
Lemma le_samples_le16 s rest :
  -32768 <= s < 32768 -> le_samples (le16 s ++ rest) = s :: le_samples rest.
Proof.
  intros Hs. unfold le16. cbn [app le_samples]. f_equal.
  rewrite !byte_val_to_byte, Z.shiftr_div_pow2 by lia.
  change (2 ^ 8) with 256.
  unfold uint16, wrap_unsigned. change (2 ^ 16) with 65536.
  pose proof (Z.mod_pos_bound s 65536 ltac:(lia)) as Hu.
  rewrite lor_bytes by lia.
  unfold int16, wrap_signed. change (2 ^ (16 - 1)) with 32768.
  change (2 ^ 16) with 65536. lia.
Qed.

Lemma le_samples_flat src :
  is_pcm16 src -> le_samples (flat_map le16 src) = src.
Proof.
  induction 1 as [|s src Hs _ IH]; [reflexivity|].
  cbn [flat_map]. rewrite le_samples_le16 by exact Hs. now rewrite IH.
Qed.

(** Encoding the sample two bytes decode to gives the bytes back. *)
Lemma le16_decoded lo hi :
  le16 (int16 (Z.lor (byte_val lo) (Z.shiftl (byte_val hi) 8))) = [lo; hi].
Proof.
  pose proof (byte_val_range lo) as Hlo. pose proof (byte_val_range hi) as Hhi.
  rewrite lor_bytes by lia. unfold le16.
  assert (Hu : uint16 (int16 (byte_val lo + 256 * byte_val hi))
               = byte_val lo + 256 * byte_val hi).
  { unfold uint16, wrap_unsigned, int16, wrap_signed.
    change (2 ^ (16 - 1)) with 32768. change (2 ^ 16) with 65536. lia. }
  rewrite Hu, Z.shiftr_div_pow2 by lia. change (2 ^ 8) with 256.
  rewrite (@to_byte_mod (byte_val lo + 256 * byte_val hi) (byte_val lo))
    by lia.
  replace ((byte_val lo + 256 * byte_val hi) / 256) with (byte_val hi) by lia.
  now rewrite !to_byte_byte_val.
Qed.

Lemma pair_ind {A} (P : list A -> Prop) :
  P [] -> (forall x, P [x]) -> (forall x y l, P l -> P (x :: y :: l)) ->
  forall l, P l.
Proof.
  intros H0 H1 H2 l.
  enough (H : P l /\ forall x, P (x :: l)) by apply H.
  induction l as [|y l [IHl IHx]]; split; auto.
Qed.

Lemma le_samples_len src : len (le_samples src) = Z.quot (len src) 2.
Proof.
  induction src as [|x|x y src IH] using pair_ind; [reflexivity..|].
  cbn [le_samples]. rewrite !len_cons, IH. pose proof (len_nonneg src). lia.
Qed.

Lemma le_samples_pcm16 src : is_pcm16 (le_samples src).
Proof.
  induction src as [|x|x y src IH] using pair_ind; try constructor.
  - apply (@wrap_signed_range 16). lia.
  - exact IH.
Qed.

Lemma le16_le_samples src :
  flat_map le16 (le_samples src)
  = firstn (Z.to_nat (2 * Z.quot (len src) 2)) src.
Proof.
  induction src as [|x|x y src IH] using pair_ind; [reflexivity..|].
  cbn [le_samples flat_map]. rewrite le16_decoded, IH.
  rewrite !len_cons. pose proof (len_nonneg src).
  replace (Z.to_nat (2 * Z.quot (1 + (1 + len src)) 2))
    with (S (S (Z.to_nat (2 * Z.quot (len src) 2)))) by lia.
  reflexivity.
Qed.

Lemma index_mid {A} (hd : list A) s tl : index (hd ++ s :: tl) (len hd) = Ok s.
Proof.
  unfold index. rewrite len_app, len_cons.
  pose proof (len_nonneg hd). pose proof (len_nonneg tl).
  replace ((0 <=? len hd) && (len hd <? len hd + (1 + len tl))) with true
    by (symmetry; rewrite andb_true_iff; lia).
  unfold len. rewrite Nat2Z.id, nth_error_app2 by lia.
  now rewrite Nat.sub_diag.
Qed.

Lemma resize_ok {A} (z : A) dst n :
  0 <= n -> exists d, resize z dst n = Ok d /\ len d = n.
Proof.
  intros Hn. unfold resize. destruct (Z.ltb_spec (len dst) n).
  - rewrite make_ok by lia. eexists. split; [reflexivity|].
    unfold len. rewrite repeat_length. lia.
  - rewrite slice_to_firstn by lia. eexists. split; [reflexivity|].
    apply len_firstn. lia.
Qed.

Lemma PutUint16_at_exact pre x y post lo v :
  lo = len pre ->
  PutUint16_at (pre ++ x :: y :: post) lo (lo + 2) v
  = Ok (pre ++ to_byte v :: to_byte (Z.shiftr v 8) :: post).
Proof.
  intros ->. unfold PutUint16_at.
  rewrite (@slice_exact _ (pre ++ x :: y :: post) pre [x; y] post)
    by reflexivity.
  cbn [bind]. unfold PutUint16.
  change (index [x; y] 1) with (Ok y). cbn [bind].
  rewrite (@store_exact _ [x; y] [] x (to_byte v) [y] 0) by reflexivity.
  cbn [bind app].
  rewrite (@store_exact _ [to_byte v; y] [to_byte v] y
             (to_byte (Z.shiftr v 8)) [] 1) by reflexivity.
  cbn [bind app].
  rewrite (@copy_into_exact _ (pre ++ x :: y :: post) pre [x; y] post
             (len pre) (len pre + 2)
             [to_byte v; to_byte (Z.shiftr v 8)]) by reflexivity.
  reflexivity.
Qed.

Lemma SampleToBytes_loop tl : forall hd pre post,
  len pre = 2 * len hd -> length post = (2 * length tl)%nat ->
  for_range (length tl) (len hd)
    (fun i dst =>
       s <- index (hd ++ tl) i ;;
       PutUint16_at dst (i * 2) (i * 2 + 2) (uint16 s))
    (pre ++ post)
  = Ok (pre ++ flat_map le16 tl).
Proof.
  induction tl as [|s tl IH]; intros hd pre post Hpre Hpost.
  - destruct post; [reflexivity | discriminate].
  - destruct post as [|x [|y post]]; [simpl in Hpost; lia..|].
    cbn [length for_range]. rewrite index_mid. cbn [bind].
    rewrite PutUint16_at_exact by lia. cbn [bind].
    replace (hd ++ s :: tl) with ((hd ++ [s]) ++ tl)
      by (rewrite <- app_assoc; reflexivity).
    replace (len hd + 1) with (len (hd ++ [s]))
      by (rewrite len_app; reflexivity).
    change (pre ++ to_byte (uint16 s) :: to_byte (Z.shiftr (uint16 s) 8)
            :: post) with (pre ++ le16 s ++ post).
    rewrite app_assoc, IH.
    + cbn [flat_map]. now rewrite <- app_assoc.
    + rewrite !len_app. change (len (le16 s)) with 2.
      change (len [s]) with 1. lia.
    + simpl in Hpost. lia.
Qed.

(** What [PCM16SampleToBytes] returns does not depend on the slice it was
    given to write into. *)
Lemma PCM16SampleToBytes_eq dst src :
  PCM16SampleToBytes dst src = Ok (flat_map le16 src).
Proof.
  unfold PCM16SampleToBytes. cbv zeta.
  destruct (@resize_ok _ "000"%byte dst (len src * 2)) as (d & -> & Hd);
    [pose proof (len_nonneg src); lia|].
  cbn [bind].
  apply (@SampleToBytes_loop src [] [] d); [reflexivity|].
  unfold len in Hd. lia.
Qed.

Lemma BytesToSample_loop tl : forall hd pre post,
  len hd = 2 * len pre -> length post = length (le_samples tl) ->
  for_range (length (le_samples tl)) (len pre)
    (fun i dst =>
       w <- slice (hd ++ tl) (i * 2) (i * 2 + 2) ;;
       v <- Uint16 w ;;
       store dst i (int16 v))
    (pre ++ post)
  = Ok (pre ++ le_samples tl).
Proof.
  induction tl as [|x|lo hi tl IH] using pair_ind; intros hd pre post Hhd Hpost.
  - destruct post; [reflexivity | discriminate].
  - destruct post; [reflexivity | discriminate].
  - cbn [le_samples length] in *. destruct post as [|x post]; [discriminate|].
    cbn [for_range].
    rewrite (@slice_exact _ (hd ++ lo :: hi :: tl) hd [lo; hi] tl)
      by (try reflexivity; lia).
    cbn [bind]. change (Uint16 [lo; hi])
      with (Ok (Z.lor (byte_val lo) (Z.shiftl (byte_val hi) 8))).
    cbn [bind].
    rewrite (@store_exact _ (pre ++ x :: post) pre x _ post) by reflexivity.
    cbn [bind].
    set (v := int16 (Z.lor (byte_val lo) (Z.shiftl (byte_val hi) 8))).
    replace (hd ++ lo :: hi :: tl) with ((hd ++ [lo; hi]) ++ tl)
      by (rewrite <- app_assoc; reflexivity).
    replace (len pre + 1) with (len (pre ++ [v]))
      by (rewrite len_app; reflexivity).
    replace (pre ++ v :: post) with ((pre ++ [v]) ++ post)
      by (rewrite <- app_assoc; reflexivity).
    rewrite IH.
    + now rewrite <- app_assoc.
    + rewrite !len_app. change (len [lo; hi]) with 2.
      change (len [v]) with 1. lia.
    + simpl in Hpost. lia.
Qed.

Lemma PCM16BytesToSample_eq dst src :
  PCM16BytesToSample dst src = Ok (le_samples src).
Proof.
  unfold PCM16BytesToSample. cbv zeta.
  pose proof (le_samples_len src) as Hn. pose proof (len_nonneg src).
  destruct (@resize_ok _ 0 dst (Z.quot (len src) 2)) as (d & -> & Hd);
    [lia|].
  cbn [bind].
  replace (Z.to_nat (Z.quot (len src) 2)) with (length (le_samples src))
    by (unfold len in *; lia).
  apply (@BytesToSample_loop src [] [] d); [reflexivity|].
  unfold len in *. lia.
Qed.

(** X11.  Samples written out as bytes and read back are the samples: for
    any slices given to write into, [PCM16SampleToBytes] never panics,
    produces two bytes for each sample, and [PCM16BytesToSample] of those
    bytes returns the samples, whatever values an int16 can hold. *)
Theorem X11_samples_bytes_round_trip
    (dst dst' : list byte) (scratch : PCM16Sample) (src : PCM16Sample) :
  is_pcm16 src ->
  exists bytes,
    PCM16SampleToBytes dst src = Ok bytes /\
    len bytes = 2 * len src /\
    PCM16SampleToBytes dst' src = Ok bytes /\
    PCM16BytesToSample scratch bytes = Ok src.
Proof.
  intros Hsrc. exists (flat_map le16 src).
  rewrite !PCM16SampleToBytes_eq, PCM16BytesToSample_eq, le_samples_flat
    by exact Hsrc.
  repeat split.
  clear Hsrc. induction src as [|s src IH]; [reflexivity|].
  cbn [flat_map]. rewrite len_app, len_cons, IH. change (len (le16 s)) with 2.
  lia.
Qed.

Lemma X11_samples_bytes_round_trip_witness :
  is_pcm16 [-32768; -1; 0; 258; 32767] /\
  exists bytes,
    PCM16SampleToBytes [] [-32768; -1; 0; 258; 32767] = Ok bytes /\
    len bytes = 2 * len [-32768; -1; 0; 258; 32767] /\
    PCM16SampleToBytes eight_bytes [-32768; -1; 0; 258; 32767] = Ok bytes /\
    PCM16BytesToSample [7] bytes = Ok [-32768; -1; 0; 258; 32767].
Proof.
  assert (H : is_pcm16 [-32768; -1; 0; 258; 32767])
    by (repeat constructor; lia).
  split; [exact H|].
  exact (@X11_samples_bytes_round_trip [] eight_bytes [7]
           [-32768; -1; 0; 258; 32767] H).
Defined.

(** X12.  Bytes read as samples and written out again are the bytes, less
    an odd trailing byte: [PCM16BytesToSample] never panics, returns one
    int16 for each whole pair of bytes, and [PCM16SampleToBytes] of them
    returns the bytes of those pairs. *)
Theorem X12_bytes_samples_round_trip
    (dst : list byte) (scratch : PCM16Sample) (src : list byte) :
  exists samples,
    PCM16BytesToSample scratch src = Ok samples /\
    len samples = Z.quot (len src) 2 /\
    is_pcm16 samples /\
    PCM16SampleToBytes dst samples
      = Ok (firstn (Z.to_nat (2 * Z.quot (len src) 2)) src).
Proof.
  exists (le_samples src).
  rewrite PCM16BytesToSample_eq, PCM16SampleToBytes_eq, le16_le_samples.
  repeat split; auto using le_samples_len, le_samples_pcm16.
Qed.

(** ** Channel layouts *)

Lemma mean16 l r :
  -32768 <= l < 32768 -> -32768 <= r < 32768 ->
  int16 (Z.quot (int32 (int32 l + int32 r)) 2) = Z.quot (l + r) 2.
Proof.
  intros Hl Hr. unfold int32, int16, wrap_signed.
  change (2 ^ (32 - 1)) with 2147483648. change (2 ^ 32) with 4294967296.
  change (2 ^ (16 - 1)) with 32768. change (2 ^ 16) with 65536.
  rewrite (Z.mod_small (l + 2147483648)) by lia.
  rewrite (Z.mod_small (r + 2147483648)) by lia.
  replace (l + 2147483648 - 2147483648 + (r + 2147483648 - 2147483648))
    with (l + r) by lia.
  rewrite (Z.mod_small (l + r + 2147483648)) by lia.
  replace (l + r + 2147483648 - 2147483648) with (l + r) by lia.
  rewrite Z.mod_small by lia. lia.
Qed.

Lemma upmix_len s : len (upmix s) = 2 * len s.
Proof.
  induction s as [|v s IH]; [reflexivity|].
  unfold upmix in *. cbn [flat_map app]. rewrite !len_cons, IH. lia.
Qed.


Lemma downmix_len s : len (downmix s) = Z.quot (len s) 2.
Proof.
  induction s as [|x|x y s IH] using pair_ind; [reflexivity..|].
  cbn [downmix]. rewrite !len_cons, IH. pose proof (len_nonneg s). lia.
Qed.


Lemma upmix_loop tl : forall (hd pre post : PCM16Sample),
  len pre = 2 * len hd -> length post = (2 * length tl)%nat ->
  for_range (length tl) (len hd)
    (fun i dst =>
       v <- index (hd ++ tl) i ;;
       dst <- store dst (i * 2) v ;;
       store dst (i * 2 + 1) v)
    (pre ++ post)
  = Ok (pre ++ upmix tl).
Proof.
  induction tl as [|s tl IH]; intros hd pre post Hpre Hpost.
  - destruct post; [reflexivity | discriminate].
  - destruct post as [|x [|y post]]; [simpl in Hpost; lia..|].
    cbn [length for_range]. rewrite index_mid. cbn [bind].
    rewrite (@store_exact _ (pre ++ x :: y :: post) pre x s (y :: post))
      by (try reflexivity; lia).
    cbn [bind].
    rewrite (@store_exact _ (pre ++ s :: y :: post) (pre ++ [s]) y s post)
      by (rewrite <- ?app_assoc, ?len_app; try reflexivity;
          change (len [s]) with 1; lia).
    cbn [bind].
    replace (hd ++ s :: tl) with ((hd ++ [s]) ++ tl)
      by (rewrite <- app_assoc; reflexivity).
    replace (len hd + 1) with (len (hd ++ [s]))
      by (rewrite len_app; reflexivity).
    replace ((pre ++ [s]) ++ s :: post) with ((pre ++ [s; s]) ++ post)
      by (rewrite <- !app_assoc; reflexivity).
    rewrite IH.
    + unfold upmix. cbn [flat_map]. now rewrite <- app_assoc.
    + rewrite !len_app. change (len [s; s]) with 2.
      change (len [s]) with 1. lia.
    + simpl in Hpost. lia.
Qed.

Lemma downmix_loop tl : forall (hd pre post : PCM16Sample),
  is_pcm16 tl ->
  len hd = 2 * len pre -> length post = length (downmix tl) ->
  for_range (length (downmix tl)) (len pre)
    (fun i dst =>
       l <- index (hd ++ tl) (i * 2) ;;
       r <- index (hd ++ tl) (i * 2 + 1) ;;
       store dst i (int16 (Z.quot (int32 (int32 l + int32 r)) 2)))
    (pre ++ post)
  = Ok (pre ++ downmix tl).
Proof.
  induction tl as [|x|l r tl IH] using pair_ind;
    intros hd pre post Hrange Hhd Hpost.
  - destruct post; [reflexivity | discriminate].
  - destruct post; [reflexivity | discriminate].
  - apply Forall_cons_iff in Hrange. destruct Hrange as (Hl & Hrange).
    apply Forall_cons_iff in Hrange. destruct Hrange as (Hr & Hrange).
    cbn [downmix length] in *. destruct post as [|x post]; [discriminate|].
    cbn [for_range].
    replace (len pre * 2) with (len hd) by lia.
    rewrite index_mid. cbn [bind].
    replace (index (hd ++ l :: r :: tl) (len hd + 1)) with (Ok r).
    2:{ replace (hd ++ l :: r :: tl) with ((hd ++ [l]) ++ r :: tl)
          by (rewrite <- app_assoc; reflexivity).
        replace (len hd + 1) with (len (hd ++ [l]))
          by (rewrite len_app; reflexivity).
        now rewrite index_mid. }
    cbn [bind]. rewrite mean16 by assumption.
    rewrite (@store_exact _ (pre ++ x :: post) pre x _ post) by reflexivity.
    cbn [bind].
    replace (hd ++ l :: r :: tl) with ((hd ++ [l; r]) ++ tl)
      by (rewrite <- app_assoc; reflexivity).
    replace (len pre + 1) with (len (pre ++ [Z.quot (l + r) 2]))
      by (rewrite len_app; reflexivity).
    replace (pre ++ Z.quot (l + r) 2 :: post)
      with ((pre ++ [Z.quot (l + r) 2]) ++ post)
      by (rewrite <- app_assoc; reflexivity).
    rewrite IH.
    + now rewrite <- app_assoc.
    + exact Hrange.
    + rewrite !len_app. change (len [l; r]) with 2.
      change (len [Z.quot (l + r) 2]) with 1. lia.
    + simpl in Hpost. lia.
Qed.


Lemma ConvertChannels_up dst src inCh outCh :
  channels inCh = 1 -> channels outCh = 2 ->
  PCM16ConvertChannels dst src inCh outCh = Ok (upmix src).
Proof.
  intros Hin Hout. unfold PCM16ConvertChannels. cbv zeta.
  change (if inCh <=? 0 then 1 else inCh) with (channels inCh).
  change (if outCh <=? 0 then 1 else outCh) with (channels outCh).
  rewrite Hin, Hout. change (1 =? 2) with false. change (2 =? 1) with false.
  change (1 =? 1) with true. change (2 =? 2) with true. cbn [andb].
  destruct (@resize_ok _ 0 dst (len src * 2)) as (d & -> & Hd);
    [pose proof (len_nonneg src); lia|].
  cbn [bind].
  apply (@upmix_loop src [] [] d); [reflexivity|].
  unfold len in Hd. lia.
Qed.

Lemma ConvertChannels_down dst src inCh outCh :
  is_pcm16 src -> channels inCh = 2 -> channels outCh = 1 ->
  PCM16ConvertChannels dst src inCh outCh = Ok (downmix src).
Proof.
  intros Hsrc Hin Hout. unfold PCM16ConvertChannels. cbv zeta.
  change (if inCh <=? 0 then 1 else inCh) with (channels inCh).
  change (if outCh <=? 0 then 1 else outCh) with (channels outCh).
  rewrite Hin, Hout. change (2 =? 1) with false. change (2 =? 2) with true.
  change (1 =? 1) with true. cbn [andb].
  pose proof (downmix_len src) as Hn. pose proof (len_nonneg src).
  destruct (@resize_ok _ 0 dst (Z.quot (len src) 2)) as (d & -> & Hd);
    [lia|].
  cbn [bind].
  replace (Z.to_nat (Z.quot (len src) 2)) with (length (downmix src))
    by (unfold len in *; lia).
  apply (@downmix_loop src [] [] d); [exact Hsrc | reflexivity|].
  unfold len in *. lia.
Qed.





(** ** The sink in front of the playout buffer *)

Lemma WriteFrame_none (frames : list (list byte)) (b : PCMPlayoutBuffer) :
  Forall (fun f => len f <> frameSize b) frames ->
  fold_left WriteFrame frames b = b.
Proof.
  induction 1 as [|f frames Hf _ IH]; [reflexivity|].
  cbn [fold_left]. unfold WriteFrame at 2.
  destruct (Z.eqb_spec (len f) (frameSize b)); [contradiction|].
  cbn [negb]. exact IH.
Qed.

Lemma relayout_len inCh outCh s :
  supported_layout inCh outCh -> len (relayout inCh outCh s) <= 2 * len s.
Proof.
  intros Hl. unfold relayout. pose proof (len_nonneg s).
  destruct (Z.eqb_spec inCh outCh); [lia|].
  destruct (Z.eqb_spec inCh 1).
  - rewrite upmix_len. lia.
  - rewrite downmix_len. lia.
Qed.

Lemma le16_flat_len s : len (flat_map le16 s) = 2 * len s.
Proof.
  induction s as [|v s IH]; [reflexivity|].
  cbn [flat_map]. rewrite len_app, len_cons, IH. change (len (le16 v)) with 2.
  lia.
Qed.

Lemma WriteSample_spec (fuel : nat) (w : tgPlayoutSink) (sample : PCM16Sample) :
  1 <= ps_outFrameSize w ->
  fa_frameSize (ps_frameAssembler w) = ps_outFrameSize w ->
  supported_layout (ps_inCh w) (ps_outCh w) ->
  is_pcm16 sample ->
  (length (fa_buffer (ps_frameAssembler w)) + 4 * length sample < fuel)%nat ->
  exists w',
    WriteSample fuel w sample = Some (Ok w') /\
    ps_outFrameSize w' = ps_outFrameSize w /\
    fa_frameSize (ps_frameAssembler w') = ps_outFrameSize w /\
    ps_inCh w' = ps_inCh w /\ ps_outCh w' = ps_outCh w /\
    (frameSize (ps_out w) = ps_outFrameSize w ->
       frameSize (ps_out w') = frameSize (ps_out w) /\
       buf (ps_out w') ++ fa_buffer (ps_frameAssembler w')
       = buf (ps_out w) ++ fa_buffer (ps_frameAssembler w)
         ++ flat_map le16 (relayout (ps_inCh w) (ps_outCh w) sample)) /\
    (frameSize (ps_out w) <> ps_outFrameSize w -> ps_out w' = ps_out w).
Proof.
  intros Hfs Hfa Hlay Hsample Hfuel.
  set (s' := relayout (ps_inCh w) (ps_outCh w) sample).
  assert (Hconv : exists tmp,
    (if negb (ps_inCh w =? ps_outCh w) then
       tmp <- PCM16ConvertChannels (ps_tmp w) sample (ps_inCh w) (ps_outCh w) ;;
       Ok (tmp, tmp)
     else Ok (ps_tmp w, sample)) = Ok (tmp, s')).
  { unfold s', relayout. destruct Hlay as [He | [(Hi & Ho) | (Hi & Ho)]].
    - rewrite He, Z.eqb_refl. cbn [negb]. eauto.
    - rewrite Hi, Ho. change (1 =? 2) with false. change (1 =? 1) with true.
      cbn [negb]. rewrite ConvertChannels_up by reflexivity. cbn [bind]. eauto.
    - rewrite Hi, Ho. change (2 =? 1) with false. cbn [negb].
      rewrite ConvertChannels_down by (try reflexivity; assumption).
      cbn [bind]. eauto. }
  destruct Hconv as (tmp & Hconv).
  unfold WriteSample. rewrite Hconv, PCM16SampleToBytes_eq.
  pose proof (@relayout_len _ _ sample Hlay) as Hlen. fold s' in Hlen.
  pose proof (le16_flat_len s') as Hbytes.
  destruct (@FrameAssembler_Push_spec fuel (ps_frameAssembler w)
              (flat_map le16 s'))
    as (fa & frames & Hpush & Hfa' & Hcat & Hall & _).
  { lia. } { unfold len in *. lia. }
  rewrite Hpush. eexists. split; [reflexivity|].
  cbn [ps_outFrameSize ps_frameAssembler ps_inCh ps_outCh ps_out].
  rewrite Hfa in *.
  split; [reflexivity|]. split; [exact Hfa'|]. split; [reflexivity|].
  split; [reflexivity|]. split.
  - intros Hout. rewrite <- Hout in Hall.
    destruct (@WriteFrame_all frames (ps_out w) Hall) as (Hf & Hb).
    split; [exact Hf|]. rewrite Hb, <- app_assoc, Hcat. reflexivity.
  - intros Hout. apply WriteFrame_none.
    eapply Forall_impl; [|exact Hall]. cbv beta. intros f Hf. congruence.
Qed.

(** X15.  One [WriteSample] of the sink loses and reorders nothing on the
    way to the playout buffer.  With the frame size of the sink and of its
    assembler the same and positive, and a layout the bridge uses, the call
    returns; if the buffer has that frame size too, what the buffer holds
    followed by what the assembler holds back is afterwards what it was
    before followed by the bytes of the converted sample, low byte first;
    if the buffer has another frame size, it is left as it was and the
    frames are gone. *)
Theorem X15_sink_delivers_sample_bytes
    (fuel : nat) (w : tgPlayoutSink) (sample : PCM16Sample) :
  1 <= ps_outFrameSize w ->
  fa_frameSize (ps_frameAssembler w) = ps_outFrameSize w ->
  supported_layout (ps_inCh w) (ps_outCh w) ->
  is_pcm16 sample ->
  (length (fa_buffer (ps_frameAssembler w)) + 4 * length sample < fuel)%nat ->
  exists w',
    WriteSample fuel w sample = Some (Ok w') /\
    ps_outFrameSize w' = ps_outFrameSize w /\
    fa_frameSize (ps_frameAssembler w') = ps_outFrameSize w /\
    ps_inCh w' = ps_inCh w /\ ps_outCh w' = ps_outCh w /\
    (frameSize (ps_out w) = ps_outFrameSize w ->
       frameSize (ps_out w') = frameSize (ps_out w) /\
       buf (ps_out w') ++ fa_buffer (ps_frameAssembler w')
       = buf (ps_out w) ++ fa_buffer (ps_frameAssembler w)
         ++ flat_map le16 (relayout (ps_inCh w) (ps_outCh w) sample)) /\
    (frameSize (ps_out w) <> ps_outFrameSize w -> ps_out w' = ps_out w).
Proof. apply WriteSample_spec. Qed.

Lemma X15_sink_delivers_sample_bytes_witness :
  let w := newTGPlayoutSink 48000 1 2 4 (NewPCMPlayoutBuffer 4) in
  let sample := [100; -7; 32767] in
  1 <= ps_outFrameSize w /\
  fa_frameSize (ps_frameAssembler w) = ps_outFrameSize w /\
  supported_layout (ps_inCh w) (ps_outCh w) /\
  is_pcm16 sample /\
  (length (fa_buffer (ps_frameAssembler w)) + 4 * length sample < 20)%nat /\
  exists w',
    WriteSample 20 w sample = Some (Ok w') /\
    ps_outFrameSize w' = ps_outFrameSize w /\
    fa_frameSize (ps_frameAssembler w') = ps_outFrameSize w /\
    ps_inCh w' = ps_inCh w /\ ps_outCh w' = ps_outCh w /\
    (frameSize (ps_out w) = ps_outFrameSize w ->
       frameSize (ps_out w') = frameSize (ps_out w) /\
       buf (ps_out w') ++ fa_buffer (ps_frameAssembler w')
       = buf (ps_out w) ++ fa_buffer (ps_frameAssembler w)
         ++ flat_map le16 (relayout (ps_inCh w) (ps_outCh w) sample)) /\
    (frameSize (ps_out w) <> ps_outFrameSize w -> ps_out w' = ps_out w).
Proof.
  intros w sample.
  assert (H1 : 1 <= ps_outFrameSize w) by (vm_compute; congruence).
  assert (H2 : fa_frameSize (ps_frameAssembler w) = ps_outFrameSize w)
    by reflexivity.
  assert (H3 : supported_layout (ps_inCh w) (ps_outCh w))
    by (right; left; split; reflexivity).
  assert (H4 : is_pcm16 sample) by (repeat constructor; lia).
  assert (H5 : (length (fa_buffer (ps_frameAssembler w))
                + 4 * length sample < 20)%nat) by (vm_compute; lia).
  split; [exact H1|]. split; [exact H2|]. split; [exact H3|].
  split; [exact H4|]. split; [exact H5|].
  exact (@X15_sink_delivers_sample_bytes 20 w sample H1 H2 H3 H4 H5).
Defined.

(** ** The reverse path: the speaker queue at a tick *)

Lemma drainFrames_from_spec (q : queue) : forall max dropped,
  0 <= dropped -> dropped + len q < 2 ^ 62 ->
  let d := Z.max dropped (Z.min max (dropped + len q)) in
  drainFrames_from q max dropped = (skipn (Z.to_nat (d - dropped)) q, d).
Proof.
  induction q as [|f q IH]; intros max dropped Hd Hlen d.
  - subst d. change (len (@nil (list byte))) with 0.
    replace (Z.max dropped (Z.min max (dropped + 0)) - dropped) with 0 by lia.
    cbn [drainFrames_from Z.to_nat skipn].
    destruct (Z.ltb_spec dropped max); f_equal; lia.
  - rewrite len_cons in Hlen. pose proof (len_nonneg q) as Hq.
    cbn [drainFrames_from].
    destruct (Z.ltb_spec dropped max) as [Hlt | Hge].
    + rewrite int_small
        by (change (2 ^ 63) with 9223372036854775808;
            change (2 ^ 62) with 4611686018427387904 in Hlen; lia).
      rewrite IH by lia. cbv zeta. subst d. rewrite len_cons.
      replace (Z.max (dropped + 1) (Z.min max (dropped + 1 + len q)))
        with (Z.max dropped (Z.min max (dropped + (1 + len q)))) by lia.
      set (d := Z.max dropped (Z.min max (dropped + (1 + len q)))).
      replace (Z.to_nat (d - dropped)) with (S (Z.to_nat (d - (dropped + 1))))
        by (subst d; lia).
      reflexivity.
    + subst d. rewrite len_cons.
      replace (Z.max dropped (Z.min max (dropped + (1 + len q))) - dropped)
        with 0 by lia.
      cbn [Z.to_nat skipn]. f_equal. lia.
Qed.

Lemma nth_skipn_head {A} (q : list A) (n : nat) (d : A) :
  (n < length q)%nat -> skipn n q = nth n q d :: skipn (S n) q.
Proof.
  revert n. induction q as [|x q IH]; intros n Hn; [simpl in Hn; lia|].
  destruct n as [|n]; [reflexivity|].
  cbn [skipn nth]. apply IH. simpl in Hn. lia.
Qed.

Lemma writeSIP_take_spec (b : MediaBridge) (q : queue) (silence : list byte) :
  1 <= driftTarget b -> 1 <= driftMaxBurst b -> len q < 2 ^ 62 ->
  let dropped :=
    Z.max 0 (Z.min (driftMaxBurst b) (len q - driftTarget b)) in
  writeSIP_take b q silence
    = (skipn (Z.to_nat (dropped + 1)) q, dropped,
       nth (Z.to_nat dropped) q silence) /\
  (q <> [] -> dropped < len q).
Proof.
  intros Ht Hb Hq dropped. pose proof (len_nonneg q) as Hnn.
  assert (Hlt : q <> [] -> dropped < len q).
  { intros Hne. subst dropped. destruct q; [congruence|].
    rewrite len_cons in *. pose proof (len_nonneg q). lia. }
  split; [|exact Hlt].
  assert (Hdrain :
    (if len q >? driftTarget b then
       let toDrop := int (len q - driftTarget b) in
       let toDrop :=
         if (driftMaxBurst b >? 0) && (toDrop >? driftMaxBurst b)
         then driftMaxBurst b else toDrop in
       drainFrames q toDrop
     else (q, 0)) = (skipn (Z.to_nat dropped) q, dropped)).
  { rewrite Z.gtb_ltb. destruct (Z.ltb_spec (driftTarget b) (len q)).
    - cbv zeta.
      rewrite int_small
        by (change (2 ^ 63) with 9223372036854775808;
            change (2 ^ 62) with 4611686018427387904 in Hq; lia).
      rewrite !Z.gtb_ltb.
      destruct (Z.ltb_spec 0 (driftMaxBurst b)); [|lia]. cbn [andb].
      unfold drainFrames.
      rewrite drainFrames_from_spec by lia. cbv zeta.
      destruct (Z.ltb_spec (driftMaxBurst b) (len q - driftTarget b));
        subst dropped; rewrite Z.sub_0_r; f_equal; f_equal; lia.
    - subst dropped.
      replace (Z.max 0 (Z.min (driftMaxBurst b) (len q - driftTarget b)))
        with 0 by lia.
      reflexivity. }
  unfold writeSIP_take. cbv zeta in Hdrain |- *. rewrite Hdrain.
  unfold popFrame.
  destruct q as [|f q].
  - subst dropped. change (len (@nil (list byte))) with 0.
    replace (Z.max 0 (Z.min (driftMaxBurst b) (0 - driftTarget b)))
      with 0 by lia.
    reflexivity.
  - specialize (Hlt ltac:(congruence)).
    assert (Hd0 : 0 <= dropped) by (subst dropped; lia).
    rewrite (@nth_skipn_head _ (f :: q) (Z.to_nat dropped) silence)
      by (unfold len in Hlt; lia).
    replace (Z.to_nat (dropped + 1)) with (S (Z.to_nat dropped)) by lia.
    reflexivity.
Qed.

(** X16.  One tick of the reverse path, on the speaker queue as it stands.
    With target and burst at least 1 (as [NewMediaBridge] leaves them), the
    tick drops the oldest frames beyond the target, at most [driftMaxBurst]
    of them; it then sends the oldest frame left and leaves the rest in
    order.  The silence frame is sent only when the queue was empty: the
    drop never empties a queue. *)
Theorem X16_reverse_tick_bounded_drop
    (b : MediaBridge) (q : queue) (silence : list byte) :
  1 <= driftTarget b -> 1 <= driftMaxBurst b -> len q < 2 ^ 62 ->
  let dropped :=
    Z.max 0 (Z.min (driftMaxBurst b) (len q - driftTarget b)) in
  writeSIP_take b q silence
    = (skipn (Z.to_nat (dropped + 1)) q, dropped,
       nth (Z.to_nat dropped) q silence) /\
  (q <> [] -> dropped < len q).
Proof. apply writeSIP_take_spec. Qed.

Lemma X16_reverse_tick_bounded_drop_witness :
  let b := NewMediaBridge 960 0 0 in
  let q := [eight_bytes; []; eight_bytes; eight_bytes] in
  1 <= driftTarget b /\ 1 <= driftMaxBurst b /\ len q < 2 ^ 62 /\
  let dropped :=
    Z.max 0 (Z.min (driftMaxBurst b) (len q - driftTarget b)) in
  writeSIP_take b q [] 
    = (skipn (Z.to_nat (dropped + 1)) q, dropped,
       nth (Z.to_nat dropped) q []) /\
  (q <> [] -> dropped < len q).
Proof.
  intros b q.
  assert (H1 : 1 <= driftTarget b) by (vm_compute; congruence).
  assert (H2 : 1 <= driftMaxBurst b) by (vm_compute; congruence).
  assert (H3 : len q < 2 ^ 62) by reflexivity.
  split; [exact H1|]. split; [exact H2|]. split; [exact H3|].
  exact (@X16_reverse_tick_bounded_drop b q [] H1 H2 H3).
Defined.

(** ** The codec choice *)

Section CodecChoice.
Import String.
Import strings media.
Local Open Scope Z_scope.

Variable reg : Registry.

Lemma dtmf_only_test c :
  dtmf_only c <-> IsDTMF c || EqualFold (Name c) "telephone-event"%string = true.
Proof. unfold dtmf_only. now rewrite orb_true_iff. Qed.

Lemma best_audio_snoc_keep pre codec i c :
  best_audio reg pre i c ->
  (~ dtmf_only codec ->
   CodecPreferenceWeight reg codec <= CodecPreferenceWeight reg c) ->
  best_audio reg (pre ++ [codec]) i c.
Proof.
  intros (Hnth & Haud & Hmax & Hfirst) Hle.
  assert (Hi : (i < List.length pre)%nat)
    by (apply nth_error_Some; congruence).
  split; [rewrite nth_error_app1 by exact Hi; exact Hnth|].
  split; [exact Haud|]. split.
  - intros c' Hin Hc'. apply in_app_or in Hin. destruct Hin as [Hin | Hin].
    + now apply Hmax.
    + destruct Hin as [<- | []]. now apply Hle.
  - intros j c' Hj Hn Hc'. rewrite nth_error_app1 in Hn by lia.
    now apply (Hfirst j).
Qed.

Lemma best_audio_snoc_new pre codec :
  ~ dtmf_only codec ->
  (forall c', In c' pre -> ~ dtmf_only c' ->
     CodecPreferenceWeight reg c' < CodecPreferenceWeight reg codec) ->
  best_audio reg (pre ++ [codec]) (List.length pre) codec.
Proof.
  intros Haud Hlt. split.
  { rewrite nth_error_app2, Nat.sub_diag by lia. reflexivity. }
  split; [exact Haud|]. split.
  - intros c' Hin Hc'. apply in_app_or in Hin. destruct Hin as [Hin | Hin].
    + specialize (Hlt c' Hin Hc'). lia.
    + destruct Hin as [<- | []]. lia.
  - intros j c' Hj Hn Hc'. rewrite nth_error_app1 in Hn by lia.
    apply Hlt; [|exact Hc']. eapply nth_error_In. exact Hn.
Qed.

(** The scan keeps the best audio codec of what it has been through. *)
Lemma CodecAudioFromList_scan_best codecs : forall pre bestIdx bestPrio,
  (bestIdx = -1 /\ Forall dtmf_only pre) \/
  (0 <= bestIdx /\ exists c,
     best_audio reg pre (Z.to_nat bestIdx) c /\
     CodecPreferenceWeight reg c = bestPrio) ->
  let r := CodecAudioFromList_scan reg codecs (len pre) bestIdx bestPrio in
  (fst r = -1 /\ Forall dtmf_only (pre ++ codecs)) \/
  (0 <= fst r /\ exists c,
     best_audio reg (pre ++ codecs) (Z.to_nat (fst r)) c /\
     CodecPreferenceWeight reg c = snd r).
Proof.
  induction codecs as [|codec codecs IH]; intros pre bi bp Hinv.
  - cbn [CodecAudioFromList_scan fst snd]. rewrite app_nil_r. exact Hinv.
  - cbn [CodecAudioFromList_scan].
    replace (pre ++ codec :: codecs) with ((pre ++ [codec]) ++ codecs)
      by (rewrite <- app_assoc; reflexivity).
    replace (len pre + 1) with (len (pre ++ [codec]))
      by (rewrite len_app; reflexivity).
    destruct (IsDTMF codec || EqualFold (Name codec) "telephone-event"%string)
      eqn:Edtmf.
    + apply dtmf_only_test in Edtmf. apply IH.
      destruct Hinv as [(Hbi & Hall) | (Hbi & c & Hbest & Hw)].
      * left. split; [exact Hbi|]. apply Forall_app. split; [exact Hall|].
        constructor; [exact Edtmf | constructor].
      * right. split; [exact Hbi|]. exists c. split; [|exact Hw].
        apply best_audio_snoc_keep; [exact Hbest|]. intros Hn.
        contradiction.
    + assert (Haud : ~ dtmf_only codec)
        by (rewrite dtmf_only_test, Edtmf; discriminate).
      destruct Hinv as [(Hbi & Hall) | (Hbi & c & Hbest & Hw)].
      * subst bi. change (-1 =? -1) with true. cbn [orb]. apply IH.
        right. split; [apply len_nonneg|]. exists codec.
        split; [|reflexivity].
        unfold len. rewrite Nat2Z.id. apply best_audio_snoc_new;
          [exact Haud|].
        intros c' Hin Hc'. rewrite Forall_forall in Hall.
        destruct (Hc' (Hall c' Hin)).
      * destruct (Z.eqb_spec bi (-1)) as [|_]; [lia|]. cbn [orb].
        rewrite Z.gtb_ltb.
        destruct (Z.ltb_spec bp (CodecPreferenceWeight reg codec))
          as [Hgt | Hle].
        -- apply IH. right. split; [apply len_nonneg|]. exists codec.
           split; [|reflexivity].
           unfold len. rewrite Nat2Z.id. apply best_audio_snoc_new;
             [exact Haud|].
           intros c' Hin Hc'. destruct Hbest as (_ & _ & Hmax & _).
           specialize (Hmax c' Hin Hc'). lia.
        -- apply IH. right. split; [exact Hbi|]. exists c.
           split; [|exact Hw].
           apply best_audio_snoc_keep; [exact Hbest|]. intros _. lia.
Qed.

Lemma CodecAudioFromList_best (codecs : list Codec) :
  match CodecAudioFromList reg codecs with
  | Some c => exists i, best_audio reg codecs i c
  | None => Forall dtmf_only codecs
  end.
Proof.
  unfold CodecAudioFromList.
  pose proof (@CodecAudioFromList_scan_best codecs [] (-1) (- 2 ^ 30)
                (or_introl (conj eq_refl (Forall_nil _)))) as H.
  cbv zeta in H. change (len (@nil Codec)) with 0 in H. cbn [app] in H.
  destruct (CodecAudioFromList_scan reg codecs 0 (-1) (- 2 ^ 30))
    as [bi bp].
  cbn [fst snd] in H.
  destruct H as [(-> & Hall) | (Hbi & c & Hbest & _)].
  - exact Hall.
  - destruct (Z.geb_spec bi 0); [|lia].
    destruct Hbest as (Hnth & Hrest). rewrite Hnth.
    exists (Z.to_nat bi). split; [exact Hnth | exact Hrest].
Qed.

(** X17.  [CodecAudioFromList] returns the audio codec of greatest
    preference weight in the list, the first of them when several share
    it, DTMF entries never; and it returns none exactly when every entry
    of the list is DTMF. *)
Theorem X17_codec_choice_is_best (codecs : list Codec) :
  match CodecAudioFromList reg codecs with
  | Some c => exists i, best_audio reg codecs i c
  | None => Forall dtmf_only codecs
  end.
Proof. apply CodecAudioFromList_best. Qed.

End CodecChoice.

(** ** What an endpoint that was built is made of *)

Section SipSound.
Import String.
Import strings media sip_endpoint.
Local Open Scope Z_scope.

Lemma CodecAudioFromList_some reg codecs c :
  CodecAudioFromList reg codecs = Some c -> In c codecs /\ ~ dtmf_only c.
Proof.
  intros H. pose proof (CodecAudioFromList_best reg codecs) as Hb.
  rewrite H in Hb. destruct Hb as (i & Hnth & Haud & _).
  split; [eapply nth_error_In; exact Hnth | exact Haud].
Qed.

Lemma pickAudio_some reg s c :
  pickAudio reg (Some s) = inl c ->
  (In c (CommonCodecs s) \/ (CommonCodecs s = [] /\ In c (Codecs s))) /\
  ~ dtmf_only c.
Proof.
  unfold pickAudio. rewrite Z.gtb_ltb.
  destruct (Z.ltb_spec 0 (len (CommonCodecs s))) as [Hc | Hc].
  - destruct (CodecAudioFromList reg (CommonCodecs s)) eqn:E; [|discriminate].
    intros H. injection H as <-.
    apply CodecAudioFromList_some in E. tauto.
  - destruct (CodecAudioFromList reg (Codecs s)) eqn:E; [|discriminate].
    intros H. injection H as <-.
    apply CodecAudioFromList_some in E.
    destruct (CommonCodecs s); [tauto|]. rewrite len_cons in Hc.
    pose proof (len_nonneg l). lia.
Qed.

Lemma NewSipEndpoint_sound reg session cfg ep :
  NewSipEndpoint reg session cfg = inl ep ->
  let c := Codec_ ep in
  (exists s, session = Some s /\
     (In c (CommonCodecs s) \/ (CommonCodecs s = [] /\ In c (Codecs s)))) /\
  ~ dtmf_only c /\ supported_name c /\ valid_channels c /\
  available reg c (LK ep) /\ LKSDPName ep = CanonicalSDPName c /\
  Channels ep = NumChannels c /\
  supported_layout (Channels ep) 1 /\ supported_layout 1 (Channels ep) /\
  0 < FrameDur ep /\
  EnableJitter ep = (JitterMinPackets cfg >? 0).
Proof.
  unfold NewSipEndpoint. destruct session as [s|]; [|discriminate].
  destruct (pickAudio reg (Some s)) as [c|e] eqn:Epick; [|discriminate].
  apply pickAudio_some in Epick. destruct Epick as (Hin & Haud).
  cbv zeta.
  destruct (String.eqb (ToLower (Name c)) "opus"
            || String.eqb (ToLower (Name c)) "pcmu"
            || String.eqb (ToLower (Name c)) "pcma"
            || String.eqb (ToLower (Name c)) "g722")%bool eqn:Esup;
    cbn [negb]; [|discriminate].
  assert (Hsup : supported_name c).
  { unfold supported_name. cbv zeta.
    rewrite !orb_true_iff, !String.eqb_eq in Esup. tauto. }
  match goal with
  | |- context [if (if ?a then ?x else ?y) then _ else _] =>
      destruct (if a then x else y) eqn:Ech
  end; [discriminate|].
  assert (Hval : valid_channels c).
  { unfold valid_channels.
    destruct (String.eqb (ToLower (Name c)) "opus").
    - apply andb_false_iff in Ech. rewrite !negb_false_iff in Ech.
      destruct Ech as [H | H]; apply Z.eqb_eq in H; tauto.
    - rewrite negb_false_iff in Ech. now apply Z.eqb_eq in Ech. }
  destruct (String.eqb (TrimSpace (CanonicalSDPName c)) ""); [discriminate|].
  destruct (reg (CanonicalSDPName c)) as [lk|] eqn:Ereg; [|discriminate].
  destruct (isAudioCodec lk) eqn:Ea; cbn [negb orb]; [|discriminate].
  destruct (CodecEnabled lk) eqn:Een; cbn [negb]; [|discriminate].
  intros H. injection H as <-. cbn [Codec_ LK LKSDPName Channels FrameDur
                                     EnableJitter].
  assert (Hch : NumChannels c = 1 \/ NumChannels c = 2).
  { unfold valid_channels in Hval.
    destruct (String.eqb (ToLower (Name c)) "opus"); tauto. }
  assert (Hmax : maxInt 1 (NumChannels c) = NumChannels c).
  { unfold maxInt. rewrite Z.gtb_ltb.
    destruct (Z.ltb_spec (NumChannels c) 1); lia. }
  rewrite Hmax.
  split; [exists s; split; [reflexivity | exact Hin]|].
  split; [exact Haud|]. split; [exact Hsup|]. split; [exact Hval|].
  split; [repeat split; assumption|]. split; [reflexivity|].
  split; [reflexivity|].
  split; [destruct Hch as [-> | ->];
          [left; reflexivity | right; right; split; reflexivity]|].
  split; [destruct Hch as [-> | ->];
          [left; reflexivity | right; left; split; reflexivity]|].
  split; [|reflexivity].
  destruct (Z.leb_spec (FrameDuration cfg) 0); lia.
Qed.

(** X24.  What [NewSipEndpoint] has checked when it returns an endpoint.
    The codec of the endpoint comes from the session (the common codecs,
    or the session's list when there are no common codecs); it is not
    DTMF, it is PCMU, PCMA, G722 or Opus with a valid channel count, and
    its media-sdk codec is the registry's entry under the canonical name,
    an audio codec and enabled.  The channel count is 1 or 2, so the
    conversions to and from the mono TG side are between layouts the
    converters support; the frame duration is positive; and jitter
    buffering is on exactly when [JitterMinPackets] is positive. *)
Theorem X24_sip_endpoint_is_sound
    (reg : Registry) (session : option MediaSession) (cfg : SIPMediaConfig)
    (ep : SipEndpoint) :
  NewSipEndpoint reg session cfg = inl ep ->
  let c := Codec_ ep in
  (exists s, session = Some s /\
     (In c (CommonCodecs s) \/ (CommonCodecs s = [] /\ In c (Codecs s)))) /\
  ~ dtmf_only c /\ supported_name c /\ valid_channels c /\
  available reg c (LK ep) /\ LKSDPName ep = CanonicalSDPName c /\
  Channels ep = NumChannels c /\
  supported_layout (Channels ep) 1 /\ supported_layout 1 (Channels ep) /\
  0 < FrameDur ep /\
  EnableJitter ep = (JitterMinPackets cfg >? 0).
Proof. apply NewSipEndpoint_sound. Qed.

Lemma X24_sip_endpoint_is_sound_witness :
  let s := {| CommonCodecs := [codec_pcmu; codec_dtmf];
              Codecs := [codec_opus; codec_pcmu; codec_dtmf] |} in
  let ep := {| LK := lk_codec "PCMU/8000" 8000 8000 (-20);
               LKSDPName := "PCMU/8000";
               Codec_ := codec_pcmu;
               ep_SampleRate := 8000;
               RTPClockRate := 8000;
               Channels := 1;
               FrameDur := 20000000;
               EnableJitter := false |} in
  NewSipEndpoint registry_without_opus (Some s) default_cfg = inl ep /\
  let c := Codec_ ep in
  (exists s', Some s = Some s' /\
     (In c (CommonCodecs s') \/ (CommonCodecs s' = [] /\ In c (Codecs s')))) /\
  ~ dtmf_only c /\ supported_name c /\ valid_channels c /\
  available registry_without_opus c (LK ep) /\
  LKSDPName ep = CanonicalSDPName c /\
  Channels ep = NumChannels c /\
  supported_layout (Channels ep) 1 /\ supported_layout 1 (Channels ep) /\
  0 < FrameDur ep /\
  EnableJitter ep = (JitterMinPackets default_cfg >? 0).
Proof.
  intros s ep.
  assert (H : NewSipEndpoint registry_without_opus (Some s) default_cfg
              = inl ep) by (vm_compute; reflexivity).
  split; [exact H|].
  exact (@X24_sip_endpoint_is_sound registry_without_opus (Some s)
           default_cfg ep H).
Defined.

End SipSound.

(** ** The silence filler and the encoded path *)

Section FillerForwards.
Variables Enc error : Type.
Variable encHandleRTP : Enc -> Header -> list byte -> Enc * option error.

Local Abbreviation filler := (silenceFiller Enc recorder).
Local Abbreviation handle := (HandleRTP encHandleRTP (@record_sample error)).

Ltac forwarded h cur payload :=
  unfold forward; cbn [encodedSink];
  destruct (encHandleRTP (encodedSink h) cur payload) as [enc err];
  eexists; split; [reflexivity|]; cbn; split; reflexivity.

(** Whatever it writes to the PCM sink, the filler hands the packet to the
    encoded sink once and returns what the sink returned. *)
Lemma HandleRTP_forwards (h : filler) cur payload :
  0 < samplesPerFrame h < 2 ^ 63 ->
  exists h',
    handle h cur payload
      = Ok (h', snd (encHandleRTP (encodedSink h) cur payload)) /\
    encodedSink h' = fst (encHandleRTP (encodedSink h) cur payload) /\
    samplesPerFrame h' = samplesPerFrame h.
Proof.
  intros Hspf. unfold HandleRTP, isSilenceSuppression. cbv zeta.
  cbn [samplesPerFrame maxGapSize].
  rewrite (@int_small (samplesPerFrame h)) by lia.
  unfold div. destruct (Z.eqb_spec (samplesPerFrame h) 0); [lia|].
  destruct (uint64 (packets h + 1) =? 1); [cbn [bind andb]; forwarded h cur payload|].
  match goal with
  | |- context [negb ?c] => destruct c
  end; cbn [negb]; [|cbn [bind andb]; forwarded h cur payload].
  cbn [bind].
  match goal with
  | |- context [Z.quot ?a ?b =? 0] => set (m := Z.quot a b)
  end.
  destruct (m =? 0); [cbn [bind andb]; forwarded h cur payload|].
  cbn [bind andb maxGapSize].
  destruct (m <=? int (maxGapSize h * 100));
    [|forwarded h cur payload].
  destruct (m <=? maxGapSize h); [|forwarded h cur payload].
  unfold fillWithSilence. cbn [samplesPerFrame pcmSink].
  rewrite fillWithSilence_loop_record by lia. cbn [bind].
  forwarded h cur payload.
Qed.

Lemma feed_forwards pkts : forall h : filler,
  0 < samplesPerFrame h < 2 ^ 63 ->
  exists h',
    feed encHandleRTP (@record_sample error) h pkts
      = Ok (h', snd (enc_run encHandleRTP (encodedSink h) pkts)) /\
    encodedSink h' = fst (enc_run encHandleRTP (encodedSink h) pkts) /\
    samplesPerFrame h' = samplesPerFrame h.
Proof.
  induction pkts as [|[cur payload] pkts IH]; intros h Hspf.
  - exists h. repeat split.
  - destruct (HandleRTP_forwards h cur payload Hspf)
      as (h1 & Hrun & Henc & Hs).
    cbn [feed enc_run]. rewrite Hrun. cbn [bind].
    destruct (encHandleRTP (encodedSink h) cur payload) as [enc [e|]];
      cbn [fst snd] in *.
    + exists h1. repeat split; assumption.
    + destruct (IH h1 ltac:(lia)) as (h2 & Hrun2 & Henc2 & Hs2).
      rewrite Henc in *. exists h2. repeat split; congruence.
Qed.

(** X18.  The silence filler is transparent on the encoded path.  With a
    positive frame length and a PCM sink that does not fail, a stream fed
    to the filler never panics; the encoded sink has received every packet
    unchanged and in order, up to the first packet it reports an error
    for; and that error, if any, is what the feeding loop stops with. *)
Theorem X18_silence_filler_forwards_every_packet
    (h : silenceFiller Enc recorder) (pkts : list (Header * list byte)) :
  0 < samplesPerFrame h < 2 ^ 63 ->
  exists h',
    feed encHandleRTP (@record_sample error) h pkts
      = Ok (h', snd (enc_run encHandleRTP (encodedSink h) pkts)) /\
    encodedSink h' = fst (enc_run encHandleRTP (encodedSink h) pkts) /\
    samplesPerFrame h' = samplesPerFrame h.
Proof. apply feed_forwards. Qed.

End FillerForwards.

Lemma X18_silence_filler_forwards_every_packet_witness :
  let pkts := [(hdr 7 1000, eight_bytes); (hdr 8 1480, []);
               (hdr 10 1640, eight_bytes)] in
  0 < samplesPerFrame pcmu_filler < 2 ^ 63 /\
  exists h',
    feed record_packet (@record_sample unit) pcmu_filler pkts
      = Ok (h', snd (enc_run record_packet (encodedSink pcmu_filler) pkts)) /\
    encodedSink h' = fst (enc_run record_packet (encodedSink pcmu_filler) pkts) /\
    samplesPerFrame h' = samplesPerFrame pcmu_filler.
Proof.
  intros pkts.
  assert (H : 0 < samplesPerFrame pcmu_filler < 2 ^ 63)
    by (vm_compute; split; congruence).
  split; [exact H|].
  exact (@X18_silence_filler_forwards_every_packet _ _ record_packet
           pcmu_filler pkts H).
Defined.



(** ** The injector: the step and the grid *)

Lemma SendPCMFrame10ms_keeps_anchor s t0 t1 :
  micOnce s = true ->
  micStartWallMs (fst (SendPCMFrame10ms s t0 t1)) = micStartWallMs s.
Proof. intros H. unfold SendPCMFrame10ms. rewrite H. reflexivity. Qed.

Lemma inject_tracks clock : forall s k e,
  stepMs s < 2 ^ 31 -> 0 <= k ->
  (k + len clock) * step_of s < 2 ^ 61 ->
  anchored s k e ->
  Forall (fun c => mono_ns (micStart s) <= mono_ns (snd c)) clock ->
  Forall (fun c =>
            (cap_ts c - micStartWallMs s) mod step_of s = 0 /\
            micStartWallMs s
              + Z.quot (cap_elapsedMs c) (step_of s) * step_of s
              <= cap_ts c)
         (snd (inject s clock)).
Proof.
  induction clock as [|[t0 t1] clock IH]; intros s k e Hstep Hk Hlen Hanc Hmono.
  - constructor.
  - rewrite len_cons in Hlen. pose proof (len_nonneg clock) as Hnn.
    pose proof (step_of_pos s Hstep) as Hs.
    inversion Hmono as [|? ? Hm1 Hrest]; subst. cbn [snd] in Hm1.
    assert (Hk1 : (k + 1) * step_of s < 2 ^ 61) by nia.
    pose proof (@SendPCMFrame10ms_keeps_anchor s t0 t1 (proj1 Hanc)) as Hkeep.
    destruct (@SendPCMFrame10ms_anchored s k e t0 t1 Hstep Hk Hk1 Hanc Hm1)
      as (s' & ts & Hsend & Hlast & Hstart & Hst & _ & _ & _ & _ & Hanc').
    rewrite Hsend in Hkeep. cbn [fst] in Hkeep.
    cbn [inject]. rewrite Hsend.
    pose proof (step_of_stepMs s s' Hst) as Hso.
    specialize (IH s' (k + 1) (Milliseconds (Sub t1 (micStart s)))).
    rewrite Hso, Hst, Hstart, Hkeep in IH.
    specialize (IH Hstep ltac:(lia) ltac:(nia) Hanc' Hrest).
    destruct (inject s' clock) as [s'' cs]. cbn [snd] in *.
    constructor; [|exact IH].
    cbn [cap_ts cap_elapsedMs].
    destruct Hanc' as (_ & _ & Hgrid & Hlow & _).
    rewrite Hso, Hkeep, Hlast in Hgrid, Hlow. split; assumption.
Qed.

(** X20.  The step [NewTgEndpoint] derives.  For a positive sample rate
    and a frame of at least one PCM16 sample it is the frame's duration in
    whole milliseconds, and 1 when that would be 0; in every other case it
    is 10.  It is never below 1, so the fallback of [SendPCMFrame10ms] for
    a step below 1 is not taken on an endpoint the constructor built. *)
Theorem X20_new_tg_endpoint_step (frameSize sampleRate : Z) :
  frameSize < 2 ^ 53 -> - 2 ^ 63 <= sampleRate < 2 ^ 63 ->
  let s := NewTgEndpoint frameSize sampleRate in
  stepMs s = (if (0 <? sampleRate) && (2 <=? frameSize)
              then Z.max 1 (Z.quot (Z.quot frameSize 2 * 1000) sampleRate)
              else 10) /\
  1 <= stepMs s /\ step_of s = stepMs s /\ micOnce s = false.
Proof.
  intros Hfs Hsr s.
  change (2 ^ 53) with 9007199254740992 in Hfs.
  assert (Hstep :
    stepMs s = if (0 <? sampleRate) && (2 <=? frameSize)
               then Z.max 1 (Z.quot (Z.quot frameSize 2 * 1000) sampleRate)
               else 10).
  { subst s. unfold NewTgEndpoint. cbv zeta. cbn [stepMs].
    rewrite !Z.gtb_ltb.
    destruct (Z.ltb_spec 0 sampleRate) as [Hr|Hr]; [|reflexivity].
    destruct (Z.ltb_spec 0 frameSize) as [Hf|Hf]; cbn [andb].
    2:{ destruct (Z.leb_spec 2 frameSize); [lia | reflexivity]. }
    destruct (Z.ltb_spec 0 (Z.quot frameSize 2)) as [Hq|Hq].
    2:{ destruct (Z.leb_spec 2 frameSize); [lia | reflexivity]. }
    destruct (Z.leb_spec 2 frameSize); [|lia].
    rewrite (@int_small (Z.quot frameSize 2 * 1000))
      by (change (2 ^ 63) with 9223372036854775808; lia).
    rewrite !int64_small
      by (change (2 ^ 63) with 9223372036854775808 in *; lia).
    destruct (Z.ltb_spec (Z.quot (Z.quot frameSize 2 * 1000) sampleRate) 1);
      lia. }
  assert (H1 : 1 <= stepMs s).
  { rewrite Hstep. destruct ((0 <? sampleRate) && (2 <=? frameSize)); lia. }
  split; [exact Hstep|]. split; [exact H1|]. split; [|reflexivity].
  unfold step_of. destruct (Z.ltb_spec (stepMs s) 1); [lia | reflexivity].
Qed.

Lemma X20_new_tg_endpoint_step_witness :
  441 * 2 < 2 ^ 53 /\ - 2 ^ 63 <= 44100 < 2 ^ 63 /\
  let s := NewTgEndpoint (441 * 2) 44100 in
  stepMs s = (if (0 <? 44100) && (2 <=? 441 * 2)
              then Z.max 1 (Z.quot (Z.quot (441 * 2) 2 * 1000) 44100)
              else 10) /\
  1 <= stepMs s /\ step_of s = stepMs s /\ micOnce s = false.
Proof.
  assert (H1 : 441 * 2 < 2 ^ 53) by reflexivity.
  assert (H2 : - 2 ^ 63 <= 44100 < 2 ^ 63)
    by (split; [discriminate | reflexivity]).
  split; [exact H1|]. split; [exact H2|].
  exact (@X20_new_tg_endpoint_step (441 * 2) 44100 H1 H2).
Defined.

(** X21.  The capture timestamps never fall behind the clock.  On a fresh
    endpoint, every timestamp handed on is the wall-clock reading of the
    first call plus a whole number of steps, and is no earlier than that
    reading plus the monotonic time elapsed since, rounded down to a
    step. *)
Theorem X21_capture_timestamps_track_clock (s : TgEndpoint)
    (t0 t1 : Time) (rest : list (Time * Time)) :
  micOnce s = false ->
  stepMs s < 2 ^ 31 ->
  len ((t0, t1) :: rest) * step_of s < 2 ^ 61 ->
  steady_clock ((t0, t1) :: rest) ->
  Forall (fun c =>
            (cap_ts c - wall_ms t0) mod step_of s = 0 /\
            wall_ms t0 + Z.quot (cap_elapsedMs c) (step_of s) * step_of s
              <= cap_ts c)
         (snd (inject s ((t0, t1) :: rest))).
Proof.
  intros Hfresh Hstep Hlen (HW & Hmono).
  pose proof (@inject_tracks ((t0, t1) :: rest) (anchor s t0) 0
                (- step_of s)) as Hrun.
  assert (Hso : step_of (anchor s t0) = step_of s) by reflexivity.
  rewrite Hso in Hrun.
  change (stepMs (anchor s t0)) with (stepMs s) in Hrun.
  change (micStartWallMs (anchor s t0)) with (wall_ms t0) in Hrun.
  change (micStart (anchor s t0)) with t0 in Hrun.
  specialize (Hrun Hstep ltac:(lia) ltac:(lia)
                (anchor_anchored s t0 Hstep HW) Hmono).
  cbn [inject] in Hrun |- *.
  rewrite SendPCMFrame10ms_first by assumption.
  exact Hrun.
Qed.

Lemma X21_capture_timestamps_track_clock_witness :
  let s := NewTgEndpoint 960 48000 in
  let at_ms (w m : Z) := {| wall_ms := w; mono_ns := m * 1000000 |} in
  let t0 := at_ms 1700000000000 5 in
  let t1 := at_ms 1700000000000 5 in
  let rest := [(at_ms 0 0, at_ms 1700000000003 8);
               (at_ms 0 0, at_ms 1700000000047 52)] in
  micOnce s = false /\ stepMs s < 2 ^ 31 /\
  len ((t0, t1) :: rest) * step_of s < 2 ^ 61 /\
  steady_clock ((t0, t1) :: rest) /\
  Forall (fun c =>
            (cap_ts c - wall_ms t0) mod step_of s = 0 /\
            wall_ms t0 + Z.quot (cap_elapsedMs c) (step_of s) * step_of s
              <= cap_ts c)
         (snd (inject s ((t0, t1) :: rest))).
Proof.
  intros s at_ms t0 t1 rest.
  assert (H1 : micOnce s = false) by reflexivity.
  assert (H2 : stepMs s < 2 ^ 31) by reflexivity.
  assert (H3 : len ((t0, t1) :: rest) * step_of s < 2 ^ 61) by reflexivity.
  assert (H4 : steady_clock ((t0, t1) :: rest)).
  { split; [vm_compute; split; congruence|].
    repeat constructor; vm_compute; congruence. }
  split; [exact H1|]. split; [exact H2|]. split; [exact H3|].
  split; [exact H4|].
  exact (@X21_capture_timestamps_track_clock s t0 t1 rest H1 H2 H3 H4).
Defined.

(** ** Mixing on bytes *)







